(** * Natron cache (Engine/Cache.cpp): a shallow embedding and its properties

    The development follows Engine/Cache.cpp.  The cache is an array of 256
    buckets; every bucket owns an index from 64-bit hashes to entry headers,
    an intrusive LRU list threaded through the entry headers, a byte counter
    and a set of free tile ids.

    Modelling choices, all of them stated once here:
    - [U64] and [std::size_t] values are integers in [Z]; every addition and
      subtraction the code performs on them is wrapped modulo 2^64 by
      [wrap64].
    - An [LRUListNodePtr] points to the [lruNode] member of an entry header.
      Entry headers are owned by [entriesMap], one per hash, so a node
      pointer is modelled by the hash under which its header is stored and
      the null pointer by [None].  Dereferencing a pointer whose header is
      gone is undefined behaviour in C++; the model returns [None] there.
    - The build without NATRON_CACHE_INTERPROCESS_ROBUST is modelled: locks
      are plain blocking locks and calls run one after the other.  The ToC
      segment allocator is unbounded (no [bip::bad_alloc] from container
      operations), so growing and remapping the mapped file leave the
      modelled data unchanged.
    - [NATRON_TILE_SIZE_BYTES] and the template argument [persistent] are
      parameters of the development. *)

From Stdlib Require Import ZArith Lia.
From stdpp Require Import gmap strings list fin_maps.

Local Open Scope Z_scope.

(** ** Machine integers *)

Definition wrap64 (z : Z) : Z := z mod 2 ^ 64.

Definition U64_add (a b : Z) : Z := wrap64 (a + b).
Definition U64_sub (a b : Z) : Z := wrap64 (a - b).
Definition U64_mul (a b : Z) : Z := wrap64 (a * b).

(** ** Constants of Cache.cpp *)

Definition NATRON_CACHE_BUCKETS_N_DIGITS : Z := 2.
Definition NATRON_CACHE_BUCKETS_COUNT : Z := 256.
Definition NATRON_NUM_TILES_PER_BUCKET_FILE : Z := 256.
Definition NATRON_NUM_TILES_PER_FILE : Z :=
  NATRON_NUM_TILES_PER_BUCKET_FILE * NATRON_CACHE_BUCKETS_COUNT.
Definition NATRON_MEMORY_SEGMENT_ENTRY_HEADER_VERSION : Z := 1.
Definition kNatronIPCPropertyHash : string := "NatronIPCPropertyHash".

(** ** Bucket index of a hash *)

(** [getBucketStorageIndex<level>(hash)]: mask the digits on the left of the
    level away, then shift the level's two hexadecimal digits down. *)
Definition getBucketStorageIndex (level : Z) (hash : Z) : Z :=
  let mask :=
    Z.shiftr 0xffffffffffffffff (NATRON_CACHE_BUCKETS_N_DIGITS * level * 4) in
  let index := Z.land hash mask in
  Z.shiftr index (64 - NATRON_CACHE_BUCKETS_N_DIGITS * (level + 1) * 4).

(** [CacheBase::getBucketCacheBucketIndex] instantiates the template at
    level 7. *)
Definition getBucketCacheBucketIndex (hash : Z) : Z :=
  getBucketStorageIndex 7 hash.

(** [getBucketIndexForTile(entryHash, tileIndex)]: the sum is a [U64]. *)
Definition getBucketIndexForTile (entryHash tileIndex : Z) : Z :=
  getBucketCacheBucketIndex (U64_add entryHash tileIndex).

(** [getTileIndex(encoded, &tileIndex, &fileIndex)]: both outputs are [U32]. *)
Definition getTileIndex (encoded : Z) : Z * Z :=
  (Z.shiftr encoded 32 mod 2 ^ 32, encoded mod 2 ^ 32).

(** The encoding used when a storage file is seeded:
    [(i << 32) | fileIndex] on [U64]. *)
Definition encodeTileIndex (i fileIndex : Z) : Z :=
  Z.lor (wrap64 (Z.shiftl i 32)) fileIndex.

(** ** Data model *)

Inductive EntryStatusEnum :=
| eEntryStatusReady
| eEntryStatusNull
| eEntryStatusPending.

Inductive BucketStateEnum :=
| eBucketStateOk
| eBucketStateInconsistent.

Inductive CacheEntryStatusEnum :=
| eCacheEntryStatusCached
| eCacheEntryStatusMustCompute
| eCacheEntryStatusComputationPending.

Inductive ShmEntryReadRetCodeEnum :=
| eShmEntryReadRetCodeOk
| eShmEntryReadRetCodeDeserializationFailed
| eShmEntryReadRetCodeOutOfMemory
| eShmEntryReadRetCodeNeedWriteLock.

Inductive LookUpRetCodeEnum :=
| eLookUpRetCodeFound
| eLookUpRetCodeNotFound
| eLookUpRetCodeOutOfMemory.

Inductive LookupAndCreateRetCodeEnum :=
| eLookupAndCreateRetCodeCreated
| eLookupAndCreateRetCodeOutOfToCMemory.

Inductive InsertRetCodeEnum :=
| eInsertRetCodeCreated
| eInsertRetCodeOutOfToCMemory
| eInsertRetCodeFailed.

Inductive FromMemorySegmentRetCodeEnum :=
| eFromMemorySegmentRetCodeOk
| eFromMemorySegmentRetCodeFailed
| eFromMemorySegmentRetCodeNeedWriteLock.

(** What a call of [CacheEntryBase::fromMemorySegment] can do: return a code,
    throw [bip::bad_alloc], or throw another [std::exception]. *)
Inductive FromMemorySegmentOutcome :=
| fmsReturn (code : FromMemorySegmentRetCodeEnum)
| fmsBadAlloc
| fmsException.

#[global] Instance EntryStatusEnum_eq_dec : EqDecision EntryStatusEnum.
Proof. solve_decision. Defined.
#[global] Instance BucketStateEnum_eq_dec : EqDecision BucketStateEnum.
Proof. solve_decision. Defined.
#[global] Instance CacheEntryStatusEnum_eq_dec : EqDecision CacheEntryStatusEnum.
Proof. solve_decision. Defined.
#[global] Instance ShmEntryReadRetCodeEnum_eq_dec :
  EqDecision ShmEntryReadRetCodeEnum.
Proof. solve_decision. Defined.
#[global] Instance InsertRetCodeEnum_eq_dec : EqDecision InsertRetCodeEnum.
Proof. solve_decision. Defined.

(** Modelled from the spec: [IPCPropertyMap] is declared in another file of
    the repository.  Cache.cpp uses it through [getIPCProperty(name, 0, &v)],
    [setIPCProperty(name, v)] and [clear()] only, so a finite map from
    property names to [U64] values is all that is needed. *)
Abbreviation IPCPropertyMap := (gmap string Z).

Definition getIPCProperty (name : string) (m : IPCPropertyMap) : option Z :=
  m !! name.
Definition setIPCProperty (name : string) (v : Z) (m : IPCPropertyMap)
  : IPCPropertyMap := <[name := v]> m.

(** Modelled from the spec: the process-local [CacheEntryBase] is the opaque
    payload capability ([metadata_size], [serialize], [deserialize],
    [holder_id], [allow_multiple_fetch_per_thread], [hash_of_deserialized]).
    [toMemorySegment] yields the properties it wrote, or [None] when it threw
    [bip::bad_alloc]; [getHashKeyForced] is [getHashKey(true)] evaluated after
    a deserialization from the given properties. *)
Record CacheEntryBase := mkCacheEntryBase {
  getHashKey : Z;
  getMetadataSize : Z;
  allowMultipleFetchForThread : bool;
  getHolderPluginID : string;
  toMemorySegment : IPCPropertyMap -> option IPCPropertyMap;
  fromMemorySegment : bool -> IPCPropertyMap -> FromMemorySegmentOutcome;
  getHashKeyForced : IPCPropertyMap -> Z
}.

Record LRUListNode := mkLRUListNode {
  prev : option Z;
  next : option Z;
  hash : Z
}.

(** [MemorySegmentEntryHeader]: the base fields, then the fields of the two
    specialisations.  [entry_size] is the member [size]. *)
Record MemorySegmentEntryHeader := mkEntry {
  entry_size : Z;
  status : EntryStatusEnum;
  computeThreadMagic : Z;
  lruNode : LRUListNode;
  tileIndices : list Z;
  pluginID : string;
  properties : IPCPropertyMap;
  nonPersistentEntry : option CacheEntryBase
}.

(** [CacheBucketIPCData]; [bucket_size] is the member [size]. *)
Record CacheBucketIPCData := mkBucket {
  lruListFront : option Z;
  lruListBack : option Z;
  version : Z;
  bucketState : BucketStateEnum;
  bucket_size : Z;
  entriesMap : gmap Z MemorySegmentEntryHeader;
  freeTiles : gset Z
}.

(** [CachePrivate]: [tilesStorage] is kept as the number of storage files. *)
Record CachePrivate := mkCache {
  maximumSize : Z;
  buckets : list CacheBucketIPCData;
  tilesStorage : nat;
  useTileStorage : bool
}.

(** [CacheEntryLockerPrivate]: [bucket] is the index of the bucket pointed
    to, [None] for the null pointer. *)
Record CacheEntryLockerPrivate := mkLocker {
  processLocalEntry : CacheEntryBase;
  lockerHash : Z;
  bucket : option nat;
  lockerStatus : CacheEntryStatusEnum
}.

(** *** Constructors of the source *)

Definition newLRUListNode : LRUListNode := mkLRUListNode None None 0.

Definition newEntry : MemorySegmentEntryHeader :=
  mkEntry 0 eEntryStatusNull 0 newLRUListNode [] "" ∅ None.

Definition newBucket : CacheBucketIPCData :=
  mkBucket None None NATRON_MEMORY_SEGMENT_ENTRY_HEADER_VERSION
           eBucketStateOk 0 ∅ ∅.

Definition newLocker (entry : CacheEntryBase) : CacheEntryLockerPrivate :=
  mkLocker entry (getHashKey entry) None eCacheEntryStatusMustCompute.

(** *** Field updates *)

Definition set_prev (p : option Z) (e : MemorySegmentEntryHeader) :=
  mkEntry (entry_size e) (status e) (computeThreadMagic e)
          (mkLRUListNode p (next (lruNode e)) (hash (lruNode e)))
          (tileIndices e) (pluginID e) (properties e) (nonPersistentEntry e).

Definition set_next (n : option Z) (e : MemorySegmentEntryHeader) :=
  mkEntry (entry_size e) (status e) (computeThreadMagic e)
          (mkLRUListNode (prev (lruNode e)) n (hash (lruNode e)))
          (tileIndices e) (pluginID e) (properties e) (nonPersistentEntry e).

Definition set_lruNode (n : LRUListNode) (e : MemorySegmentEntryHeader) :=
  mkEntry (entry_size e) (status e) (computeThreadMagic e) n
          (tileIndices e) (pluginID e) (properties e) (nonPersistentEntry e).

Definition set_status (s : EntryStatusEnum) (e : MemorySegmentEntryHeader) :=
  mkEntry (entry_size e) s (computeThreadMagic e) (lruNode e)
          (tileIndices e) (pluginID e) (properties e) (nonPersistentEntry e).

Definition set_computeThreadMagic (t : Z) (e : MemorySegmentEntryHeader) :=
  mkEntry (entry_size e) (status e) t (lruNode e)
          (tileIndices e) (pluginID e) (properties e) (nonPersistentEntry e).

Definition set_tileIndices (l : list Z) (e : MemorySegmentEntryHeader) :=
  mkEntry (entry_size e) (status e) (computeThreadMagic e) (lruNode e)
          l (pluginID e) (properties e) (nonPersistentEntry e).

Definition set_properties (p : IPCPropertyMap) (e : MemorySegmentEntryHeader) :=
  mkEntry (entry_size e) (status e) (computeThreadMagic e) (lruNode e)
          (tileIndices e) (pluginID e) p (nonPersistentEntry e).

Definition set_entriesMap (m : gmap Z MemorySegmentEntryHeader)
    (b : CacheBucketIPCData) :=
  mkBucket (lruListFront b) (lruListBack b) (version b) (bucketState b)
           (bucket_size b) m (freeTiles b).

Definition set_lruListFront (p : option Z) (b : CacheBucketIPCData) :=
  mkBucket p (lruListBack b) (version b) (bucketState b)
           (bucket_size b) (entriesMap b) (freeTiles b).

Definition set_lruListBack (p : option Z) (b : CacheBucketIPCData) :=
  mkBucket (lruListFront b) p (version b) (bucketState b)
           (bucket_size b) (entriesMap b) (freeTiles b).

Definition set_bucketState (s : BucketStateEnum) (b : CacheBucketIPCData) :=
  mkBucket (lruListFront b) (lruListBack b) (version b) s
           (bucket_size b) (entriesMap b) (freeTiles b).

Definition set_bucket_size (s : Z) (b : CacheBucketIPCData) :=
  mkBucket (lruListFront b) (lruListBack b) (version b) (bucketState b)
           s (entriesMap b) (freeTiles b).

Definition set_freeTiles (s : gset Z) (b : CacheBucketIPCData) :=
  mkBucket (lruListFront b) (lruListBack b) (version b) (bucketState b)
           (bucket_size b) (entriesMap b) s.

Definition set_buckets (l : list CacheBucketIPCData) (c : CachePrivate) :=
  mkCache (maximumSize c) l (tilesStorage c) (useTileStorage c).

Definition set_tilesStorage (n : nat) (c : CachePrivate) :=
  mkCache (maximumSize c) (buckets c) n (useTileStorage c).

Definition set_lockerStatus (s : CacheEntryStatusEnum)
    (l : CacheEntryLockerPrivate) :=
  mkLocker (processLocalEntry l) (lockerHash l) (bucket l) s.

Definition set_bucket (b : option nat) (l : CacheEntryLockerPrivate) :=
  mkLocker (processLocalEntry l) (lockerHash l) b (lockerStatus l).

Definition set_processLocalEntry (e : CacheEntryBase)
    (l : CacheEntryLockerPrivate) :=
  mkLocker e (lockerHash l) (bucket l) (lockerStatus l).

(** [buckets[i]] and [buckets[i] = b]; an index outside the array has no
    bucket. *)
Definition getBucket (c : CachePrivate) (i : nat) : option CacheBucketIPCData :=
  buckets c !! i.

Definition setBucket (i : nat) (b : CacheBucketIPCData) (c : CachePrivate)
  : CachePrivate := set_buckets (<[i := b]> (buckets c)) c.

(** ** The intrusive LRU list *)

(** Write through a node pointer: [None] when the header is gone. *)
Definition writeEntry (f : MemorySegmentEntryHeader -> MemorySegmentEntryHeader)
    (k : Z) (m : gmap Z MemorySegmentEntryHeader)
  : option (gmap Z MemorySegmentEntryHeader) :=
  e ← m !! k; Some (<[k := f e]> m).

(** [disconnectLinkedListNode(node)], statement by statement. *)
Definition disconnectLinkedListNode (node : Z)
    (m : gmap Z MemorySegmentEntryHeader)
  : option (gmap Z MemorySegmentEntryHeader) :=
  n ← m !! node;
  (* if (node->prev) node->prev->next = node->next; *)
  m1 ← match prev (lruNode n) with
       | Some p => writeEntry (set_next (next (lruNode n))) p m
       | None => Some m
       end;
  (* node->prev = 0; *)
  m2 ← writeEntry (set_prev None) node m1;
  n2 ← m2 !! node;
  (* if (node->next) node->next->prev = node->prev; *)
  m3 ← match next (lruNode n2) with
       | Some x => writeEntry (set_prev (prev (lruNode n2))) x m2
       | None => Some m2
       end;
  (* node->next = 0; *)
  writeEntry (set_next None) node m3.

(** [insertLinkedListNode(node, prev, next)]. *)
Definition insertLinkedListNode (node : Z) (p nx : option Z)
    (m : gmap Z MemorySegmentEntryHeader)
  : option (gmap Z MemorySegmentEntryHeader) :=
  m1 ← match p with
       | Some q => writeEntry (set_next (Some node)) q m
       | None => Some m
       end;
  m2 ← writeEntry (set_prev p) node m1;
  m3 ← match nx with
       | Some q => writeEntry (set_prev (Some node)) q m2
       | None => Some m2
       end;
  writeEntry (set_next nx) node m3.

(** ** Operations *)

(** What a scope guarded by a [try] block can do: complete, or throw
    [CorruptedCacheException] (the only exception of the modelled build);
    the state reached when the exception is thrown is kept. *)
Inductive Outcome (A : Type) :=
| Normal (a : A)
| Thrown (c : CachePrivate).
Arguments Normal {A} a.
Arguments Thrown {A} c.

Section Cache.

Variable NATRON_TILE_SIZE_BYTES : Z.
Variable persistent : bool.

(** [CacheBucket::tryCacheLookupImpl]. *)
Definition tryCacheLookupImpl (hash : Z) (b : CacheBucketIPCData)
  : option MemorySegmentEntryHeader := entriesMap b !! hash.

(** [BucketStateHandler_RAII] around a scope: the constructor throws when
    the bucket is not in state Ok, otherwise flags it; the destructor
    restores Ok when the scope is left. *)
Definition BucketStateHandler_RAII {A : Type} (bi : nat) (c : CachePrivate)
    (scope : CachePrivate -> option (A * CachePrivate))
  : option (Outcome (A * CachePrivate)) :=
  b ← getBucket c bi;
  if decide (bucketState b = eBucketStateOk) then
    '(a, c2) ← scope (setBucket bi (set_bucketState eBucketStateInconsistent b) c);
    b2 ← getBucket c2 bi;
    Some (Normal (a, setBucket bi (set_bucketState eBucketStateOk b2) c2))
  else Some (Thrown c).

(** [CacheBucket::deserializeEntry], both specialisations. *)
Definition deserializeEntry (cacheEntry : MemorySegmentEntryHeader)
    (ple : CacheEntryBase) (hash : Z) (hasWriteRights : bool)
  : ShmEntryReadRetCodeEnum :=
  if persistent then
    match getIPCProperty kNatronIPCPropertyHash (properties cacheEntry) with
    | None => eShmEntryReadRetCodeDeserializationFailed
    | Some serializedHash =>
      if negb (serializedHash =? hash)
      then eShmEntryReadRetCodeDeserializationFailed
      else
        match fromMemorySegment ple hasWriteRights (properties cacheEntry) with
        | fmsBadAlloc =>
          if hasWriteRights then eShmEntryReadRetCodeOutOfMemory
          else eShmEntryReadRetCodeDeserializationFailed
        | fmsException => eShmEntryReadRetCodeDeserializationFailed
        | fmsReturn eFromMemorySegmentRetCodeFailed =>
          eShmEntryReadRetCodeDeserializationFailed
        | fmsReturn eFromMemorySegmentRetCodeNeedWriteLock =>
          if hasWriteRights then eShmEntryReadRetCodeDeserializationFailed
          else eShmEntryReadRetCodeNeedWriteLock
        | fmsReturn eFromMemorySegmentRetCodeOk =>
          if negb (getHashKeyForced ple (properties cacheEntry) =? hash)
          then eShmEntryReadRetCodeDeserializationFailed
          else eShmEntryReadRetCodeOk
        end
    end
  else eShmEntryReadRetCodeOk.

(** The LRU part of [readFromSharedMemoryEntryImpl]: move the node to the
    tail unless it is the tail already. *)
Definition touchLRU (hash : Z) (b : CacheBucketIPCData)
  : option CacheBucketIPCData :=
  if decide (lruListBack b = Some hash) then Some b
  else
    m1 ← disconnectLinkedListNode hash (entriesMap b);
    m2 ← insertLinkedListNode hash (lruListBack b) None m1;
    Some (set_lruListBack (Some hash) (set_entriesMap m2 b)).

(** [CacheBucket::readFromSharedMemoryEntryImpl]. *)
Definition readFromSharedMemoryEntryImpl (ple : CacheEntryBase) (hash : Z)
    (hasWriteRights : bool) (b : CacheBucketIPCData)
  : option (ShmEntryReadRetCodeEnum * CacheBucketIPCData) :=
  cacheEntry ← entriesMap b !! hash;
  let ret := deserializeEntry cacheEntry ple hash hasWriteRights in
  if decide (ret = eShmEntryReadRetCodeOk) then
    b' ← touchLRU hash b; Some (eShmEntryReadRetCodeOk, b')
  else Some (ret, b).

(** One iteration of the tile loop of [deallocateCacheEntryImpl]: the tile
    goes to the free set of bucket
    [tileIndex % NATRON_NUM_TILES_PER_BUCKET_FILE]. *)
Definition freeTile (tile : Z) (c : CachePrivate) : option CachePrivate :=
  let tileIndex := fst (getTileIndex tile) in
  let tileBucketIndex :=
    Z.to_nat (tileIndex mod NATRON_NUM_TILES_PER_BUCKET_FILE) in
  tb ← getBucket c tileBucketIndex;
  Some (setBucket tileBucketIndex
          (set_freeTiles ({[ tile ]} ∪ freeTiles tb) tb) c).

Fixpoint freeTilesLoop (tiles : list Z) (c : CachePrivate)
  : option CachePrivate :=
  match tiles with
  | [] => Some c
  | t :: ts => c' ← freeTile t c; freeTilesLoop ts c'
  end.

(** The size bookkeeping at the head of [deallocateCacheEntryImpl]. *)
Definition sizeAfterDeallocate (e : MemorySegmentEntryHeader) (sz : Z) : Z :=
  let sz1 := U64_sub sz (entry_size e) in
  match tileIndices e with
  | [] => sz1
  | _ :: _ =>
    U64_sub sz1 (U64_mul (Z.of_nat (length (tileIndices e)))
                         NATRON_TILE_SIZE_BYTES)
  end.

(** The tail of [deallocateCacheEntryImpl]: clear the tile list, move the
    end pointers off the node, disconnect it, destroy the header and erase
    the key. *)
Definition unlinkAndErase (k : Z) (b : CacheBucketIPCData)
  : option CacheBucketIPCData :=
  e ← entriesMap b !! k;
  let m0 := <[k := set_tileIndices [] e]> (entriesMap b) in
  let b1 :=
    if decide (lruListBack b = Some k)
    then set_lruListBack (prev (lruNode e)) b else b in
  let b2 :=
    if decide (lruListFront b1 = Some k)
    then set_lruListFront (prev (lruNode e)) b1 else b1 in
  m ← disconnectLinkedListNode k m0;
  Some (set_entriesMap (delete k m) b2).

(** [CacheBucket::deallocateCacheEntryImpl] on bucket [bi], for the entry
    stored under [k]. *)
Definition deallocateCacheEntryImpl (bi : nat) (k : Z) (c : CachePrivate)
  : option CachePrivate :=
  b ← getBucket c bi;
  e ← entriesMap b !! k;
  let c1 :=
    setBucket bi (set_bucket_size (sizeAfterDeallocate e (bucket_size b)) b) c in
  c2 ← freeTilesLoop (tileIndices e) c1;
  b2 ← getBucket c2 bi;
  b3 ← unlinkAndErase k b2;
  Some (setBucket bi b3 c2).

(** [CachePrivate::createTileStorage]: append a storage file and seed the
    free sets.  Bucket [bucket_i] receives the tile indices
    [bucket_i * 256 .. bucket_i * 256 + 255] of the new file. *)
Definition seedFreeTiles (bucket_i : nat) (fileIndex : Z) (free : gset Z)
  : gset Z :=
  let nTiles := Z.of_nat bucket_i * NATRON_NUM_TILES_PER_BUCKET_FILE in
  free ∪ list_to_set
           ((λ i, encodeTileIndex i fileIndex)
              <$> seqZ nTiles NATRON_NUM_TILES_PER_BUCKET_FILE).

Definition createTileStorage (c : CachePrivate) : CachePrivate :=
  if useTileStorage c then
    let fileIndex := Z.of_nat (tilesStorage c) in
    mkCache (maximumSize c)
            (imap (λ bucket_i b,
                     set_freeTiles
                       (seedFreeTiles bucket_i fileIndex (freeTiles b)) b)
                  (buckets c))
            (S (tilesStorage c)) (useTileStorage c)
  else c.

(** [Cache::clear]: drop the storage files, re-create every bucket, then
    create one storage file.  [recoverFromInconsistentState] is this
    function in the modelled build. *)
Definition clear (c : CachePrivate) : CachePrivate :=
  createTileStorage
    (mkCache (maximumSize c) ((λ _, newBucket) <$> buckets c) 0
             (useTileStorage c)).

Definition recoverFromInconsistentState (c : CachePrivate) : CachePrivate :=
  clear c.

(** [copyProcessLocalEntryFromEntry] and [copyProcessLocalEntryToEntry]. *)
Definition copyProcessLocalEntryFromEntry (e : MemorySegmentEntryHeader)
    (lk : CacheEntryLockerPrivate) : option CacheEntryLockerPrivate :=
  if persistent then Some lk
  else p ← nonPersistentEntry e; Some (set_processLocalEntry p lk).

Definition copyProcessLocalEntryToEntry (lk : CacheEntryLockerPrivate)
    (e : MemorySegmentEntryHeader) : MemorySegmentEntryHeader :=
  if persistent then e
  else mkEntry (entry_size e) (status e) (computeThreadMagic e) (lruNode e)
               (tileIndices e) (pluginID e) (properties e)
               (Some (processLocalEntry lk)).

(** [CacheEntryLockerPrivate::lookupAndSetStatusInternal].  [thread] is the
    value of [QThread::currentThread()]. *)
Definition lookupAndSetStatusInternal (thread : Z)
    (hasWriteRights removeIfOOM : bool) (timeSpentWaiting timeout : Z)
    (lk0 : CacheEntryLockerPrivate) (c : CachePrivate)
  : option (LookUpRetCodeEnum * CacheEntryLockerPrivate * CachePrivate) :=
  let lk := set_lockerStatus eCacheEntryStatusMustCompute lk0 in
  bi ← bucket lk;
  b ← getBucket c bi;
  match tryCacheLookupImpl (lockerHash lk) b with
  | None => Some (eLookUpRetCodeNotFound, lk, c)
  | Some found =>
    if bool_decide (status found = eEntryStatusNull) && negb hasWriteRights
    then Some (eLookUpRetCodeNotFound, lk, c)
    else
      let recursionDetected :=
        negb (allowMultipleFetchForThread (processLocalEntry lk))
        && (computeThreadMagic found =? thread) in
      if bool_decide (status found = eEntryStatusPending)
         && negb recursionDetected
         && ((timeout =? 0) || (timeSpentWaiting <? timeout))
      then Some (eLookUpRetCodeFound,
                 set_lockerStatus eCacheEntryStatusComputationPending lk, c)
      else if bool_decide (status found = eEntryStatusPending)
              && negb hasWriteRights
      then Some (eLookUpRetCodeNotFound, lk, c)
      else if bool_decide (status found = eEntryStatusReady) then
        '(readStatus, b') ←
          readFromSharedMemoryEntryImpl (processLocalEntry lk) (lockerHash lk)
                                        hasWriteRights b;
        let c' := setBucket bi b' c in
        match readStatus with
        | eShmEntryReadRetCodeOk =>
          lk' ← copyProcessLocalEntryFromEntry found lk;
          Some (eLookUpRetCodeFound,
                set_lockerStatus eCacheEntryStatusCached lk', c')
        | eShmEntryReadRetCodeDeserializationFailed =>
          if hasWriteRights then
            c'' ← deallocateCacheEntryImpl bi (lockerHash lk) c';
            Some (eLookUpRetCodeNotFound, lk, c'')
          else Some (eLookUpRetCodeNotFound, lk, c')
        | eShmEntryReadRetCodeNeedWriteLock =>
          Some (eLookUpRetCodeNotFound, lk, c')
        | eShmEntryReadRetCodeOutOfMemory =>
          if removeIfOOM && hasWriteRights then
            c'' ← deallocateCacheEntryImpl bi (lockerHash lk) c';
            Some (eLookUpRetCodeNotFound, lk, c'')
          else Some (eLookUpRetCodeOutOfMemory, lk, c')
        end
      else
        (* found->second->status = eEntryStatusPending;
           status = eCacheEntryStatusMustCompute; *)
        Some (eLookUpRetCodeFound, lk,
              setBucket bi
                (set_entriesMap
                   (<[lockerHash lk := set_status eEntryStatusPending found]>
                      (entriesMap b)) b) c)
  end.

(** The construction at the end of [lookupAndCreate]: a new header is
    inserted under the hash ([std::map::insert] keeps an existing mapping),
    then filled in. *)
Definition constructEntry (thread : Z) (lk : CacheEntryLockerPrivate)
    (b : CacheBucketIPCData) : CacheBucketIPCData :=
  let e0 := copyProcessLocalEntryToEntry lk newEntry in
  let e1 :=
    mkEntry (getMetadataSize (processLocalEntry lk))
            eEntryStatusPending thread (lruNode e0) (tileIndices e0)
            (pluginID e0 +:+ getHolderPluginID (processLocalEntry lk))
            (properties e0) (nonPersistentEntry e0) in
  match entriesMap b !! lockerHash lk with
  | None => set_entriesMap (<[lockerHash lk := e1]> (entriesMap b)) b
  | Some _ => b
  end.

(** [CacheEntryLockerPrivate::lookupAndCreate]; the loop runs at most
    [maxAttempts = 2] look-ups, the second one with [removeIfOOM]. *)
Definition lookupAndCreate (thread : Z) (timeSpentWaiting timeout : Z)
    (lk0 : CacheEntryLockerPrivate) (c0 : CachePrivate)
  : option (Outcome (CacheEntryLockerPrivate * CachePrivate)) :=
  '(stat0, lk1, c1) ←
    lookupAndSetStatusInternal thread true false timeSpentWaiting timeout lk0 c0;
  '(stat, lk, c) ←
    match stat0 with
    | eLookUpRetCodeOutOfMemory =>
      lookupAndSetStatusInternal thread true true timeSpentWaiting timeout lk1 c1
    | _ => Some (stat0, lk1, c1)
    end;
  match stat with
  | eLookUpRetCodeFound => Some (Normal (lk, c))
  | _ =>
    bi ← bucket lk;
    BucketStateHandler_RAII bi c
      (λ c', b ← getBucket c' bi;
             Some (lk, setBucket bi (constructEntry thread lk b) c'))
  end.

(** [CacheEntryLockerPrivate::lookupAndSetStatus]. *)
Definition lookupAndSetStatus (thread : Z) (timeSpentWaiting timeout : Z)
    (lk0 : CacheEntryLockerPrivate) (c0 : CachePrivate)
  : option (CacheEntryLockerPrivate * CachePrivate) :=
  let lk :=
    match bucket lk0 with
    | None =>
      set_bucket
        (Some (Z.to_nat (getBucketCacheBucketIndex (lockerHash lk0)))) lk0
    | Some _ => lk0
    end in
  '(stat, lk1, c1) ←
    lookupAndSetStatusInternal thread false false timeSpentWaiting timeout lk c0;
  match stat with
  | eLookUpRetCodeFound => Some (lk1, c1)
  | _ =>
    r ← lookupAndCreate thread timeSpentWaiting timeout lk1 c1;
    match r with
    | Normal (lk2, c2) => Some (lk2, c2)
    | Thrown c2 =>
      Some (set_lockerStatus eCacheEntryStatusMustCompute lk1,
            recoverFromInconsistentState c2)
    end
  end.

(** [Cache::get]: [CacheEntryLocker::create] builds the locker and looks the
    entry up with no timeout. *)
Definition get (thread : Z) (entry : CacheEntryBase) (c : CachePrivate)
  : option (CacheEntryLockerPrivate * CachePrivate) :=
  lookupAndSetStatus thread 0 0 (newLocker entry) c.

(** [CacheEntryLockerPrivate::serializeCacheEntry], both specialisations. *)
Definition serializeCacheEntry (lk : CacheEntryLockerPrivate)
    (entry : MemorySegmentEntryHeader)
  : InsertRetCodeEnum * MemorySegmentEntryHeader :=
  if persistent then
    match toMemorySegment (processLocalEntry lk) (properties entry) with
    | Some props =>
      (eInsertRetCodeCreated,
       set_properties
         (setIPCProperty kNatronIPCPropertyHash (lockerHash lk) props) entry)
    | None => (eInsertRetCodeOutOfToCMemory, set_properties ∅ entry)
    end
  else (eInsertRetCodeCreated, entry).

(** The LRU part of [insertInternal]: reset the node, then make it the only
    node of an empty list or append it behind the tail. *)
Definition pushBackLRU (k : Z) (b : CacheBucketIPCData)
  : option CacheBucketIPCData :=
  m0 ← writeEntry (set_lruNode (mkLRUListNode None None k)) k (entriesMap b);
  match lruListBack b with
  | None =>
    Some (set_lruListBack (Some k)
            (set_lruListFront (Some k) (set_entriesMap m0 b)))
  | Some _ =>
    m1 ← insertLinkedListNode k (lruListBack b) None m0;
    Some (set_lruListBack (Some k) (set_entriesMap m1 b))
  end.

(** The body of [insertInternal] once the bucket state handler is active. *)
Definition insertInternalScope (lk : CacheEntryLockerPrivate) (bi : nat)
    (c : CachePrivate)
  : option (InsertRetCodeEnum * CacheEntryLockerPrivate * CachePrivate) :=
  b ← getBucket c bi;
  match tryCacheLookupImpl (lockerHash lk) b with
  | None => Some (eInsertRetCodeCreated, lk, c)
  | Some e =>
    if computeThreadMagic e =? 0 then
      Some (eInsertRetCodeCreated,
            set_lockerStatus eCacheEntryStatusCached lk, c)
    else
      let '(retCode, e1) := serializeCacheEntry lk e in
      let b1 := set_entriesMap (<[lockerHash lk := e1]> (entriesMap b)) b in
      if decide (retCode = eInsertRetCodeCreated) then
        let b2 :=
          set_bucket_size (U64_add (bucket_size b1) (entry_size e1)) b1 in
        b3 ← pushBackLRU (lockerHash lk) b2;
        m4 ← writeEntry
               (λ e, set_status eEntryStatusReady (set_computeThreadMagic 0 e))
               (lockerHash lk) (entriesMap b3);
        Some (eInsertRetCodeCreated,
              set_lockerStatus eCacheEntryStatusCached lk,
              setBucket bi (set_entriesMap m4 b3) c)
      else Some (retCode, lk, setBucket bi b1 c)
  end.

(** [CacheEntryLockerPrivate::insertInternal]. *)
Definition insertInternal (lk : CacheEntryLockerPrivate) (c : CachePrivate)
  : option (Outcome
              (InsertRetCodeEnum * CacheEntryLockerPrivate * CachePrivate)) :=
  bi ← bucket lk;
  BucketStateHandler_RAII bi c
    (λ c', '(rc, lk', c'') ← insertInternalScope lk bi c';
           Some ((rc, lk'), c'')).

(** [CacheEntryLocker::insertInCache]: at most two attempts; the call of
    [appPTR->checkCachesMemory()] that follows a successful insertion belongs
    to another component and is left out. *)
Definition insertInCache (lk0 : CacheEntryLockerPrivate) (c0 : CachePrivate)
  : option (CacheEntryLockerPrivate * CachePrivate) :=
  r1 ← insertInternal lk0 c0;
  match r1 with
  | Thrown c => Some (lk0, recoverFromInconsistentState c)
  | Normal (eInsertRetCodeCreated, lk1, c1) => Some (lk1, c1)
  | Normal (_, lk1, c1) =>
    r2 ← insertInternal lk1 c1;
    match r2 with
    | Thrown c => Some (lk1, recoverFromInconsistentState c)
    | Normal (_, lk2, c2) => Some (lk2, c2)
    end
  end.

(** [CacheEntryLocker::~CacheEntryLocker]. *)
Definition destroyLocker (lk : CacheEntryLockerPrivate) (c : CachePrivate)
  : option CachePrivate :=
  match lockerStatus lk with
  | eCacheEntryStatusCached => Some c
  | eCacheEntryStatusMustCompute =>
    bi ← bucket lk;
    r ← BucketStateHandler_RAII bi c
          (λ c', b ← getBucket c' bi;
                 match tryCacheLookupImpl (lockerHash lk) b with
                 | None => Some (tt, c')
                 | Some _ =>
                   c'' ← deallocateCacheEntryImpl bi (lockerHash lk) c';
                   Some (tt, c'')
                 end);
    match r with
    | Normal (_, c') => Some c'
    | Thrown c' => Some (recoverFromInconsistentState c')
    end
  | eCacheEntryStatusComputationPending => Some c
  end.

(** [Cache::hasCacheEntryForHash]. *)
Definition hasCacheEntryForHash (hash : Z) (c : CachePrivate) : option bool :=
  b ← getBucket c (Z.to_nat (getBucketCacheBucketIndex hash));
  Some (bool_decide (is_Some (tryCacheLookupImpl hash b))).

(** [Cache::removeEntry]; [None] as argument is the null entry pointer. *)
Definition removeEntry (entry : option CacheEntryBase) (c : CachePrivate)
  : option CachePrivate :=
  match entry with
  | None => Some c
  | Some en =>
    let hash := getHashKey en in
    let bucketIndex := Z.to_nat (getBucketCacheBucketIndex hash) in
    r ← BucketStateHandler_RAII bucketIndex c
          (λ c', b ← getBucket c' bucketIndex;
                 match tryCacheLookupImpl hash b with
                 | Some _ =>
                   c'' ← deallocateCacheEntryImpl bucketIndex hash c';
                   Some (tt, c'')
                 | None => Some (tt, c')
                 end);
    match r with
    | Normal (_, c') => Some c'
    | Thrown c' => Some (recoverFromInconsistentState c')
    end
  end.

(** [Cache::getMaximumCacheSize] and [Cache::getCurrentSize]. *)
Definition getMaximumCacheSize (c : CachePrivate) : Z := maximumSize c.

Definition getCurrentSize (c : CachePrivate) : Z :=
  foldl (λ ret b, U64_add ret (bucket_size b)) 0 (buckets c).

(** The body of the bucket loop of [evictLRUEntries] once the bucket state
    handler is active.  The result [None] stands for [continue]: nothing
    was evicted from this bucket; otherwise the new value of [curSize] is
    returned. *)
Definition evictBucketScope (bucket_i : nat) (curSize : Z) (c : CachePrivate)
  : option (option Z * CachePrivate) :=
  b ← getBucket c bucket_i;
  h ← match lruListFront b with
      | Some f => n ← entriesMap b !! f; Some (hash (lruNode n))
      | None => Some 0
      end;
  if h =? 0 then Some (None, c)
  else
    match tryCacheLookupImpl h b with
    | None => Some (None, c)
    | Some e =>
      let curSize1 := U64_sub curSize (entry_size e) in
      let curSize2 :=
        U64_sub curSize1
                (U64_mul (Z.of_nat (length (tileIndices e)))
                         NATRON_TILE_SIZE_BYTES) in
      c' ← deallocateCacheEntryImpl bucket_i h c;
      Some (Some curSize2, c')
    end.

(** One pass over the buckets listed in [bs]; the state is the cache,
    [curSize] and [foundBucketThatCanEvict]. *)
Fixpoint evictRound (bs : list nat) (c : CachePrivate) (curSize : Z)
    (foundBucketThatCanEvict : bool)
  : option (Outcome (Z * bool * CachePrivate)) :=
  match bs with
  | [] => Some (Normal (curSize, foundBucketThatCanEvict, c))
  | bucket_i :: bs' =>
    r ← BucketStateHandler_RAII bucket_i c (evictBucketScope bucket_i curSize);
    match r with
    | Thrown c' => Some (Thrown c')
    | Normal (None, c') => evictRound bs' c' curSize foundBucketThatCanEvict
    | Normal (Some curSize', c') => evictRound bs' c' curSize' true
    end
  end.

Inductive EvictLoopResult :=
| evictReturned (c : CachePrivate)
| evictOutOfFuel.

(** The [while (mustEvictEntries)] loop, entered with [mustEvictEntries]
    true; [fuel] bounds the number of iterations. *)
Fixpoint evictLoop (fuel : nat) (maxSize : Z) (c : CachePrivate) (curSize : Z)
  : option EvictLoopResult :=
  match fuel with
  | O => Some evictOutOfFuel
  | S fuel' =>
    r ← evictRound (seq 0 (Z.to_nat NATRON_CACHE_BUCKETS_COUNT)) c curSize false;
    match r with
    | Thrown c' => Some (evictReturned (recoverFromInconsistentState c'))
    | Normal (curSize', found, c') =>
      if negb found then Some (evictReturned c')
      else if curSize' >? maxSize then evictLoop fuel' maxSize c' curSize'
      else Some (evictReturned c')
    end
  end.

(** The number of entry headers of the cache: every iteration of the loop
    that does not leave it erases at least one header, so one more than
    this number of iterations is always enough ([evictLoop_fuel]). *)
Definition totalEntries (c : CachePrivate) : nat :=
  sum_list_with (λ b, size (entriesMap b)) (buckets c).

(** [Cache::evictLRUEntries]. *)
Definition evictLRUEntries (nBytesToFree : Z) (c : CachePrivate)
  : option CachePrivate :=
  let maxSize0 := getMaximumCacheSize c in
  if maxSize0 =? 0 then Some c
  else
    let maxSize :=
      if nBytesToFree >=? maxSize0 then 0 else maxSize0 - nBytesToFree in
    let curSize := getCurrentSize c in
    if curSize >? maxSize then
      r ← evictLoop (S (totalEntries c)) maxSize c curSize;
      match r with
      | evictReturned c' => Some c'
      | evictOutOfFuel => None
      end
    else Some c.

(** *** Tile allocation ([Cache::retrieveAndLockTiles]) *)

(** [*freeTiles.begin()]: the least element of the ordered set. *)
Definition firstFreeTile (s : gset Z) : option Z :=
  match elements s with
  | [] => None
  | x :: xs => Some (foldr Z.min x xs)
  end.

(** One iteration of the allocation loop.  The tile is [None] when the
    function returns [false] because the file index has no storage. *)
Definition allocateTile (entryHash tileToAlloc : Z) (c : CachePrivate)
  : option (option Z * CachePrivate) :=
  let bucketIndex := Z.to_nat (getBucketIndexForTile entryHash tileToAlloc) in
  tb ← getBucket c bucketIndex;
  let c1 := if decide (freeTiles tb = ∅) then createTileStorage c else c in
  tb1 ← getBucket c1 bucketIndex;
  t ← firstFreeTile (freeTiles tb1);
  let c2 :=
    setBucket bucketIndex (set_freeTiles (freeTiles tb1 ∖ {[ t ]}) tb1) c1 in
  if snd (getTileIndex t) <? Z.of_nat (tilesStorage c2)
  then Some (Some t, c2) else Some (None, c2).

Fixpoint allocateTiles (entryHash : Z) (tilesToAlloc : list Z)
    (c : CachePrivate) : option (option (list Z) * CachePrivate) :=
  match tilesToAlloc with
  | [] => Some (Some [], c)
  | t :: ts =>
    '(r, c1) ← allocateTile entryHash t c;
    match r with
    | None => Some (None, c1)
    | Some x =>
      '(rs, c2) ← allocateTiles entryHash ts c1;
      Some (match rs with Some l => Some (x :: l) | None => None end, c2)
    end
  end.

(** [CachePrivate::freeAllocatedTiles]. *)
Fixpoint freeAllocatedTiles (entryHash : Z) (tilesToAlloc allocated : list Z)
    (c : CachePrivate) : option CachePrivate :=
  match tilesToAlloc, allocated with
  | t :: ts, a :: als =>
    let bucketIndex := Z.to_nat (getBucketIndexForTile entryHash t) in
    tb ← getBucket c bucketIndex;
    freeAllocatedTiles entryHash ts als
      (setBucket bucketIndex (set_freeTiles ({[ a ]} ∪ freeTiles tb) tb) c)
  | _, _ => Some c
  end.

(** [Cache::retrieveAndLockTiles], the part that allocates [tilesToAlloc]
    for [entry]: the returned triple is the result of the function, the
    encoded ids handed out, and the cache. *)
Definition retrieveAndLockTiles (entry : CacheEntryBase)
    (tilesToAlloc : list Z) (c : CachePrivate)
  : option (bool * list Z * CachePrivate) :=
  match tilesToAlloc with
  | [] => Some (true, [], c)
  | _ :: _ =>
    let entryHash := getHashKey entry in
    '(r, c1) ← allocateTiles entryHash tilesToAlloc c;
    match r with
    | None => Some (false, [], c1)
    | Some allocated =>
      let bi := Z.to_nat (getBucketCacheBucketIndex entryHash) in
      b ← getBucket c1 bi;
      match tryCacheLookupImpl entryHash b with
      | None =>
        c2 ← freeAllocatedTiles entryHash tilesToAlloc allocated c1;
        Some (false, allocated, c2)
      | Some e =>
        let b1 :=
          set_bucket_size
            (U64_add (bucket_size b)
                     (U64_mul (Z.of_nat (length tilesToAlloc))
                              NATRON_TILE_SIZE_BYTES)) b in
        let e1 := set_tileIndices (tileIndices e ++ allocated) e in
        Some (true, allocated,
              setBucket bi
                (set_entriesMap (<[entryHash := e1]> (entriesMap b1)) b1) c1)
      end
    end
  end.

(** *** Releasing tiles ([Cache::releaseTiles]) *)

(** [std::find] followed by [erase]: drop the first occurrence, if any. *)
Fixpoint eraseFirst (t : Z) (l : list Z) : list Z :=
  match l with
  | [] => []
  | x :: l' => if decide (x = t) then l' else x :: eraseFirst t l'
  end.

(** The second loop of [releaseTiles]: [cacheIndices[i]] goes to the free
    set of bucket [getBucketIndexForTile(entryHash, localIndices[i])]. *)
Fixpoint releaseTilesLoop (entryHash : Z) (localIndices cacheIndices : list Z)
    (c : CachePrivate) : option CachePrivate :=
  match localIndices, cacheIndices with
  | li :: ls, ci :: cs =>
    let bucketIndex := Z.to_nat (getBucketIndexForTile entryHash li) in
    tb ← getBucket c bucketIndex;
    releaseTilesLoop entryHash ls cs
      (setBucket bucketIndex (set_freeTiles ({[ ci ]} ∪ freeTiles tb) tb) c)
  | _, _ => Some c
  end.

(** [Cache::releaseTiles]. *)
Definition releaseTiles (entry : CacheEntryBase)
    (localIndices cacheIndices : list Z) (c : CachePrivate)
  : option CachePrivate :=
  if bool_decide (localIndices = [])
     || negb (length localIndices =? length cacheIndices)%nat
  then Some c
  else
    let entryHash := getHashKey entry in
    let bi := Z.to_nat (getBucketCacheBucketIndex entryHash) in
    b ← getBucket c bi;
    let c1 :=
      match tryCacheLookupImpl entryHash b with
      | Some e =>
        let e1 :=
          set_tileIndices
            (foldl (λ l t, eraseFirst t l) (tileIndices e) cacheIndices) e in
        setBucket bi (set_entriesMap (<[entryHash := e1]> (entriesMap b)) b) c
      | None => c
      end in
    releaseTilesLoop entryHash localIndices cacheIndices c1.

(** *** The size limit ([Cache::setMaximumCacheSize]) *)

Definition set_maximumSize (s : Z) (c : CachePrivate) : CachePrivate :=
  mkCache s (buckets c) (tilesStorage c) (useTileStorage c).

Definition setMaximumCacheSize (size : Z) (c : CachePrivate)
  : option CachePrivate :=
  let curSize := getMaximumCacheSize c in
  let c1 := set_maximumSize size c in
  if size <? curSize then evictLRUEntries 0 c1 else Some c1.

(** *** Waiting for a pending entry ([CacheEntryLocker::waitForPendingEntry]) *)

Inductive WaitResult :=
| waitReturned (lk : CacheEntryLockerPrivate) (c : CachePrivate)
| waitOutOfFuel.

(** The [do ... while] loop.  [fuel] bounds the number of look-ups;
    [scaleWait t] is the value of [timeToWaitMS *= 1.2] for
    [timeToWaitMS = t], a product in double precision converted back to
    [std::size_t]; the sleep itself changes nothing of the modelled
    state. *)
Fixpoint waitLoop (scaleWait : Z → Z) (fuel : nat) (thread timeout : Z)
    (timeSpentWaiting timeToWait : Z) (lk : CacheEntryLockerPrivate)
    (c : CachePrivate) : option WaitResult :=
  match fuel with
  | O => Some waitOutOfFuel
  | S fuel' =>
    '(lk1, c1) ← lookupAndSetStatus thread timeSpentWaiting timeout lk c;
    if decide (lockerStatus lk1 = eCacheEntryStatusComputationPending) then
      let timeSpentWaiting1 := U64_add timeSpentWaiting timeToWait in
      let timeToWait1 :=
        if (timeout =? 0) || (timeSpentWaiting1 <? timeout)
        then scaleWait timeToWait else timeToWait in
      waitLoop scaleWait fuel' thread timeout timeSpentWaiting1 timeToWait1
               lk1 c1
    else Some (waitReturned lk1 c1)
  end.

Definition waitForPendingEntry (scaleWait : Z → Z) (fuel : nat)
    (thread timeout : Z) (lk : CacheEntryLockerPrivate) (c : CachePrivate)
  : option WaitResult :=
  waitLoop scaleWait fuel thread timeout 0 20 lk c.

(** *** Bucket directories ([getBucketDirName]) *)

(** The digit [d] of base 16, lower case. *)
Definition hexDigit (d : Z) : string :=
  String.substring (Z.to_nat d) 1 "0123456789abcdef".

(** The digits of [n] in base 16, most significant first; an [int] has at
    most [fuel = 8] of them. *)
Fixpoint hexDigits (fuel : nat) (n : Z) (acc : string) : string :=
  match fuel with
  | O => acc
  | S fuel' =>
    let acc' := hexDigit (n mod 16) +:+ acc in
    if n / 16 =? 0 then acc' else hexDigits fuel' (n / 16) acc'
  end.

Fixpoint padLeft (n : nat) (s : string) : string :=
  match n with
  | O => s
  | S n' => "0" +:+ padLeft n' s
  end.

(** [boost::format("%0Nx") % i] for an [int] [i]: the 32 bits of [i] read as
    an unsigned number, in lower-case hexadecimal, zero-padded on the left
    to [N] characters. *)
Definition formatHex (width : nat) (i : Z) : string :=
  let s := hexDigits 8 (i mod 2 ^ 32) "" in
  padLeft (width - String.length s) s.

Definition getBucketDirName (bucketIndex : Z) : string :=
  formatHex (Z.to_nat NATRON_CACHE_BUCKETS_N_DIGITS) bucketIndex.

(** ** Specification vocabulary *)

(** Two bucket records that differ at most by tiles added to the free
    set. *)
Definition sameButFreeTiles (b b' : CacheBucketIPCData) : Prop :=
  lruListFront b' = lruListFront b ∧ lruListBack b' = lruListBack b ∧
  version b' = version b ∧ bucketState b' = bucketState b ∧
  bucket_size b' = bucket_size b ∧ entriesMap b' = entriesMap b ∧
  freeTiles b ⊆ freeTiles b'.

(** Two entry headers that differ at most in their LRU node; two indexes
    with the same keys whose headers are so related. *)
Definition sameButNode (e e' : MemorySegmentEntryHeader) : Prop :=
  entry_size e' = entry_size e ∧ status e' = status e ∧
  computeThreadMagic e' = computeThreadMagic e ∧
  tileIndices e' = tileIndices e ∧ pluginID e' = pluginID e ∧
  properties e' = properties e ∧ nonPersistentEntry e' = nonPersistentEntry e.

Definition mapsSameButNode (m m' : gmap Z MemorySegmentEntryHeader) : Prop :=
  ∀ j, match m !! j, m' !! j with
       | Some e, Some e' => sameButNode e e'
       | None, None => True
       | _, _ => False
       end.

(** What disconnecting a node [n] does to another header stored under [j]:
    the predecessor of [n] takes over the [next] link of [n]; the successor
    of [n] has its [prev] link reset to null, because [node->prev] has been
    reset before it is read. *)
Definition unlinkedNeighbour (n : LRUListNode) (j : Z)
    (ej : MemorySegmentEntryHeader) : MemorySegmentEntryHeader :=
  set_prev (if decide (next n = Some j) then None else prev (lruNode ej))
    (set_next (if decide (prev n = Some j) then next n else next (lruNode ej))
       ej).

(** The only links to the header under [k] are those of its own neighbours:
    the list is consistently doubly linked around [k]. *)
Definition linkedOnlyByNeighbours (k : Z) (n : LRUListNode)
    (m : gmap Z MemorySegmentEntryHeader) : Prop :=
  ∀ j ej, m !! j = Some ej →
    (next (lruNode ej) = Some k → prev n = Some j) ∧
    (prev (lruNode ej) = Some k → next n = Some j).

(** *** Size accounting *)

(** What an entry is billed against the size of its bucket: its [size] once
    it is Ready, and the tile size for every tile of its list. *)
Definition billed (e : MemorySegmentEntryHeader) : Z :=
  (if decide (status e = eEntryStatusReady) then entry_size e else 0)
  + Z.of_nat (length (tileIndices e)) * NATRON_TILE_SIZE_BYTES.

Definition sumValues (m : gmap Z Z) : Z := map_fold (λ _ z acc, acc + z) 0 m.

Definition billedSum (m : gmap Z MemorySegmentEntryHeader) : Z :=
  sumValues (billed <$> m).

Definition sizeAccounted (b : CacheBucketIPCData) : Prop :=
  bucket_size b = wrap64 (billedSum (entriesMap b)).

Definition cacheAccounted (c : CachePrivate) : Prop :=
  ∀ i b, getBucket c i = Some b → sizeAccounted b.

(** The accounting as the specification words it (invariant 2): the sizes
    of the Ready or Pending entries plus the tile size for every tile. *)
Definition billedReadyOrPending (e : MemorySegmentEntryHeader) : Z :=
  (if decide (status e = eEntryStatusReady ∨ status e = eEntryStatusPending)
   then entry_size e else 0)
  + Z.of_nat (length (tileIndices e)) * NATRON_TILE_SIZE_BYTES.

Definition sizeAccountedReadyOrPending (b : CacheBucketIPCData) : Prop :=
  bucket_size b = wrap64 (sumValues (billedReadyOrPending <$> entriesMap b)).

(** Two bucket records with the same size and the same index. *)
Definition sameSizeAndIndex (b b' : CacheBucketIPCData) : Prop :=
  bucket_size b' = bucket_size b ∧ entriesMap b' = entriesMap b.

(** Two caches whose buckets have pairwise the same size and index. *)
Definition frameSizeAndIndex (c c' : CachePrivate) : Prop :=
  length (buckets c') = length (buckets c) ∧
  ∀ i b', getBucket c' i = Some b' →
          ∃ b, getBucket c i = Some b ∧ sameSizeAndIndex b b'.

(** *** Eviction *)

(** The front pointer of the LRU list of a bucket is null, or it designates
    a live header stored under its own nonzero hash, with no predecessor
    and with a live successor if it has one (invariant I5 at the front). *)
Definition frontEvictable (b : CacheBucketIPCData) : Prop :=
  ∀ f, lruListFront b = Some f →
       f ≠ 0 ∧
       ∃ e, entriesMap b !! f = Some e ∧ hash (lruNode e) = f ∧
            prev (lruNode e) = None ∧
            ∀ x, next (lruNode e) = Some x → is_Some (entriesMap b !! x).

Definition frontsEvictable (c : CachePrivate) : Prop :=
  ∀ i b, getBucket c i = Some b → frontEvictable b.

(** The target of an eviction: [maxSize - nBytesToFree], or 0 when
    [nBytesToFree] is at least [maxSize]. *)
Definition evictionTarget (nBytesToFree : Z) (c : CachePrivate) : Z :=
  if nBytesToFree >=? getMaximumCacheSize c then 0
  else getMaximumCacheSize c - nBytesToFree.

Definition sumZ (l : list Z) : Z := foldr Z.add 0 l.

(** The invariant of the eviction loop: the array has its 256 buckets, the
    fronts are evictable and [curSize] is the current size of the cache. *)
Definition evictInvariant (c : CachePrivate) (curSize : Z) : Prop :=
  length (buckets c) = 256%nat ∧ frontsEvictable c ∧
  curSize = getCurrentSize c.

Definition allFrontsNull (c : CachePrivate) : Prop :=
  ∀ i b, getBucket c i = Some b → lruListFront b = None.

(** *** Insertion and the LRU list *)

(** The header of the entry stored under [k] once [insertInternal] has made
    it Ready: [back] is the tail of the LRU list before the insertion and
    [props] the serialized properties. *)
Definition insertedEntry (k : Z) (back : option Z) (props : IPCPropertyMap)
    (e : MemorySegmentEntryHeader) : MemorySegmentEntryHeader :=
  mkEntry (entry_size e) eEntryStatusReady 0 (mkLRUListNode back None k)
          (tileIndices e) (pluginID e) props (nonPersistentEntry e).

(** The bucket once [insertInternal] has made the entry [e] stored under
    [k] Ready: the size of the entry is billed, the node of [k] is linked
    behind the former tail and becomes the tail, and the head too when the
    list was empty. *)
Definition insertedBucket (k : Z) (props : IPCPropertyMap)
    (e : MemorySegmentEntryHeader) (b : CacheBucketIPCData)
  : CacheBucketIPCData :=
  mkBucket
    (match lruListBack b with None => Some k | Some _ => lruListFront b end)
    (Some k) (version b) (bucketState b)
    (U64_add (bucket_size b) (entry_size e))
    (<[k := insertedEntry k (lruListBack b) props e]>
       (match lruListBack b with
        | None => entriesMap b
        | Some p => alter (set_next (Some k)) p (entriesMap b)
        end))
    (freeTiles b).

(** The LRU list of a bucket holds the keys [l], least recently used first:
    the headers of [l] are live, each stored under the hash its node
    records, and doubly linked in this order, [pr] being the predecessor of
    the first one. *)
Fixpoint lruLinked (m : gmap Z MemorySegmentEntryHeader) (pr : option Z)
    (l : list Z) : Prop :=
  match l with
  | [] => True
  | k :: l' =>
    (∃ e, m !! k = Some e ∧ hash (lruNode e) = k ∧
          prev (lruNode e) = pr ∧ next (lruNode e) = head l') ∧
    lruLinked m (Some k) l'
  end.

Definition lruListIs (b : CacheBucketIPCData) (l : list Z) : Prop :=
  NoDup l ∧ lruListFront b = head l ∧ lruListBack b = last l ∧
  lruLinked (entriesMap b) None l.




(** The header [lookupAndCreate] constructs for a reservation made by
    [thread] for the payload [en]. *)
Definition reservedEntry (thread : Z) (en : CacheEntryBase)
  : MemorySegmentEntryHeader :=
  mkEntry (getMetadataSize en) eEntryStatusPending thread newLRUListNode []
          ("" +:+ getHolderPluginID en) ∅
          (if persistent then None else Some en).

(** *** Tiles *)

(** No bucket lists [t] as free. *)
Definition notFree (c : CachePrivate) (t : Z) : Prop :=
  ∀ i b, getBucket c i = Some b → t ∉ freeTiles b.

(** The free sets are consistent: every free id belongs to an existing
    storage file and no id is free in two buckets. *)
Definition tilesConsistent (c : CachePrivate) : Prop :=
  (∀ i b t, getBucket c i = Some b → t ∈ freeTiles b →
            snd (getTileIndex t) < Z.of_nat (tilesStorage c)) ∧
  (∀ i j b b' t, i ≠ j → getBucket c i = Some b → getBucket c j = Some b' →
                 t ∈ freeTiles b → t ∉ freeTiles b').

(** The ids of [A] are handed out: they belong to existing storage files
    and none of them is free. *)
Definition tilesTaken (c : CachePrivate) (A : list Z) : Prop :=
  ∀ a, a ∈ A → snd (getTileIndex a) < Z.of_nat (tilesStorage c) ∧ notFree c a.

(** *** Several callers of one key *)


(** *** What an eviction may do *)

(** [c'] has the buckets and the limit of [c], and holds no key that [c]
    does not hold. *)
Definition onlyRemoves (c c' : CachePrivate) : Prop :=
  length (buckets c') = length (buckets c) ∧
  maximumSize c' = maximumSize c ∧
  ∀ i b', getBucket c' i = Some b' →
          ∃ b, getBucket c i = Some b ∧
               ∀ j, is_Some (entriesMap b' !! j) → is_Some (entriesMap b !! j).

(** *** Sample payloads and states *)

(** A payload with hash [k] and metadata size [sz] whose serialization
    writes nothing of its own and whose deserialization succeeds. *)
Definition samplePayload (k sz : Z) : CacheEntryBase :=
  mkCacheEntryBase k sz false "Plugin" (λ p, Some p)
    (λ _ _, fmsReturn eFromMemorySegmentRetCodeOk) (λ _, k).

(** The cache as [clear] leaves it when tile storage is off. *)
Definition emptyCache (maxSize : Z) : CachePrivate :=
  mkCache maxSize (replicate 256 newBucket) 0 false.

(** The cache before its first storage file, tile storage being on. *)
Definition emptyTileCache (maxSize : Z) : CachePrivate :=
  mkCache maxSize (replicate 256 newBucket) 0 true.

Definition readyEntry (k sz : Z) (p n : option Z) : MemorySegmentEntryHeader :=
  mkEntry sz eEntryStatusReady 0 (mkLRUListNode p n k) [] "Plugin"
          {[ kNatronIPCPropertyHash := k ]} None.

Definition pendingEntry (sz owner : Z) : MemorySegmentEntryHeader :=
  mkEntry sz eEntryStatusPending owner newLRUListNode [] "Plugin" ∅ None.

(** Bucket 1 holds one Ready entry of 1000 bytes under hash 1. *)
Definition oneEntryCache (maxSize : Z) : CachePrivate :=
  setBucket 1
    (mkBucket (Some 1) (Some 1) 1 eBucketStateOk 1000
              {[ 1 := readyEntry 1 1000 None None ]} ∅)
    (emptyCache maxSize).

(** Bucket 1 holds two Ready entries of 1000 bytes, hash 1 inserted before
    hash 257. *)
Definition twoEntryCache (maxSize : Z) : CachePrivate :=
  setBucket 1
    (mkBucket (Some 1) (Some 257) 1 eBucketStateOk 2000
              (<[ 257 := readyEntry 257 1000 (Some 1) None ]>
                 {[ 1 := readyEntry 1 1000 None (Some 257) ]}) ∅)
    (emptyCache maxSize).

(** Bucket 1 holds an entry reserved under hash 1 by thread 7. *)
Definition pendingCache (maxSize : Z) : CachePrivate :=
  setBucket 1
    (mkBucket None None 1 eBucketStateOk 0
              {[ 1 := pendingEntry 1000 7 ]} ∅)
    (emptyCache maxSize).

(** Bucket 1 holds the Ready entry of hash 1 and an entry reserved under
    hash 257 by thread 7. *)
Definition reservedBesideReadyCache (maxSize : Z) : CachePrivate :=
  setBucket 1
    (mkBucket (Some 1) (Some 1) 1 eBucketStateOk 1000
              (<[ 257 := pendingEntry 1000 7 ]>
                 {[ 1 := readyEntry 1 1000 None None ]}) ∅)
    (emptyCache maxSize).

(** Tile storage is on, no storage file exists yet, and bucket 1 holds an
    entry reserved under hash 1 by thread 7. *)
Definition pendingTileCache (maxSize : Z) : CachePrivate :=
  setBucket 1
    (mkBucket None None 1 eBucketStateOk 0
              {[ 1 := pendingEntry 1000 7 ]} ∅)
    (emptyTileCache maxSize).

(** Bucket 1 holds one Ready entry and has been left flagged
    Inconsistent. *)
Definition corruptedCache (maxSize : Z) : CachePrivate :=
  setBucket 1
    (mkBucket (Some 1) (Some 1) 1 eBucketStateInconsistent 1000
              {[ 1 := readyEntry 1 1000 None None ]} ∅)
    (emptyCache maxSize).

(** A payload whose serialization always runs out of memory. *)
Definition unserializablePayload (k sz : Z) : CacheEntryBase :=
  mkCacheEntryBase k sz false "Plugin" (λ _, None)
    (λ _ _, fmsReturn eFromMemorySegmentRetCodeOk) (λ _, k).

(** * Properties *)

(** ** Buckets of the array *)

Lemma getBucket_setBucket_eq i b c :
  (i < length (buckets c))%nat → getBucket (setBucket i b c) i = Some b.
Proof. intros H. unfold getBucket, setBucket. simpl. by apply list_lookup_insert_eq. Qed.

Lemma getBucket_setBucket_ne i j b c :
  i ≠ j → getBucket (setBucket i b c) j = getBucket c j.
Proof. intros H. unfold getBucket, setBucket. simpl. by apply list_lookup_insert_ne. Qed.

Lemma getBucket_Some_lt c i b : getBucket c i = Some b → (i < length (buckets c))%nat.
Proof. unfold getBucket. apply lookup_lt_Some. Qed.

Lemma getBucket_lt_Some c i : (i < length (buckets c))%nat → is_Some (getBucket c i).
Proof. unfold getBucket. apply lookup_lt_is_Some_2. Qed.

Lemma length_setBucket i b c : length (buckets (setBucket i b c)) = length (buckets c).
Proof. unfold setBucket. simpl. apply length_insert. Qed.

Lemma setBucket_id i b c : getBucket c i = Some b → setBucket i b c = c.
Proof. unfold getBucket, setBucket, set_buckets. intros H. rewrite list_insert_id by done. by destruct c. Qed.

Lemma sameButFreeTiles_refl b : sameButFreeTiles b b.
Proof. by repeat split. Qed.

Lemma sameButFreeTiles_trans b1 b2 b3 :
  sameButFreeTiles b1 b2 → sameButFreeTiles b2 b3 → sameButFreeTiles b1 b3.
Proof.
  intros (?&?&?&?&?&?&?) (?&?&?&?&?&?&?).
  repeat split; try congruence. set_solver.
Qed.

Lemma freeTile_unfold t c :
  freeTile t c =
  let i := Z.to_nat (fst (getTileIndex t) mod NATRON_NUM_TILES_PER_BUCKET_FILE) in
  tb ← getBucket c i;
  Some (setBucket i (set_freeTiles ({[ t ]} ∪ freeTiles tb) tb) c).
Proof. reflexivity. Qed.

Lemma freeTile_frame t c c' :
  freeTile t c = Some c' →
  length (buckets c') = length (buckets c) ∧
  ∀ j b, getBucket c j = Some b →
         ∃ b', getBucket c' j = Some b' ∧ sameButFreeTiles b b'.
Proof.
  rewrite freeTile_unfold.
  generalize (Z.to_nat (fst (getTileIndex t) mod NATRON_NUM_TILES_PER_BUCKET_FILE)).
  intros i H. cbv zeta in H.
  destruct (getBucket c i) as [tb|] eqn:Htb; [|done].
  injection H as <-.
  split; [apply length_setBucket|].
  intros j b Hj.
  destruct (decide (i = j)) as [->|Hne].
  - rewrite getBucket_setBucket_eq by (by eapply getBucket_Some_lt).
    eexists; split; [done|]. rewrite Htb in Hj. injection Hj as ->.
    repeat split. simpl. set_solver.
  - rewrite getBucket_setBucket_ne by done. eauto using sameButFreeTiles_refl.
Qed.

Lemma freeTilesLoop_frame ts c c' :
  freeTilesLoop ts c = Some c' →
  length (buckets c') = length (buckets c) ∧
  ∀ j b, getBucket c j = Some b →
         ∃ b', getBucket c' j = Some b' ∧ sameButFreeTiles b b'.
Proof.
  revert c. induction ts as [|t ts IH]; intros c H; simplify_eq/=.
  - split; [done|]. eauto using sameButFreeTiles_refl.
  - destruct (freeTile t c) as [c1|] eqn:H1; simplify_eq/=.
    apply freeTile_frame in H1 as [Hl1 H1]. apply IH in H as [Hl2 H2].
    split; [congruence|]. intros j b Hj.
    destruct (H1 _ _ Hj) as (b1&Hb1&?). destruct (H2 _ _ Hb1) as (b2&Hb2&?).
    eauto using sameButFreeTiles_trans.
Qed.

Lemma tileBucketIndex_lt t :
  (Z.to_nat (fst (getTileIndex t) mod NATRON_NUM_TILES_PER_BUCKET_FILE) < 256)%nat.
Proof.
  unfold NATRON_NUM_TILES_PER_BUCKET_FILE.
  pose proof (Z.mod_pos_bound (fst (getTileIndex t)) 256). lia.
Qed.

Lemma freeTile_total t c :
  length (buckets c) = 256%nat → is_Some (freeTile t c).
Proof.
  intros Hl. rewrite freeTile_unfold.
  pose proof (tileBucketIndex_lt t) as Hlt. revert Hlt.
  generalize (Z.to_nat (fst (getTileIndex t) mod NATRON_NUM_TILES_PER_BUCKET_FILE)).
  intros i Hlt. cbv zeta.
  destruct (getBucket_lt_Some c i) as [tb ->]; [lia|]. by eexists.
Qed.

Lemma freeTilesLoop_total ts c :
  length (buckets c) = 256%nat → is_Some (freeTilesLoop ts c).
Proof.
  revert c. induction ts as [|t ts IH]; intros c Hl; simpl; [eauto|].
  destruct (freeTile_total t c Hl) as [c1 H1]. rewrite H1. simpl.
  apply IH. apply freeTile_frame in H1 as [-> _]. done.
Qed.

(** Membership after freeing *)
Lemma freeTile_elem t c c' :
  freeTile t c = Some c' →
  ∃ tb, getBucket c' (Z.to_nat (fst (getTileIndex t) mod NATRON_NUM_TILES_PER_BUCKET_FILE)) = Some tb
        ∧ t ∈ freeTiles tb.
Proof.
  rewrite freeTile_unfold.
  generalize (Z.to_nat (fst (getTileIndex t) mod NATRON_NUM_TILES_PER_BUCKET_FILE)).
  intros i H. cbv zeta in H.
  destruct (getBucket c i) as [tb|] eqn:Htb; [|done].
  injection H as <-.
  rewrite getBucket_setBucket_eq by (by eapply getBucket_Some_lt).
  eexists; split; [done|]. simpl. set_solver.
Qed.

Lemma freeTilesLoop_elem ts c c' t :
  freeTilesLoop ts c = Some c' → t ∈ ts →
  ∃ tb, getBucket c' (Z.to_nat (fst (getTileIndex t) mod NATRON_NUM_TILES_PER_BUCKET_FILE)) = Some tb
        ∧ t ∈ freeTiles tb.
Proof.
  revert c. induction ts as [|t0 ts IH]; intros c H Hin; [by apply elem_of_nil in Hin|].
  simpl in H. destruct (freeTile t0 c) as [c1|] eqn:H1; simplify_eq/=.
  apply elem_of_cons in Hin as [->|Hin]; [|by eapply IH].
  apply freeTile_elem in H1 as (tb&Htb&Hel).
  apply freeTilesLoop_frame in H as [_ H].
  destruct (H _ _ Htb) as (b'&Hb'&Hs). exists b'. split; [done|].
  destruct Hs as (_&_&_&_&_&_&Hsub). set_solver.
Qed.

Lemma sameButNode_refl e : sameButNode e e.
Proof. by repeat split. Qed.

Lemma sameButNode_trans e1 e2 e3 :
  sameButNode e1 e2 → sameButNode e2 e3 → sameButNode e1 e3.
Proof.
  intros (?&?&?&?&?&?&?) (?&?&?&?&?&?&?). repeat split; congruence.
Qed.

Lemma mapsSameButNode_refl m : mapsSameButNode m m.
Proof. intros j. destruct (m !! j); [apply sameButNode_refl|done]. Qed.

Lemma mapsSameButNode_trans m1 m2 m3 :
  mapsSameButNode m1 m2 → mapsSameButNode m2 m3 → mapsSameButNode m1 m3.
Proof.
  intros H1 H2 j. specialize (H1 j). specialize (H2 j).
  destruct (m1 !! j), (m2 !! j), (m3 !! j); try done.
  eauto using sameButNode_trans.
Qed.

Lemma mapsSameButNode_Some m m' j e :
  mapsSameButNode m m' → m !! j = Some e →
  ∃ e', m' !! j = Some e' ∧ sameButNode e e'.
Proof. intros H Hj. specialize (H j). rewrite Hj in H. destruct (m' !! j); [eauto|done]. Qed.

Lemma mapsSameButNode_None m m' j :
  mapsSameButNode m m' → m !! j = None → m' !! j = None.
Proof. intros H Hj. specialize (H j). rewrite Hj in H. by destruct (m' !! j). Qed.

Lemma mapsSameButNode_is_Some m m' j :
  mapsSameButNode m m' → is_Some (m !! j) → is_Some (m' !! j).
Proof. intros H [e He]. destruct (mapsSameButNode_Some _ _ _ _ H He) as (?&?&?). eauto. Qed.

Lemma writeEntry_node f k m m' :
  (∀ e, sameButNode e (f e)) →
  writeEntry f k m = Some m' → mapsSameButNode m m'.
Proof.
  intros Hf H. unfold writeEntry in H.
  destruct (m !! k) as [e|] eqn:He; simplify_eq/=.
  intros j. destruct (decide (k = j)) as [->|Hne].
  - rewrite lookup_insert_eq, He. apply Hf.
  - rewrite lookup_insert_ne by done. destruct (m !! j); [apply sameButNode_refl|done].
Qed.

Lemma set_prev_node p e : sameButNode e (set_prev p e).
Proof. by repeat split. Qed.
Lemma set_next_node n e : sameButNode e (set_next n e).
Proof. by repeat split. Qed.

Lemma writeEntry_is_Some f k m : is_Some (m !! k) → is_Some (writeEntry f k m).
Proof. intros [e He]. unfold writeEntry. rewrite He. simpl. eauto. Qed.

Lemma writeEntry_lookup f k m m' :
  writeEntry f k m = Some m' →
  ∃ e, m !! k = Some e ∧ m' = <[k := f e]> m.
Proof. unfold writeEntry. destruct (m !! k) as [e|]; intros; simplify_eq/=. eauto. Qed.

Lemma disconnectLinkedListNode_node k m m' :
  disconnectLinkedListNode k m = Some m' → mapsSameButNode m m'.
Proof.
  unfold disconnectLinkedListNode. intros H.
  destruct (m !! k) as [n|] eqn:Hn; simplify_eq/=.
  destruct (match prev (lruNode n) with Some p => _ | None => _ end) as [m1|] eqn:H1; simplify_eq/=.
  destruct (writeEntry (set_prev None) k m1) as [m2|] eqn:H2; simplify_eq/=.
  destruct (m2 !! k) as [n2|] eqn:Hn2; simplify_eq/=.
  destruct (match next (lruNode n2) with Some x => _ | None => _ end) as [m3|] eqn:H3; simplify_eq/=.
  assert (mapsSameButNode m m1).
  { destruct (prev (lruNode n)); simplify_eq; [|apply mapsSameButNode_refl].
    eapply writeEntry_node; [|done]. apply set_next_node. }
  assert (mapsSameButNode m1 m2).
  { eapply writeEntry_node; [|done]. apply set_prev_node. }
  assert (mapsSameButNode m2 m3).
  { destruct (next (lruNode n2)); simplify_eq; [|apply mapsSameButNode_refl].
    eapply writeEntry_node; [|done]. apply set_prev_node. }
  assert (mapsSameButNode m3 m').
  { eapply writeEntry_node; [|done]. apply set_next_node. }
  eauto using mapsSameButNode_trans.
Qed.

Lemma insertLinkedListNode_node k p nx m m' :
  insertLinkedListNode k p nx m = Some m' → mapsSameButNode m m'.
Proof.
  unfold insertLinkedListNode. intros H.
  destruct (match p with Some q => _ | None => _ end) as [m1|] eqn:H1; simplify_eq/=.
  destruct (writeEntry (set_prev p) k m1) as [m2|] eqn:H2; simplify_eq/=.
  destruct (match nx with Some x => _ | None => _ end) as [m3|] eqn:H3; simplify_eq/=.
  assert (mapsSameButNode m m1).
  { destruct p; simplify_eq; [|apply mapsSameButNode_refl].
    eapply writeEntry_node; [|done]. apply set_next_node. }
  assert (mapsSameButNode m1 m2).
  { eapply writeEntry_node; [|done]. apply set_prev_node. }
  assert (mapsSameButNode m2 m3).
  { destruct nx; simplify_eq; [|apply mapsSameButNode_refl].
    eapply writeEntry_node; [|done]. apply set_prev_node. }
  assert (mapsSameButNode m3 m').
  { eapply writeEntry_node; [|done]. apply set_next_node. }
  eauto using mapsSameButNode_trans.
Qed.

Lemma disconnectLinkedListNode_total k m n :
  m !! k = Some n →
  (∀ p, prev (lruNode n) = Some p → is_Some (m !! p)) →
  (∀ x, next (lruNode n) = Some x → is_Some (m !! x)) →
  is_Some (disconnectLinkedListNode k m).
Proof.
  intros Hn Hp Hx. unfold disconnectLinkedListNode. rewrite Hn. simpl.
  assert (∃ m1, match prev (lruNode n) with
                | Some p => writeEntry (set_next (next (lruNode n))) p m
                | None => Some m end = Some m1 ∧ mapsSameButNode m m1
                ∧ ∃ n1, m1 !! k = Some n1 ∧ next (lruNode n1) = next (lruNode n)) as (m1&->&HL1&n1&Hn1&Hnx1).
  { destruct (prev (lruNode n)) as [p|] eqn:Hpv.
    - destruct (writeEntry_is_Some (set_next (next (lruNode n))) p m) as [m1 H1]; [eauto|].
      exists m1. split; [done|]. split; [eapply writeEntry_node; [apply set_next_node|done]|].
      apply writeEntry_lookup in H1 as (e&He&->).
      destruct (decide (p = k)) as [->|Hne].
      + rewrite lookup_insert_eq. eauto.
      + rewrite lookup_insert_ne by done. eauto.
    - exists m. eauto using mapsSameButNode_refl. }
  simpl.
  set (m2 := <[k:=set_prev None n1]> m1).
  assert (writeEntry (set_prev None) k m1 = Some m2) as H2.
  { unfold writeEntry. by rewrite Hn1. }
  rewrite H2. simpl.
  assert (m2 !! k = Some (set_prev None n1)) as Hn2 by apply lookup_insert_eq.
  rewrite Hn2. simpl. rewrite Hnx1.
  assert (mapsSameButNode m1 m2) as HL2.
  { eapply writeEntry_node; [apply set_prev_node|done]. }
  assert (∃ m3, match next (lruNode n) with
                | Some x => writeEntry (set_prev None) x m2
                | None => Some m2 end = Some m3 ∧ mapsSameButNode m2 m3) as (m3&->&HL3).
  { destruct (next (lruNode n)) as [x|] eqn:Hnx.
    - destruct (writeEntry_is_Some (set_prev None) x m2) as [m3 H3].
      { eapply mapsSameButNode_is_Some; [exact HL2|].
        eapply mapsSameButNode_is_Some; [exact HL1|]. eauto. }
      exists m3. split; [done|]. eapply writeEntry_node; [apply set_prev_node|done].
    - exists m2. eauto using mapsSameButNode_refl. }
  simpl. apply writeEntry_is_Some.
  eapply mapsSameButNode_is_Some; [exact HL3|].
  eapply mapsSameButNode_is_Some; [exact HL2|]. eauto.
Qed.

(** ** Deallocation of an entry *)

Lemma unlinkAndErase_spec k b b' :
  unlinkAndErase k b = Some b' →
  ∃ e, entriesMap b !! k = Some e ∧
       entriesMap b' !! k = None ∧
       mapsSameButNode (delete k (entriesMap b)) (entriesMap b') ∧
       lruListBack b' =
         (if decide (lruListBack b = Some k) then prev (lruNode e)
          else lruListBack b) ∧
       lruListFront b' =
         (if decide (lruListFront b = Some k) then prev (lruNode e)
          else lruListFront b) ∧
       version b' = version b ∧ bucketState b' = bucketState b ∧
       bucket_size b' = bucket_size b ∧ freeTiles b' = freeTiles b.
Proof.
  unfold unlinkAndErase. intros H.
  destruct (entriesMap b !! k) as [e|] eqn:He; [|done]. simpl in H.
  destruct (disconnectLinkedListNode k _) as [m|] eqn:Hm; [|done].
  injection H as <-. exists e. split; [done|].
  apply disconnectLinkedListNode_node in Hm.
  split; [simpl; apply lookup_delete_eq|].
  split.
  { simpl. intros j. destruct (decide (j = k)) as [->|Hne].
    - by rewrite !lookup_delete_eq.
    - rewrite !lookup_delete_ne by done. specialize (Hm j).
      by rewrite lookup_insert_ne in Hm by done. }
  repeat case_decide; simpl; repeat split; try done; simpl in *; congruence.
Qed.

Lemma unlinkAndErase_total k b e :
  entriesMap b !! k = Some e →
  (∀ p, prev (lruNode e) = Some p → is_Some (entriesMap b !! p)) →
  (∀ x, next (lruNode e) = Some x → is_Some (entriesMap b !! x)) →
  is_Some (unlinkAndErase k b).
Proof.
  intros He Hp Hx. unfold unlinkAndErase. rewrite He. simpl.
  destruct (disconnectLinkedListNode_total k
              (<[k:=set_tileIndices [] e]> (entriesMap b))
              (set_tileIndices [] e)) as [m ->].
  - apply lookup_insert_eq.
  - simpl. intros p Hpp. rewrite lookup_insert. case_decide; [by eexists|]. by apply Hp.
  - simpl. intros x Hxx. rewrite lookup_insert. case_decide; [by eexists|]. by apply Hx.
  - by eexists.
Qed.

Lemma freeTile_config t c c' :
  freeTile t c = Some c' →
  maximumSize c' = maximumSize c ∧ tilesStorage c' = tilesStorage c ∧
  useTileStorage c' = useTileStorage c.
Proof.
  rewrite freeTile_unfold. cbv zeta. intros H.
  destruct (getBucket c _) as [tb|]; [|done]. by injection H as <-.
Qed.

Lemma freeTilesLoop_config ts c c' :
  freeTilesLoop ts c = Some c' →
  maximumSize c' = maximumSize c ∧ tilesStorage c' = tilesStorage c ∧
  useTileStorage c' = useTileStorage c.
Proof.
  revert c. induction ts as [|t ts IH]; intros c H; simpl in H.
  - by injection H as <-.
  - destruct (freeTile t c) as [c1|] eqn:H1; [|done]. simpl in H.
    apply freeTile_config in H1 as (?&?&?). apply IH in H as (?&?&?).
    repeat split; congruence.
Qed.

Lemma deallocateCacheEntryImpl_spec bi k c c' :
  deallocateCacheEntryImpl bi k c = Some c' →
  ∃ b e b',
    getBucket c bi = Some b ∧ entriesMap b !! k = Some e ∧
    getBucket c' bi = Some b' ∧
    length (buckets c') = length (buckets c) ∧
    maximumSize c' = maximumSize c ∧ tilesStorage c' = tilesStorage c ∧
    useTileStorage c' = useTileStorage c ∧
    entriesMap b' !! k = None ∧
    mapsSameButNode (delete k (entriesMap b)) (entriesMap b') ∧
    lruListBack b' =
      (if decide (lruListBack b = Some k) then prev (lruNode e)
       else lruListBack b) ∧
    lruListFront b' =
      (if decide (lruListFront b = Some k) then prev (lruNode e)
       else lruListFront b) ∧
    version b' = version b ∧ bucketState b' = bucketState b ∧
    bucket_size b' = sizeAfterDeallocate e (bucket_size b) ∧
    freeTiles b ⊆ freeTiles b' ∧
    (∀ j b0, j ≠ bi → getBucket c j = Some b0 →
             ∃ b0', getBucket c' j = Some b0' ∧ sameButFreeTiles b0 b0') ∧
    (∀ t, t ∈ tileIndices e →
          ∃ tb, getBucket c'
                  (Z.to_nat (fst (getTileIndex t)
                             mod NATRON_NUM_TILES_PER_BUCKET_FILE)) = Some tb
                ∧ t ∈ freeTiles tb).
Proof.
  unfold deallocateCacheEntryImpl. intros H.
  destruct (getBucket c bi) as [b|] eqn:Hb; [|done]. simpl in H.
  destruct (entriesMap b !! k) as [e|] eqn:He; [|done]. simpl in H.
  set (b1 := set_bucket_size (sizeAfterDeallocate e (bucket_size b)) b) in H.
  destruct (freeTilesLoop (tileIndices e) (setBucket bi b1 c)) as [c2|] eqn:H2;
    [|done]. simpl in H.
  destruct (getBucket c2 bi) as [b2|] eqn:Hb2; [|done]. simpl in H.
  destruct (unlinkAndErase k b2) as [b3|] eqn:H3; [|done]. simpl in H.
  injection H as <-.
  pose proof (getBucket_Some_lt _ _ _ Hb) as Hlt.
  pose proof (freeTilesLoop_frame _ _ _ H2) as [Hlen Hframe].
  pose proof (freeTilesLoop_config _ _ _ H2) as (Hmax&Hts&Hut).
  rewrite length_setBucket in Hlen.
  destruct (Hframe bi b1) as (b2'&Hb2'&Hs12).
  { by apply getBucket_setBucket_eq. }
  rewrite Hb2 in Hb2'. injection Hb2' as <-.
  destruct Hs12 as (Hf&Hbk&Hv&Hst&Hsz&Hm&Hft).
  apply unlinkAndErase_spec in H3
    as (e'&He'&Hk&Hlinks&Hback&Hfront&Hv3&Hst3&Hsz3&Hft3).
  rewrite Hm in He'. simpl in He'. rewrite He in He'. injection He' as <-.
  exists b, e, b3. split; [done|]. split; [done|].
  split. { apply getBucket_setBucket_eq. eapply getBucket_Some_lt; eauto. }
  split. { by rewrite length_setBucket. }
  split; [done|]. split; [done|]. split; [done|]. split; [done|].
  split. { by rewrite Hm in Hlinks. }
  split. { by rewrite Hback, Hbk. }
  split. { by rewrite Hfront, Hf. }
  split. { by rewrite Hv3, Hv. }
  split. { by rewrite Hst3, Hst. }
  split. { by rewrite Hsz3, Hsz. }
  split. { rewrite Hft3. exact Hft. }
  split.
  - intros j b0 Hne Hj. rewrite getBucket_setBucket_ne by done.
    apply Hframe. by rewrite getBucket_setBucket_ne.
  - intros t Ht. destruct (freeTilesLoop_elem _ _ _ _ H2 Ht) as (tb&Htb&Hel).
    revert Htb.
    generalize (Z.to_nat (fst (getTileIndex t) mod NATRON_NUM_TILES_PER_BUCKET_FILE)).
    intros i Htb. destruct (decide (bi = i)) as [->|Hne].
    + rewrite getBucket_setBucket_eq by (eapply getBucket_Some_lt; eauto).
      exists b3. split; [done|]. rewrite Hft3. congruence.
    + rewrite getBucket_setBucket_ne by done. eauto.
Qed.

Lemma deallocateCacheEntryImpl_total bi k c b e :
  length (buckets c) = 256%nat →
  getBucket c bi = Some b → entriesMap b !! k = Some e →
  (∀ p, prev (lruNode e) = Some p → is_Some (entriesMap b !! p)) →
  (∀ x, next (lruNode e) = Some x → is_Some (entriesMap b !! x)) →
  is_Some (deallocateCacheEntryImpl bi k c).
Proof.
  intros Hl Hb He Hp Hx. unfold deallocateCacheEntryImpl.
  rewrite Hb. simpl. rewrite He. simpl.
  set (b1 := set_bucket_size (sizeAfterDeallocate e (bucket_size b)) b).
  destruct (freeTilesLoop_total (tileIndices e) (setBucket bi b1 c)) as [c2 H2].
  { by rewrite length_setBucket. }
  rewrite H2. simpl.
  pose proof (freeTilesLoop_frame _ _ _ H2) as [Hlen Hframe].
  destruct (Hframe bi b1) as (b2&Hb2&Hs12).
  { apply getBucket_setBucket_eq. eapply getBucket_Some_lt; eauto. }
  rewrite Hb2. simpl.
  destruct Hs12 as (_&_&_&_&_&Hm&_).
  destruct (unlinkAndErase_total k b2 e) as [b3 ->].
  - by rewrite Hm.
  - rewrite Hm. exact Hp.
  - rewrite Hm. exact Hx.
  - by eexists.
Qed.

(** ** The bucket state handler *)

Lemma BucketStateHandler_RAII_ok {A} bi c (scope : CachePrivate → option (A * CachePrivate)) b r :
  getBucket c bi = Some b → bucketState b = eBucketStateOk →
  BucketStateHandler_RAII bi c scope = Some r →
  ∃ a c2 b2,
    scope (setBucket bi (set_bucketState eBucketStateInconsistent b) c)
      = Some (a, c2) ∧
    getBucket c2 bi = Some b2 ∧
    r = Normal (a, setBucket bi (set_bucketState eBucketStateOk b2) c2).
Proof.
  intros Hb Hst. unfold BucketStateHandler_RAII. rewrite Hb. simpl.
  rewrite decide_True by done.
  destruct (scope _) as [[a c2]|] eqn:Hs; [|done]. simpl.
  destruct (getBucket c2 bi) as [b2|] eqn:Hb2; [|done]. simpl.
  intros [= <-]. exists a, c2, b2. done.
Qed.

Lemma BucketStateHandler_RAII_thrown {A} bi c (scope : CachePrivate → option (A * CachePrivate)) b :
  getBucket c bi = Some b → bucketState b ≠ eBucketStateOk →
  BucketStateHandler_RAII bi c scope = Some (Thrown c).
Proof.
  intros Hb Hst. unfold BucketStateHandler_RAII. rewrite Hb. simpl.
  by rewrite decide_False.
Qed.

(** ** Bucket addressing *)

Lemma getBucketCacheBucketIndex_low_byte k :
  getBucketCacheBucketIndex k = k mod 256.
Proof.
  unfold getBucketCacheBucketIndex, getBucketStorageIndex.
  change (Z.shiftr 18446744073709551615 (NATRON_CACHE_BUCKETS_N_DIGITS * 7 * 4))
    with (Z.ones 8).
  change (64 - NATRON_CACHE_BUCKETS_N_DIGITS * (7 + 1) * 4) with 0.
  rewrite Z.shiftr_0_r, Z.land_ones by lia. reflexivity.
Qed.

Lemma getBucketCacheBucketIndex_lt k :
  (Z.to_nat (getBucketCacheBucketIndex k) < 256)%nat.
Proof.
  rewrite getBucketCacheBucketIndex_low_byte.
  pose proof (Z.mod_pos_bound k 256). lia.
Qed.

Lemma lookupAndSetStatusInternal_locker thread w r ts to lk c st lk' c' :
  lookupAndSetStatusInternal thread w r ts to lk c = Some (st, lk', c') →
  bucket lk' = bucket lk ∧ lockerHash lk' = lockerHash lk.
Proof.
  unfold lookupAndSetStatusInternal, copyProcessLocalEntryFromEntry. intros H.
  repeat (simplify_option_eq || case_match); done.
Qed.

Lemma lookupAndCreate_locker thread ts to lk c lk' c' :
  lookupAndCreate thread ts to lk c = Some (Normal (lk', c')) →
  bucket lk' = bucket lk ∧ lockerHash lk' = lockerHash lk.
Proof.
  unfold lookupAndCreate, BucketStateHandler_RAII. intros H.
  destruct (lookupAndSetStatusInternal thread true false ts to lk c)
    as [[[stat0 lk1] c1]|] eqn:H0; [|done]. simpl in H.
  apply lookupAndSetStatusInternal_locker in H0 as [Hb0 Hh0].
  destruct (match stat0 with
            | eLookUpRetCodeOutOfMemory =>
              lookupAndSetStatusInternal thread true true ts to lk1 c1
            | _ => Some (stat0, lk1, c1)
            end) as [[[stat lk2] c2]|] eqn:H1; [|done]. simpl in H.
  assert (bucket lk2 = bucket lk1 ∧ lockerHash lk2 = lockerHash lk1) as [Hb1 Hh1].
  { destruct stat0; simplify_eq; try done.
    by apply lookupAndSetStatusInternal_locker in H1. }
  destruct stat; simplify_option_eq; split; congruence.
Qed.

Lemma lookupAndSetStatus_bucket thread ts to lk c lk' c' :
  bucket lk = None →
  lookupAndSetStatus thread ts to lk c = Some (lk', c') →
  bucket lk' = Some (Z.to_nat (getBucketCacheBucketIndex (lockerHash lk))).
Proof.
  intros Hnone. unfold lookupAndSetStatus. rewrite Hnone. intros H.
  destruct (lookupAndSetStatusInternal _ _ _ _ _ _ _)
    as [[[stat lk1] c1]|] eqn:H0; [|done]. simpl in H.
  apply lookupAndSetStatusInternal_locker in H0 as [Hb0 Hh0]. simpl in Hb0.
  destruct (lookupAndCreate thread ts to lk1 c1) as [[[lk2 c2]|c2]|] eqn:H1;
    destruct stat; simplify_eq/=; try done.
  all: by apply lookupAndCreate_locker in H1 as [-> _].
Qed.

Lemma get_miss thread en c b :
  let k := getHashKey en in
  let bi := Z.to_nat (getBucketCacheBucketIndex k) in
  getBucket c bi = Some b → bucketState b = eBucketStateOk →
  entriesMap b !! k = None →
  ∃ e,
    get thread en c =
      Some (set_bucket (Some bi) (newLocker en),
            setBucket bi (set_entriesMap (<[k := e]> (entriesMap b)) b) c) ∧
    status e = eEntryStatusPending ∧ computeThreadMagic e = thread ∧
    entry_size e = getMetadataSize en ∧ tileIndices e = [] ∧
    lruNode e = newLRUListNode.
Proof.
  intros k bi Hb Hst Hk.
  pose proof (getBucket_Some_lt _ _ _ Hb) as Hlt.
  eexists. split.
  - unfold get, lookupAndSetStatus. simpl.
    unfold lookupAndSetStatusInternal at 1. simpl. fold k bi. rewrite Hb. simpl.
    unfold tryCacheLookupImpl. rewrite Hk. simpl.
    unfold lookupAndCreate, lookupAndSetStatusInternal. simpl. fold k bi.
    rewrite Hb. simpl. unfold tryCacheLookupImpl. rewrite Hk. simpl.
    unfold BucketStateHandler_RAII. rewrite Hb. simpl.
    rewrite decide_True by done. simpl.
    rewrite getBucket_setBucket_eq by done. simpl.
    rewrite getBucket_setBucket_eq by (by rewrite length_setBucket). simpl.
    unfold constructEntry. simpl. fold k. rewrite Hk.
    f_equal. f_equal.
    unfold setBucket, set_buckets. simpl. rewrite !list_insert_insert_eq.
    rewrite <- Hst. destruct b; reflexivity.
  - unfold copyProcessLocalEntryToEntry. by destruct persistent.
Qed.

Lemma removeEntry_spec en c b c' :
  let k := getHashKey en in
  let bi := Z.to_nat (getBucketCacheBucketIndex k) in
  getBucket c bi = Some b → bucketState b = eBucketStateOk →
  removeEntry (Some en) c = Some c' →
  ∃ b', getBucket c' bi = Some b' ∧ entriesMap b' !! k = None ∧
        mapsSameButNode (delete k (entriesMap b)) (entriesMap b') ∧
        bucketState b' = eBucketStateOk ∧
        length (buckets c') = length (buckets c) ∧
        ∀ j b0, j ≠ bi → getBucket c j = Some b0 →
                ∃ b0', getBucket c' j = Some b0' ∧ sameButFreeTiles b0 b0'.
Proof.
  intros k bi Hb Hst. unfold removeEntry. fold k bi. intros H.
  pose proof (getBucket_Some_lt _ _ _ Hb) as Hlt.
  destruct (BucketStateHandler_RAII bi c _) as [r|] eqn:Hr; [|done].
  simpl in H.
  destruct (BucketStateHandler_RAII_ok _ _ _ _ _ Hb Hst Hr)
    as ([] & c2 & b2 & Hscope & Hb2 & ->).
  injection H as <-.
  set (b1 := set_bucketState eBucketStateInconsistent b) in *.
  rewrite getBucket_setBucket_eq in Hscope by done. simpl in Hscope.
  unfold tryCacheLookupImpl in Hscope.
  destruct (entriesMap b1 !! k) as [e|] eqn:He.
  - destruct (deallocateCacheEntryImpl bi k (setBucket bi b1 c)) as [c3|] eqn:Hd;
      [|done]. simpl in Hscope. injection Hscope as ->.
    apply deallocateCacheEntryImpl_spec in Hd
      as (b0&e0&b3&Hb0&He0&Hb3&Hlen&_&_&_&Hk&Hlinks&_&_&_&_&_&_&Hothers&_).
    rewrite getBucket_setBucket_eq in Hb0 by done. injection Hb0 as <-.
    rewrite Hb2 in Hb3. injection Hb3 as <-.
    exists (set_bucketState eBucketStateOk b2).
    split. { apply getBucket_setBucket_eq. eapply getBucket_Some_lt; eauto. }
    split; [done|]. split; [done|]. split; [done|].
    split. { by rewrite length_setBucket, Hlen, length_setBucket. }
    intros j bj Hne Hj. rewrite getBucket_setBucket_ne by done.
    apply Hothers; [done|]. by rewrite getBucket_setBucket_ne.
  - injection Hscope as <-.
    rewrite getBucket_setBucket_eq in Hb2 by done. injection Hb2 as <-.
    exists (set_bucketState eBucketStateOk b1).
    split. { apply getBucket_setBucket_eq. by rewrite length_setBucket. }
    split; [done|].
    split. { simpl. rewrite delete_id by done. apply mapsSameButNode_refl. }
    split; [done|].
    split. { by rewrite !length_setBucket. }
    intros j bj Hne Hj. rewrite !getBucket_setBucket_ne by done.
    eauto using sameButFreeTiles_refl.
Qed.

(** C1 (amended).  For every 64-bit key [k] the bucket index computed by
    [getBucketCacheBucketIndex] is the low byte [k mod 256] of the key, and
    this is the bucket the operations address: [hasCacheEntryForHash] looks
    [k] up in the index of bucket [k mod 256]; [Cache::get] pins the locker
    to bucket [k mod 256] and, on a miss, stores the reserved Pending entry
    there, leaving every other bucket as it was; [removeEntry] erases [k]
    from the index of bucket [k mod 256] and leaves the index of every other
    bucket as it was. *)
Theorem operations_address_low_byte_bucket (k : Z) :
  0 ≤ k < 2 ^ 64 →
  let bi := Z.to_nat (k mod 256) in
  getBucketCacheBucketIndex k = k mod 256 ∧
  (∀ c, hasCacheEntryForHash k c =
        (b ← getBucket c bi; Some (bool_decide (is_Some (entriesMap b !! k))))) ∧
  (∀ thread en c lk c',
     getHashKey en = k → get thread en c = Some (lk, c') →
     bucket lk = Some bi) ∧
  (∀ thread en c b,
     getHashKey en = k → getBucket c bi = Some b →
     bucketState b = eBucketStateOk → entriesMap b !! k = None →
     ∃ lk c' b' e,
       get thread en c = Some (lk, c') ∧
       lockerStatus lk = eCacheEntryStatusMustCompute ∧
       getBucket c' bi = Some b' ∧ entriesMap b' !! k = Some e ∧
       status e = eEntryStatusPending ∧
       ∀ j, j ≠ bi → getBucket c' j = getBucket c j) ∧
  (∀ en c b c',
     getHashKey en = k → getBucket c bi = Some b →
     bucketState b = eBucketStateOk → removeEntry (Some en) c = Some c' →
     ∃ b', getBucket c' bi = Some b' ∧ entriesMap b' !! k = None ∧
           ∀ j b0, j ≠ bi → getBucket c j = Some b0 →
                   ∃ b0', getBucket c' j = Some b0' ∧
                          entriesMap b0' = entriesMap b0).
Proof.
  intros Hk bi.
  pose proof (getBucketCacheBucketIndex_low_byte k) as Hidx.
  split; [done|]. split; [|split; [|split]].
  - intros c. unfold hasCacheEntryForHash. by rewrite Hidx.
  - intros thread en c lk c' Hen Hget.
    apply lookupAndSetStatus_bucket in Hget; [|done].
    simpl in Hget. by rewrite Hen, Hidx in Hget.
  - intros thread en c b Hen Hb Hst Hnone. subst k. subst bi.
    rewrite <- Hidx in *.
    destruct (get_miss thread en c b Hb Hst Hnone) as (e&Hget&Hse&_).
    eexists _, _, _, e. split; [exact Hget|]. split; [done|].
    split. { apply getBucket_setBucket_eq. by eapply getBucket_Some_lt. }
    split. { simpl. apply lookup_insert_eq. }
    split; [done|].
    intros j Hne. by rewrite getBucket_setBucket_ne.
  - intros en c b c' Hen Hb Hst Hrm. subst k. subst bi.
    rewrite <- Hidx in *.
    destruct (removeEntry_spec en c b c' Hb Hst Hrm)
      as (b'&Hb'&Hnone&_&_&_&Hothers).
    exists b'. split; [done|]. split; [done|].
    intros j b0 Hne Hj. destruct (Hothers j b0 Hne Hj) as (b0'&Hb0'&Hs).
    exists b0'. split; [done|]. by destruct Hs as (_&_&_&_&_&->&_).
Qed.

(** C10.  When the configured maximum size is 0, [evictLRUEntries] returns
    at once and the cache is unchanged, whatever [nBytesToFree] is: no entry
    is evicted. *)
Theorem evictLRUEntries_no_limit (nBytesToFree : Z) (c : CachePrivate) :
  getMaximumCacheSize c = 0 → evictLRUEntries nBytesToFree c = Some c.
Proof. intros H. unfold evictLRUEntries. by rewrite H. Qed.

(** ** Serialization and the hash tag *)

Lemma deserializeEntry_bad_hash e ple k w :
  persistent = true →
  getIPCProperty kNatronIPCPropertyHash (properties e) ≠ Some k →
  deserializeEntry e ple k w = eShmEntryReadRetCodeDeserializationFailed.
Proof.
  intros Hp Hne. unfold deserializeEntry. rewrite Hp.
  destruct (getIPCProperty _ _) as [h|]; [|done].
  destruct (Z.eqb_spec h k) as [->|]; [by destruct Hne|done].
Qed.

Lemma pushBackLRU_spec k b b' :
  pushBackLRU k b = Some b' →
  mapsSameButNode (entriesMap b) (entriesMap b') ∧
  lruListBack b' = Some k ∧
  version b' = version b ∧ bucketState b' = bucketState b ∧
  bucket_size b' = bucket_size b ∧ freeTiles b' = freeTiles b.
Proof.
  unfold pushBackLRU. intros H.
  destruct (writeEntry _ k (entriesMap b)) as [m0|] eqn:Hw0; [|done].
  simpl in H.
  assert (mapsSameButNode (entriesMap b) m0) as H0.
  { eapply writeEntry_node; [|exact Hw0]. intros e0. by repeat split. }
  destruct (lruListBack b) as [bk|].
  - destruct (insertLinkedListNode k (Some bk) None m0) as [m1|] eqn:Hins;
      [|done].
    simpl in H. injection H as <-. simpl.
    apply insertLinkedListNode_node in Hins.
    split; [eauto using mapsSameButNode_trans|done].
  - injection H as <-. done.
Qed.

Lemma insertInternalScope_hash_tag lk bi c b e lk' c' :
  persistent = true →
  getBucket c bi = Some b →
  entriesMap b !! lockerHash lk = Some e →
  computeThreadMagic e ≠ 0 →
  insertInternalScope lk bi c = Some (eInsertRetCodeCreated, lk', c') →
  ∃ props b' e',
    toMemorySegment (processLocalEntry lk) (properties e) = Some props ∧
    getBucket c' bi = Some b' ∧
    entriesMap b' !! lockerHash lk = Some e' ∧
    properties e' =
      setIPCProperty kNatronIPCPropertyHash (lockerHash lk) props ∧
    getIPCProperty kNatronIPCPropertyHash (properties e')
      = Some (lockerHash lk) ∧
    status e' = eEntryStatusReady ∧ bucketState b' = bucketState b.
Proof.
  intros Hp Hb He Hmagic.
  pose proof (getBucket_Some_lt _ _ _ Hb) as Hlt.
  revert lk' c'.
  intros lk' c'. unfold insertInternalScope, tryCacheLookupImpl.
  rewrite Hb. simpl. rewrite He.
  destruct (Z.eqb_spec (computeThreadMagic e) 0) as [|_]; [done|].
  unfold serializeCacheEntry. rewrite Hp.
  destruct (toMemorySegment (processLocalEntry lk) (properties e))
    as [props|] eqn:Hser; [|done].
  rewrite decide_True by done.
  set (e1 := set_properties _ e).
  set (b1 := set_entriesMap _ b).
  set (b2 := set_bucket_size _ b1).
  intros H.
  destruct (pushBackLRU (lockerHash lk) b2) as [b3|] eqn:Hpush; [|done].
  simpl in H.
  destruct (writeEntry _ (lockerHash lk) (entriesMap b3)) as [m4|] eqn:Hw;
    [|done].
  simpl in H. injection H as <- <-.
  apply writeEntry_lookup in Hw as (e3&He3&->).
  apply pushBackLRU_spec in Hpush as (Hlinks&_&_&Hst3&_).
  destruct (mapsSameButNode_Some _ _ (lockerHash lk) e1 Hlinks)
    as (e3'&He3'&Hsame).
  { simpl. apply lookup_insert_eq. }
  rewrite He3 in He3'. injection He3' as <-.
  destruct Hsame as (_&_&_&_&_&Hprops&_).
  exists props. eexists. eexists. split; [done|].
  split. { by apply getBucket_setBucket_eq. }
  split. { simpl. apply lookup_insert_eq. }
  simpl. rewrite Hprops. simpl.
  split; [done|]. split; [|by split].
  unfold getIPCProperty, setIPCProperty. apply lookup_insert_eq.
Qed.

(** C8.  In the persistent cache: (1) when [insertInternal] serializes the
    payload of a reserved entry and succeeds, the properties stored in the
    entry are those written by [toMemorySegment] with the hash property
    written last, on top of them, equal to the key, and the entry is Ready;
    (2) a Ready entry whose hash property is absent or differs from the
    looked-up key fails deserialization, the look-up never reports Cached:
    without write rights it answers NotFound and leaves the cache as it is,
    with write rights it deallocates the entry and answers NotFound. *)
Theorem hash_tag_written_last_and_checked
    (thread : Z) (lk : CacheEntryLockerPrivate) (bi : nat) (c : CachePrivate)
    (b : CacheBucketIPCData) (e : MemorySegmentEntryHeader) :
  persistent = true →
  length (buckets c) = 256%nat →
  bucket lk = Some bi → getBucket c bi = Some b →
  entriesMap b !! lockerHash lk = Some e →
  (bucketState b = eBucketStateOk → computeThreadMagic e ≠ 0 →
   ∀ lk' c',
     insertInternal lk c = Some (Normal (eInsertRetCodeCreated, lk', c')) →
     ∃ props b' e',
       toMemorySegment (processLocalEntry lk) (properties e) = Some props ∧
       getBucket c' bi = Some b' ∧
       entriesMap b' !! lockerHash lk = Some e' ∧
       properties e' =
         setIPCProperty kNatronIPCPropertyHash (lockerHash lk) props ∧
       getIPCProperty kNatronIPCPropertyHash (properties e')
         = Some (lockerHash lk) ∧
       status e' = eEntryStatusReady) ∧
  (status e = eEntryStatusReady →
   getIPCProperty kNatronIPCPropertyHash (properties e) ≠ Some (lockerHash lk) →
   (∀ w, deserializeEntry e (processLocalEntry lk) (lockerHash lk) w
         = eShmEntryReadRetCodeDeserializationFailed) ∧
   (∀ r ts to,
      lookupAndSetStatusInternal thread false r ts to lk c =
        Some (eLookUpRetCodeNotFound,
              set_lockerStatus eCacheEntryStatusMustCompute lk, c)) ∧
   ((∀ p, prev (lruNode e) = Some p → is_Some (entriesMap b !! p)) →
    (∀ x, next (lruNode e) = Some x → is_Some (entriesMap b !! x)) →
    ∀ r ts to, ∃ c' b',
      lookupAndSetStatusInternal thread true r ts to lk c =
        Some (eLookUpRetCodeNotFound,
              set_lockerStatus eCacheEntryStatusMustCompute lk, c') ∧
      getBucket c' bi = Some b' ∧ entriesMap b' !! lockerHash lk = None)).
Proof.
  intros Hp Hlen Hbi Hb He.
  pose proof (getBucket_Some_lt _ _ _ Hb) as Hlt.
  split.
  - intros Hok Hmagic lk' c' H. unfold insertInternal in H.
    rewrite Hbi in H. simpl in H.
    destruct (BucketStateHandler_RAII bi c _) as [r|] eqn:Hr; [|done].
    destruct (BucketStateHandler_RAII_ok _ _ _ _ _ Hb Hok Hr)
      as ([rc lk2] & c2 & b2 & Hscope & Hb2 & ->).
    injection H as -> -> <-.
    set (b1 := set_bucketState eBucketStateInconsistent b) in *.
    destruct (insertInternalScope lk bi (setBucket bi b1 c))
      as [[[rc' lk''] c'']|] eqn:Hs; [|done].
    simpl in Hscope. injection Hscope as -> -> ->.
    destruct (insertInternalScope_hash_tag lk bi (setBucket bi b1 c) b1 e
                lk' c2 Hp) as (props&b'&e'&Hser&Hb'&He'&Hprops&Hget&Hst&_);
      try done.
    { by apply getBucket_setBucket_eq. }
    rewrite Hb2 in Hb'. injection Hb' as <-.
    exists props, (set_bucketState eBucketStateOk b2), e'.
    split; [done|].
    split. { apply getBucket_setBucket_eq. eapply getBucket_Some_lt; eauto. }
    done.
  - intros Hready Hbad.
    assert (∀ w, deserializeEntry e (processLocalEntry lk) (lockerHash lk) w
                 = eShmEntryReadRetCodeDeserializationFailed) as Hdes.
    { intros w. by apply deserializeEntry_bad_hash. }
    split; [exact Hdes|].
    assert (∀ w r ts to,
      lookupAndSetStatusInternal thread w r ts to lk c =
      if w then
        c'' ← deallocateCacheEntryImpl bi (lockerHash lk) (setBucket bi b c);
        Some (eLookUpRetCodeNotFound,
              set_lockerStatus eCacheEntryStatusMustCompute lk, c'')
      else Some (eLookUpRetCodeNotFound,
                 set_lockerStatus eCacheEntryStatusMustCompute lk,
                 setBucket bi b c)) as Hlook.
    { intros w r ts to. unfold lookupAndSetStatusInternal. simpl.
      rewrite Hbi. simpl. rewrite Hb. simpl.
      unfold tryCacheLookupImpl. rewrite He, Hready. simpl.
      unfold readFromSharedMemoryEntryImpl. rewrite He. simpl.
      rewrite Hdes. simpl. by destruct w. }
    split.
    + intros r ts to. rewrite Hlook. by rewrite setBucket_id.
    + intros Hprev Hnext r ts to. rewrite Hlook, setBucket_id by done.
      destruct (deallocateCacheEntryImpl_total bi (lockerHash lk) c b e)
        as [c' Hd]; try done.
      rewrite Hd. simpl.
      apply deallocateCacheEntryImpl_spec in Hd
        as (b0&e0&b'&Hb0&_&Hb'&_&_&_&_&Hk&_).
      eauto.
Qed.

(** ** Dropping a locker *)

Lemma set_prev_set_next_eta ej :
  set_prev (prev (lruNode ej)) (set_next (next (lruNode ej)) ej) = ej.
Proof. by destruct ej as [? ? ? [] ? ? ? ?]. Qed.

Lemma disconnectLinkedListNode_lookup k m n m' j :
  m !! k = Some n →
  prev (lruNode n) ≠ Some k → next (lruNode n) ≠ Some k →
  disconnectLinkedListNode k m = Some m' → j ≠ k →
  m' !! j = unlinkedNeighbour (lruNode n) j <$> m !! j.
Proof.
  intros Hn Hpk Hxk H Hj. unfold disconnectLinkedListNode in H.
  rewrite Hn in H. simpl in H.
  destruct (match prev (lruNode n) with
            | Some p => writeEntry (set_next (next (lruNode n))) p m
            | None => Some m end) as [m1|] eqn:H1; [|done].
  simpl in H.
  assert (m1 !! k = Some n ∧
          m1 !! j = (λ ej, set_next (if decide (prev (lruNode n) = Some j)
                                     then next (lruNode n)
                                     else next (lruNode ej)) ej) <$> m !! j)
    as [Hk1 Hj1].
  { destruct (prev (lruNode n)) as [p|] eqn:Hp.
    - apply writeEntry_lookup in H1 as (ep&Hep&->).
      split. { rewrite lookup_insert_ne by congruence. done. }
      destruct (decide (p = j)) as [->|Hne].
      + rewrite lookup_insert_eq, Hep. simpl. by rewrite decide_True.
      + rewrite lookup_insert_ne by done.
        destruct (m !! j) as [ej|]; [|done]. simpl. f_equal.
        rewrite decide_False by congruence.
        by destruct ej as [? ? ? [] ? ? ? ?].
    - injection H1 as <-. split; [done|].
      destruct (m !! j) as [ej|]; [|done]. simpl. f_equal.
      by destruct ej as [? ? ? [] ? ? ? ?]. }
  set (m2 := <[k:=set_prev None n]> m1).
  assert (writeEntry (set_prev None) k m1 = Some m2) as H2.
  { unfold writeEntry. by rewrite Hk1. }
  rewrite H2 in H. simpl in H.
  assert (m2 !! k = Some (set_prev None n)) as Hk2 by apply lookup_insert_eq.
  rewrite Hk2 in H. simpl in H.
  assert (m2 !! j = m1 !! j) as Hj2 by (by apply lookup_insert_ne).
  destruct (match next (lruNode n) with
            | Some x => writeEntry (set_prev None) x m2
            | None => Some m2 end) as [m3|] eqn:H3; [|done].
  simpl in H.
  apply writeEntry_lookup in H as (e3&He3&->).
  rewrite lookup_insert_ne by done.
  destruct (next (lruNode n)) as [x|] eqn:Hx.
  - apply writeEntry_lookup in H3 as (ex&Hex&->).
    destruct (decide (x = j)) as [->|Hne].
    + rewrite lookup_insert_eq. rewrite Hj2, Hj1 in Hex.
      destruct (m !! j) as [ej|]; [|discriminate Hex]. simpl in *.
      injection Hex as <-.
      unfold unlinkedNeighbour. rewrite Hx.
      by rewrite (decide_True (P := Some j = Some j)) by done.
    + rewrite lookup_insert_ne by done. rewrite Hj2, Hj1.
      destruct (m !! j) as [ej|]; [|done]. simpl. f_equal.
      unfold unlinkedNeighbour. rewrite Hx.
      rewrite (decide_False (P := Some x = Some j)) by congruence.
      case_decide; by destruct ej as [? ? ? [] ? ? ? ?].
  - injection H3 as <-. rewrite Hj2, Hj1.
    destruct (m !! j) as [ej|]; [|done]. simpl. f_equal.
    unfold unlinkedNeighbour. rewrite Hx.
    rewrite (decide_False (P := None = Some j)) by done.
    case_decide; by destruct ej as [? ? ? [] ? ? ? ?].
Qed.

Lemma unlinkAndErase_lookup k b b' e j :
  entriesMap b !! k = Some e →
  prev (lruNode e) ≠ Some k → next (lruNode e) ≠ Some k →
  unlinkAndErase k b = Some b' → j ≠ k →
  entriesMap b' !! j = unlinkedNeighbour (lruNode e) j <$> entriesMap b !! j.
Proof.
  intros He Hp Hx H Hj. unfold unlinkAndErase in H. rewrite He in H.
  simpl in H.
  destruct (disconnectLinkedListNode k _) as [m|] eqn:Hm; [|done].
  injection H as <-. simpl. rewrite lookup_delete_ne by done.
  erewrite disconnectLinkedListNode_lookup; [|apply lookup_insert_eq|..|exact Hm|done];
    [|done|done].
  by rewrite lookup_insert_ne.
Qed.

Lemma deallocateCacheEntryImpl_lookup bi k c c' b e :
  getBucket c bi = Some b → entriesMap b !! k = Some e →
  prev (lruNode e) ≠ Some k → next (lruNode e) ≠ Some k →
  deallocateCacheEntryImpl bi k c = Some c' →
  ∃ b', getBucket c' bi = Some b' ∧
        ∀ j, j ≠ k →
             entriesMap b' !! j
             = unlinkedNeighbour (lruNode e) j <$> entriesMap b !! j.
Proof.
  intros Hb He Hp Hx H. unfold deallocateCacheEntryImpl in H.
  rewrite Hb in H. simpl in H. rewrite He in H. simpl in H.
  set (b1 := set_bucket_size (sizeAfterDeallocate e (bucket_size b)) b) in H.
  destruct (freeTilesLoop (tileIndices e) (setBucket bi b1 c)) as [c2|] eqn:H2;
    [|done]. simpl in H.
  destruct (getBucket c2 bi) as [b2|] eqn:Hb2; [|done]. simpl in H.
  destruct (unlinkAndErase k b2) as [b3|] eqn:H3; [|done]. simpl in H.
  injection H as <-.
  pose proof (freeTilesLoop_frame _ _ _ H2) as [Hlen Hframe].
  destruct (Hframe bi b1) as (b2'&Hb2'&Hs12).
  { apply getBucket_setBucket_eq. by eapply getBucket_Some_lt. }
  rewrite Hb2 in Hb2'. injection Hb2' as <-.
  destruct Hs12 as (_&_&_&_&_&Hm&_). simpl in Hm.
  exists b3. split.
  { apply getBucket_setBucket_eq. by eapply getBucket_Some_lt. }
  intros j Hj. rewrite <- Hm.
  eapply unlinkAndErase_lookup; eauto; by rewrite Hm.
Qed.

Lemma unlinkedNeighbour_no_link k n m j ej :
  prev n ≠ Some k → next n ≠ Some k →
  linkedOnlyByNeighbours k n m → m !! j = Some ej →
  prev (lruNode (unlinkedNeighbour n j ej)) ≠ Some k ∧
  next (lruNode (unlinkedNeighbour n j ej)) ≠ Some k.
Proof.
  intros Hp Hx Hl Hj. destruct (Hl j ej Hj) as [Hnx Hpv].
  unfold unlinkedNeighbour. simpl. split.
  - case_decide; [done|]. intros Hk. by apply Hpv in Hk.
  - case_decide; [done|]. intros Hk. by apply Hnx in Hk.
Qed.

Lemma set_bucketState_Ok_id b :
  bucketState b = eBucketStateOk →
  set_bucketState eBucketStateOk (set_bucketState eBucketStateInconsistent b) = b.
Proof. intros <-. by destruct b. Qed.

Lemma setBucket_setBucket i b b' c :
  setBucket i b (setBucket i b' c) = setBucket i b c.
Proof. unfold setBucket, set_buckets. simpl. by rewrite list_insert_insert_eq. Qed.

(** C7.  A locker destroyed in Cached status leaves the cache as it is.  A
    locker destroyed in MustCompute status, its bucket being in state Ok:
    when no entry is stored under its hash the cache is left as it is;
    otherwise the entry is deallocated, that is, its key is erased from the
    index together with its header, every other header stays (its links
    adjusted where the dropped node was its neighbour), neither end pointer
    of the LRU list refers to the dropped node any more, no remaining header
    links to it when the list was consistently linked around it, and each of
    its tiles is in the free set of bucket [tileIndex % 256]. *)
Theorem destroyLocker_rolls_back (lk : CacheEntryLockerPrivate)
    (c : CachePrivate) :
  let k := lockerHash lk in
  (lockerStatus lk = eCacheEntryStatusCached → destroyLocker lk c = Some c) ∧
  (∀ bi b,
     lockerStatus lk = eCacheEntryStatusMustCompute →
     bucket lk = Some bi → getBucket c bi = Some b →
     bucketState b = eBucketStateOk →
     (entriesMap b !! k = None → destroyLocker lk c = Some c) ∧
     (∀ e,
        entriesMap b !! k = Some e →
        length (buckets c) = 256%nat →
        (∀ p, prev (lruNode e) = Some p →
              p ≠ k ∧ is_Some (entriesMap b !! p)) →
        (∀ x, next (lruNode e) = Some x →
              x ≠ k ∧ is_Some (entriesMap b !! x)) →
        ∃ c' b',
          destroyLocker lk c = Some c' ∧ getBucket c' bi = Some b' ∧
          entriesMap b' !! k = None ∧
          (∀ j, j ≠ k →
                entriesMap b' !! j
                = unlinkedNeighbour (lruNode e) j <$> entriesMap b !! j) ∧
          lruListFront b' ≠ Some k ∧ lruListBack b' ≠ Some k ∧
          (linkedOnlyByNeighbours k (lruNode e) (entriesMap b) →
           ∀ j ej, entriesMap b' !! j = Some ej →
                   prev (lruNode ej) ≠ Some k ∧ next (lruNode ej) ≠ Some k) ∧
          (∀ t, t ∈ tileIndices e →
                ∃ tb, getBucket c'
                        (Z.to_nat (fst (getTileIndex t)
                                   mod NATRON_NUM_TILES_PER_BUCKET_FILE))
                      = Some tb ∧ t ∈ freeTiles tb) ∧
          bucketState b' = eBucketStateOk)).
Proof.
  intros k. split.
  { intros Hst. unfold destroyLocker. by rewrite Hst. }
  intros bi b Hst Hbi Hb Hok.
  pose proof (getBucket_Some_lt _ _ _ Hb) as Hlt.
  set (b1 := set_bucketState eBucketStateInconsistent b).
  assert (getBucket (setBucket bi b1 c) bi = Some b1) as Hb1
    by (by apply getBucket_setBucket_eq).
  split.
  - intros Hnone. unfold destroyLocker, BucketStateHandler_RAII.
    rewrite Hst, Hbi. simpl. rewrite Hb. simpl.
    rewrite decide_True by done. fold b1. rewrite Hb1. simpl.
    unfold tryCacheLookupImpl. fold k. simpl. rewrite Hnone. simpl.
    rewrite Hb1. simpl. rewrite setBucket_setBucket.
    unfold b1. rewrite set_bucketState_Ok_id by done.
    by rewrite setBucket_id.
  - intros e He Hlen Hprev Hnext.
    assert (prev (lruNode e) ≠ Some k) as Hpk.
    { intros Hp. by destruct (Hprev _ Hp). }
    assert (next (lruNode e) ≠ Some k) as Hxk.
    { intros Hx. by destruct (Hnext _ Hx). }
    destruct (deallocateCacheEntryImpl_total bi k (setBucket bi b1 c) b1 e)
      as [c2 Hd]; try done.
    { by rewrite length_setBucket. }
    { intros p Hp. by destruct (Hprev _ Hp). }
    { intros x Hx. by destruct (Hnext _ Hx). }
    destruct (deallocateCacheEntryImpl_lookup _ _ _ _ b1 e Hb1 He Hpk Hxk Hd)
      as (b2&Hb2&Hlookup).
    destruct (deallocateCacheEntryImpl_spec _ _ _ _ Hd)
      as (b0&e0&b2'&Hb0&He0&Hb2'&Hlen2&_&_&_&Hk&_&Hback&Hfront&_&Hst2&_&_&
          Hothers&Htiles).
    rewrite Hb1 in Hb0. injection Hb0 as <-.
    simpl in He0. rewrite He in He0. injection He0 as <-.
    rewrite Hb2 in Hb2'. injection Hb2' as <-.
    assert (bi < length (buckets c2))%nat as Hlt2
      by (by rewrite Hlen2, length_setBucket).
    exists (setBucket bi (set_bucketState eBucketStateOk b2) c2),
           (set_bucketState eBucketStateOk b2).
    split.
    { unfold destroyLocker, BucketStateHandler_RAII.
      rewrite Hst, Hbi. simpl. rewrite Hb. simpl.
      rewrite decide_True by done. fold b1. rewrite Hb1. simpl.
      unfold tryCacheLookupImpl. fold k. simpl. rewrite He. simpl.
      rewrite Hd. simpl. by rewrite Hb2. }
    split. { by apply getBucket_setBucket_eq. }
    split; [done|]. split; [done|].
    split.
    { simpl. rewrite Hfront. simpl.
      by destruct (decide (lruListFront b = Some k)). }
    split.
    { simpl. rewrite Hback. simpl.
      by destruct (decide (lruListBack b = Some k)). }
    split.
    { intros Hcons j ej Hj. simpl in Hj.
      destruct (decide (j = k)) as [->|Hne]; [congruence|].
      rewrite Hlookup in Hj by done. simpl in Hj.
      destruct (entriesMap b !! j) as [ej0|] eqn:Hj0; [|done].
      injection Hj as <-.
      by eapply unlinkedNeighbour_no_link. }
    split; [|done].
    intros t Ht. destruct (Htiles t Ht) as (tb&Htb&Hel). revert Htb.
    generalize (Z.to_nat (fst (getTileIndex t)
                          mod NATRON_NUM_TILES_PER_BUCKET_FILE)).
    intros i Htb. destruct (decide (bi = i)) as [->|Hne].
    + rewrite getBucket_setBucket_eq by done. eexists. split; [done|].
      simpl. congruence.
    + rewrite getBucket_setBucket_ne by done. eauto.
Qed.

(** ** Size accounting *)

Lemma wrap64_idemp a : wrap64 (wrap64 a) = wrap64 a.
Proof. unfold wrap64. apply Zmod_mod. Qed.

Lemma U64_sub_wrap_l a b : U64_sub (wrap64 a) b = wrap64 (a - b).
Proof. unfold U64_sub, wrap64. apply Zminus_mod_idemp_l. Qed.

Lemma U64_sub_wrap_r a b : U64_sub a (wrap64 b) = wrap64 (a - b).
Proof. unfold U64_sub, wrap64. apply Zminus_mod_idemp_r. Qed.

Lemma U64_add_wrap_l a b : U64_add (wrap64 a) b = wrap64 (a + b).
Proof. unfold U64_add, wrap64. apply Zplus_mod_idemp_l. Qed.

Lemma U64_add_wrap_r a b : U64_add a (wrap64 b) = wrap64 (a + b).
Proof. unfold U64_add, wrap64. apply Zplus_mod_idemp_r. Qed.

Lemma sumValues_insert k z (m : gmap Z Z) :
  m !! k = None → sumValues (<[k := z]> m) = sumValues m + z.
Proof.
  intros Hk. unfold sumValues.
  rewrite map_fold_insert_L; [done| |done]. intros. lia.
Qed.

Lemma sumValues_delete k z (m : gmap Z Z) :
  m !! k = Some z → sumValues m = sumValues (delete k m) + z.
Proof.
  intros Hk. rewrite <- (insert_delete_id m k z) at 1 by done.
  apply sumValues_insert, lookup_delete_eq.
Qed.

Lemma billedSum_insert_None k e m :
  m !! k = None → billedSum (<[k := e]> m) = billedSum m + billed e.
Proof.
  intros Hk. unfold billedSum. rewrite fmap_insert.
  apply sumValues_insert. by rewrite lookup_fmap, Hk.
Qed.

Lemma billedSum_delete k e m :
  m !! k = Some e → billedSum (delete k m) = billedSum m - billed e.
Proof.
  intros Hk. unfold billedSum. rewrite fmap_delete.
  rewrite (sumValues_delete k (billed e) (billed <$> m)); [lia|].
  by rewrite lookup_fmap, Hk.
Qed.

Lemma billedSum_insert_Some k e e' m :
  m !! k = Some e →
  billedSum (<[k := e']> m) = billedSum m - billed e + billed e'.
Proof.
  intros Hk. rewrite <- (insert_delete_eq m k e').
  rewrite billedSum_insert_None by apply lookup_delete_eq.
  by rewrite (billedSum_delete k e).
Qed.

Lemma sameButNode_billed e e' : sameButNode e e' → billed e' = billed e.
Proof. intros (Hs&Hst&_&Ht&_). unfold billed. by rewrite Hs, Hst, Ht. Qed.

Lemma billedSum_sameButNode m m' :
  mapsSameButNode m m' → billedSum m' = billedSum m.
Proof.
  intros H. unfold billedSum. f_equal. apply map_eq. intros j.
  rewrite !lookup_fmap. specialize (H j).
  destruct (m !! j) as [e|], (m' !! j) as [e'|]; try done.
  simpl. f_equal. by apply sameButNode_billed.
Qed.

Lemma sizeAccounted_sameSizeAndIndex b b' :
  sameSizeAndIndex b b' → sizeAccounted b → sizeAccounted b'.
Proof. intros [Hs Hm]. unfold sizeAccounted. by rewrite Hs, Hm. Qed.

Lemma sameButFreeTiles_sameSizeAndIndex b b' :
  sameButFreeTiles b b' → sameSizeAndIndex b b'.
Proof. by intros (_&_&_&_&?&?&_). Qed.

Lemma cacheAccounted_setBucket i b c :
  cacheAccounted c → sizeAccounted b → cacheAccounted (setBucket i b c).
Proof.
  intros Hc Hb j bj Hj. destruct (decide (i = j)) as [->|Hne].
  - pose proof (getBucket_Some_lt _ _ _ Hj) as Hlt.
    rewrite length_setBucket in Hlt.
    rewrite getBucket_setBucket_eq in Hj by done. by injection Hj as <-.
  - rewrite getBucket_setBucket_ne in Hj by done. by eapply Hc.
Qed.

Lemma sizeAccounted_set_bucketState s b :
  sizeAccounted b → sizeAccounted (set_bucketState s b).
Proof. done. Qed.

Lemma sizeAfterDeallocate_Ready e s :
  status e = eEntryStatusReady →
  sizeAfterDeallocate e (wrap64 s) = wrap64 (s - billed e).
Proof.
  intros Hst. unfold sizeAfterDeallocate, billed. rewrite decide_True by done.
  destruct (tileIndices e) as [|t ts] eqn:Ht.
  - rewrite U64_sub_wrap_l. f_equal. simpl. lia.
  - rewrite U64_sub_wrap_l. unfold U64_mul. rewrite U64_sub_wrap_r.
    change (wrap64 (wrap64 (s - entry_size e)
                    - Z.of_nat (length (t :: ts)) * NATRON_TILE_SIZE_BYTES))
      with (U64_sub (wrap64 (s - entry_size e))
                    (Z.of_nat (length (t :: ts)) * NATRON_TILE_SIZE_BYTES)).
    rewrite U64_sub_wrap_l. f_equal. lia.
Qed.

Lemma deallocateCacheEntryImpl_accounted bi k c c' b e :
  cacheAccounted c →
  getBucket c bi = Some b → entriesMap b !! k = Some e →
  status e = eEntryStatusReady →
  deallocateCacheEntryImpl bi k c = Some c' →
  cacheAccounted c' ∧
  ∃ b', getBucket c' bi = Some b' ∧
        bucket_size b' = wrap64 (bucket_size b - billed e).
Proof.
  intros Hc Hb He Hst Hd.
  destruct (deallocateCacheEntryImpl_spec _ _ _ _ Hd)
    as (b0&e0&b'&Hb0&He0&Hb'&Hlen&_&_&_&Hk&Hnode&_&_&_&_&Hsz&_&Hothers&_).
  rewrite Hb in Hb0. injection Hb0 as <-.
  rewrite He in He0. injection He0 as <-.
  pose proof (Hc _ _ Hb) as Hacc. unfold sizeAccounted in Hacc.
  assert (bucket_size b' = wrap64 (billedSum (entriesMap b) - billed e)) as Hsz'.
  { rewrite Hsz, Hacc. by apply sizeAfterDeallocate_Ready. }
  split.
  - intros j bj Hj. destruct (decide (j = bi)) as [->|Hne].
    + rewrite Hb' in Hj. injection Hj as <-. unfold sizeAccounted.
      rewrite Hsz'. f_equal.
      rewrite (billedSum_sameButNode _ _ Hnode).
      symmetry. by apply billedSum_delete.
    + destruct (getBucket_lt_Some c j) as [b0 Hb0].
      { rewrite <- Hlen. by eapply getBucket_Some_lt. }
      destruct (Hothers j b0 Hne Hb0) as (b0'&Hb0'&Hs).
      rewrite Hj in Hb0'. injection Hb0' as <-.
      eapply sizeAccounted_sameSizeAndIndex;
        [by apply sameButFreeTiles_sameSizeAndIndex|by eapply Hc].
  - exists b'. split; [done|]. rewrite Hsz'. unfold wrap64.
    rewrite Hacc. unfold wrap64. by rewrite Zminus_mod_idemp_l.
Qed.

Lemma touchLRU_spec k b b' :
  touchLRU k b = Some b' →
  mapsSameButNode (entriesMap b) (entriesMap b') ∧
  bucket_size b' = bucket_size b ∧ bucketState b' = bucketState b ∧
  freeTiles b' = freeTiles b ∧ version b' = version b.
Proof.
  unfold touchLRU. intros H. case_decide.
  - injection H as <-. split; [apply mapsSameButNode_refl|done].
  - destruct (disconnectLinkedListNode k (entriesMap b)) as [m1|] eqn:H1;
      [|done]. simpl in H.
    destruct (insertLinkedListNode k (lruListBack b) None m1) as [m2|] eqn:H2;
      [|done]. simpl in H. injection H as <-. simpl.
    apply disconnectLinkedListNode_node in H1.
    apply insertLinkedListNode_node in H2.
    split; [by eapply mapsSameButNode_trans|done].
Qed.

Lemma readFromSharedMemoryEntryImpl_spec ple k w b rc b' :
  readFromSharedMemoryEntryImpl ple k w b = Some (rc, b') →
  mapsSameButNode (entriesMap b) (entriesMap b') ∧
  bucket_size b' = bucket_size b ∧ bucketState b' = bucketState b ∧
  freeTiles b' = freeTiles b ∧ version b' = version b.
Proof.
  unfold readFromSharedMemoryEntryImpl. intros H.
  destruct (entriesMap b !! k) as [e|]; [|done]. simpl in H.
  case_decide.
  - destruct (touchLRU k b) as [b1|] eqn:Ht; [|done]. simpl in H.
    injection H as <- <-. by apply (touchLRU_spec k).
  - injection H as <- <-. split; [apply mapsSameButNode_refl|done].
Qed.

Lemma sizeAccounted_sameButNode b b' :
  mapsSameButNode (entriesMap b) (entriesMap b') →
  bucket_size b' = bucket_size b →
  sizeAccounted b → sizeAccounted b'.
Proof.
  intros Hm Hs. unfold sizeAccounted. rewrite Hs.
  by rewrite (billedSum_sameButNode _ _ Hm).
Qed.

Lemma lookupAndSetStatusInternal_accounted thread w r ts to lk c st lk' c' :
  cacheAccounted c →
  lookupAndSetStatusInternal thread w r ts to lk c = Some (st, lk', c') →
  cacheAccounted c'.
Proof.
  intros Hc H. unfold lookupAndSetStatusInternal in H.
  destruct (bucket (set_lockerStatus eCacheEntryStatusMustCompute lk))
    as [bi|]; [|done]. simpl in H.
  destruct (getBucket c bi) as [b|] eqn:Hb; [|done]. simpl in H.
  unfold tryCacheLookupImpl in H. simpl in H.
  destruct (entriesMap b !! lockerHash lk) as [found|] eqn:Hfound;
    [|by injection H as <- <- <-].
  destruct (bool_decide (status found = eEntryStatusNull) && negb w);
    [by injection H as <- <- <-|].
  destruct (bool_decide (status found = eEntryStatusPending) && _ && _);
    [by injection H as <- <- <-|].
  destruct (bool_decide (status found = eEntryStatusPending) && negb w);
    [by injection H as <- <- <-|].
  pose proof (Hc _ _ Hb) as Hacc.
  case_bool_decide as Hst.
  - destruct (readFromSharedMemoryEntryImpl _ _ _ _) as [[rs b']|] eqn:Hread;
      [|done]. simpl in H.
    pose proof (readFromSharedMemoryEntryImpl_spec _ _ _ _ _ _ Hread)
      as (Hnode&Hsz&_).
    assert (cacheAccounted (setBucket bi b' c)) as Hc1.
    { apply cacheAccounted_setBucket; [done|].
      by eapply sizeAccounted_sameButNode. }
    assert (∀ c'', deallocateCacheEntryImpl bi (lockerHash lk)
                     (setBucket bi b' c) = Some c'' → cacheAccounted c'')
      as Hdealloc.
    { intros c'' Hd.
      destruct (mapsSameButNode_Some _ _ _ _ Hnode Hfound) as (e'&He'&Hs).
      eapply (deallocateCacheEntryImpl_accounted bi (lockerHash lk)
                (setBucket bi b' c) c'' b' e'); try done.
      - apply getBucket_setBucket_eq. by eapply getBucket_Some_lt.
      - destruct Hs as (_&->&_). done. }
    destruct rs.
    + destruct (copyProcessLocalEntryFromEntry _ _); [|done].
      by injection H as <- <- <-.
    + destruct w.
      * destruct (deallocateCacheEntryImpl _ _ _) as [c''|] eqn:Hd; [|done].
        injection H as <- <- <-. by apply Hdealloc.
      * by injection H as <- <- <-.
    + destruct (r && w).
      * destruct (deallocateCacheEntryImpl _ _ _) as [c''|] eqn:Hd; [|done].
        injection H as <- <- <-. by apply Hdealloc.
      * by injection H as <- <- <-.
    + by injection H as <- <- <-.
  - injection H as <- <- <-.
    apply cacheAccounted_setBucket; [done|].
    unfold sizeAccounted. simpl.
    rewrite (billedSum_insert_Some _ found) by done.
    rewrite Hacc. f_equal. unfold billed. simpl.
    rewrite !decide_False by done. lia.
Qed.

Lemma billedSum_empty : billedSum ∅ = 0.
Proof. unfold billedSum, sumValues. by rewrite fmap_empty, map_fold_empty. Qed.

Lemma sizeAccounted_newBucket : sizeAccounted newBucket.
Proof. unfold sizeAccounted. simpl. by rewrite billedSum_empty. Qed.

Lemma createTileStorage_buckets c i b' :
  getBucket (createTileStorage c) i = Some b' →
  ∃ b, getBucket c i = Some b ∧ sameSizeAndIndex b b' ∧
       bucketState b' = bucketState b ∧
       lruListFront b' = lruListFront b ∧ lruListBack b' = lruListBack b.
Proof.
  unfold createTileStorage, getBucket.
  destruct (useTileStorage c); simpl.
  - rewrite list_lookup_imap. destruct (buckets c !! i) as [b|]; [|done].
    simpl. intros [= <-]. exists b. done.
  - intros H. exists b'. done.
Qed.

Lemma length_createTileStorage c :
  length (buckets (createTileStorage c)) = length (buckets c).
Proof.
  unfold createTileStorage. destruct (useTileStorage c); [|done].
  simpl. apply length_imap.
Qed.

Lemma createTileStorage_accounted c :
  cacheAccounted c → cacheAccounted (createTileStorage c).
Proof.
  intros Hc i b' Hi.
  destruct (createTileStorage_buckets _ _ _ Hi) as (b&Hb&Hs&_).
  eapply sizeAccounted_sameSizeAndIndex; [done|]. by eapply Hc.
Qed.

Lemma clear_accounted c : cacheAccounted (clear c).
Proof.
  unfold clear. apply createTileStorage_accounted.
  intros i b. unfold getBucket. simpl. rewrite list_lookup_fmap.
  destruct (buckets c !! i); [|done]. simpl. intros [= <-].
  apply sizeAccounted_newBucket.
Qed.

Lemma BucketStateHandler_RAII_accounted {A} bi c
    (scope : CachePrivate → option (A * CachePrivate)) r :
  cacheAccounted c →
  (∀ c1 a c2, cacheAccounted c1 → scope c1 = Some (a, c2) → cacheAccounted c2) →
  BucketStateHandler_RAII bi c scope = Some r →
  match r with
  | Normal (_, c') => cacheAccounted c'
  | Thrown c' => cacheAccounted c'
  end.
Proof.
  intros Hc Hscope. unfold BucketStateHandler_RAII.
  destruct (getBucket c bi) as [b|] eqn:Hb; [|done]. simpl.
  case_decide; [|by intros [= <-]].
  destruct (scope _) as [[a c2]|] eqn:Hs; [|done]. simpl.
  destruct (getBucket c2 bi) as [b2|] eqn:Hb2; [|done]. simpl.
  intros [= <-].
  assert (cacheAccounted c2) as Hc2.
  { eapply Hscope; [|exact Hs]. apply cacheAccounted_setBucket; [done|].
    apply sizeAccounted_set_bucketState. by eapply Hc. }
  apply cacheAccounted_setBucket; [done|].
  apply sizeAccounted_set_bucketState. by eapply Hc2.
Qed.

Lemma constructEntry_accounted thread lk b :
  sizeAccounted b → sizeAccounted (constructEntry thread lk b).
Proof.
  intros Hb. unfold constructEntry.
  destruct (entriesMap b !! lockerHash lk) eqn:Hk; [done|].
  unfold sizeAccounted. simpl. rewrite billedSum_insert_None by done.
  rewrite Hb. f_equal. unfold billed, copyProcessLocalEntryToEntry.
  destruct persistent; simpl; lia.
Qed.

Lemma lookupAndCreate_accounted thread ts to lk c r :
  cacheAccounted c →
  lookupAndCreate thread ts to lk c = Some r →
  match r with
  | Normal (_, c') => cacheAccounted c'
  | Thrown c' => cacheAccounted c'
  end.
Proof.
  intros Hc H. unfold lookupAndCreate in H.
  destruct (lookupAndSetStatusInternal thread true false ts to lk c)
    as [[[stat0 lk1] c1]|] eqn:H0; [|done]. simpl in H.
  apply lookupAndSetStatusInternal_accounted in H0; [|done].
  destruct (match stat0 with
            | eLookUpRetCodeOutOfMemory =>
              lookupAndSetStatusInternal thread true true ts to lk1 c1
            | _ => Some (stat0, lk1, c1)
            end) as [[[stat lk2] c2]|] eqn:H1; [|done]. simpl in H.
  assert (cacheAccounted c2) as Hc2.
  { destruct stat0; simplify_eq; try done.
    by eapply lookupAndSetStatusInternal_accounted. }
  assert (∀ bi, BucketStateHandler_RAII bi c2
            (λ c', b ← getBucket c' bi;
                   Some (lk2, setBucket bi (constructEntry thread lk2 b) c'))
          = Some r →
          match r with
          | Normal (_, c') => cacheAccounted c'
          | Thrown c' => cacheAccounted c'
          end) as Hcreate.
  { intros bi. apply BucketStateHandler_RAII_accounted; [done|].
    intros c3 a c4 Hc3 Hs.
    destruct (getBucket c3 bi) as [b|] eqn:Hb; [|done]. simpl in Hs.
    injection Hs as <- <-. apply cacheAccounted_setBucket; [done|].
    apply constructEntry_accounted. by eapply Hc3. }
  destruct stat.
  - by injection H as <-.
  - destruct (bucket lk2); [|done]. by apply (Hcreate n).
  - destruct (bucket lk2); [|done]. by apply (Hcreate n).
Qed.

Lemma lookupAndSetStatus_accounted thread ts to lk c lk' c' :
  cacheAccounted c →
  lookupAndSetStatus thread ts to lk c = Some (lk', c') →
  cacheAccounted c'.
Proof.
  intros Hc H. unfold lookupAndSetStatus in H.
  destruct (lookupAndSetStatusInternal _ _ _ _ _ _ _)
    as [[[stat lk1] c1]|] eqn:H0; [|done]. simpl in H.
  apply lookupAndSetStatusInternal_accounted in H0; [|done].
  assert (∀ r, lookupAndCreate thread ts to lk1 c1 = Some r →
               match r with
               | Normal (lk2, c2) => Some (lk2, c2)
               | Thrown c2 =>
                 Some (set_lockerStatus eCacheEntryStatusMustCompute lk1,
                       recoverFromInconsistentState c2)
               end = Some (lk', c') → cacheAccounted c') as Hcreate.
  { intros r Hr Hres. pose proof (lookupAndCreate_accounted _ _ _ _ _ _ H0 Hr).
    destruct r as [[lk2 c2]|c2]; injection Hres as <- <-; [done|].
    apply clear_accounted. }
  destruct stat.
  - by injection H as <- <-.
  - destruct (lookupAndCreate thread ts to lk1 c1) as [r|] eqn:Hr; [|done].
    by eapply Hcreate.
  - destruct (lookupAndCreate thread ts to lk1 c1) as [r|] eqn:Hr; [|done].
    by eapply Hcreate.
Qed.

Lemma insertInternalScope_accounted lk bi c b rc lk' c' :
  cacheAccounted c →
  getBucket c bi = Some b →
  (∀ e, entriesMap b !! lockerHash lk = Some e →
        status e = eEntryStatusReady → computeThreadMagic e = 0) →
  insertInternalScope lk bi c = Some (rc, lk', c') →
  cacheAccounted c' ∧
  (∀ e, entriesMap b !! lockerHash lk = Some e →
        computeThreadMagic e ≠ 0 → rc = eInsertRetCodeCreated →
        ∃ b', getBucket c' bi = Some b' ∧
              bucket_size b' = U64_add (bucket_size b) (entry_size e)).
Proof.
  intros Hc Hb Hinv H. unfold insertInternalScope in H.
  rewrite Hb in H. simpl in H. unfold tryCacheLookupImpl in H.
  pose proof (getBucket_Some_lt _ _ _ Hb) as Hlt.
  pose proof (Hc _ _ Hb) as Hacc. unfold sizeAccounted in Hacc.
  destruct (entriesMap b !! lockerHash lk) as [e|] eqn:He.
  2:{ injection H as <- <- <-. split; [done|]. intros e He'. done. }
  destruct (Z.eqb_spec (computeThreadMagic e) 0) as [Hz|Hnz].
  { injection H as <- <- <-. split; [done|]. intros e' [= <-]. done. }
  assert (status e ≠ eEntryStatusReady) as Hnr.
  { intros Hr. apply Hnz. by apply Hinv. }
  destruct (serializeCacheEntry lk e) as [retCode e1] eqn:Hser.
  assert (entry_size e1 = entry_size e ∧ status e1 = status e ∧
          tileIndices e1 = tileIndices e) as (Hsz1&Hst1&Ht1).
  { unfold serializeCacheEntry in Hser. destruct persistent.
    - by destruct (toMemorySegment _ _); injection Hser as <- <-.
    - by injection Hser as <- <-. }
  assert (billed e1 = billed e) as Hbil1.
  { unfold billed. by rewrite Hsz1, Hst1, Ht1. }
  set (b1 := set_entriesMap (<[lockerHash lk := e1]> (entriesMap b)) b) in H.
  assert (billedSum (entriesMap b1) = billedSum (entriesMap b)) as Hsum1.
  { simpl. rewrite (billedSum_insert_Some _ e) by done. lia. }
  case_decide as Hrc.
  - set (b2 := set_bucket_size _ b1) in H.
    destruct (pushBackLRU (lockerHash lk) b2) as [b3|] eqn:Hpush; [|done].
    simpl in H.
    destruct (writeEntry _ (lockerHash lk) (entriesMap b3)) as [m4|] eqn:Hw;
      [|done].
    simpl in H. injection H as <- <- <-.
    apply writeEntry_lookup in Hw as (e3&He3&->).
    apply pushBackLRU_spec in Hpush as (Hnode&_&_&_&Hsz3&_).
    destruct (mapsSameButNode_Some _ _ (lockerHash lk) e1 Hnode)
      as (e3'&He3'&Hsame); [apply lookup_insert_eq|].
    rewrite He3 in He3'. injection He3' as <-.
    assert (bucket_size b3 = U64_add (bucket_size b) (entry_size e)) as Hsize.
    { rewrite Hsz3. simpl. by rewrite Hsz1. }
    split.
    + apply cacheAccounted_setBucket; [done|].
      unfold sizeAccounted. simpl. rewrite Hsize.
      rewrite (billedSum_insert_Some _ e3) by done.
      rewrite (billedSum_sameButNode _ _ Hnode). change (entriesMap b2) with (entriesMap b1).
      rewrite Hsum1, Hacc, U64_add_wrap_l. f_equal.
      destruct Hsame as (Hs3&Hst3&_&Ht3&_).
      unfold billed. simpl. rewrite Hs3, Hst3, Ht3, Hsz1, Hst1, Ht1.
      rewrite decide_False by done. lia.
    + intros e' [= <-] _ _. eexists. split.
      { by apply getBucket_setBucket_eq. }
      done.
  - injection H as <- <- <-. split.
    + apply cacheAccounted_setBucket; [done|].
      unfold sizeAccounted. by rewrite Hsum1.
    + intros e' _ _ Hcr. done.
Qed.

Lemma insertInternal_accounted lk c bi b r :
  cacheAccounted c →
  bucket lk = Some bi → getBucket c bi = Some b →
  (∀ e, entriesMap b !! lockerHash lk = Some e →
        status e = eEntryStatusReady → computeThreadMagic e = 0) →
  insertInternal lk c = Some r →
  match r with
  | Normal (rc, _, c') =>
    cacheAccounted c' ∧
    (∀ e, entriesMap b !! lockerHash lk = Some e →
          computeThreadMagic e ≠ 0 → rc = eInsertRetCodeCreated →
          ∃ b', getBucket c' bi = Some b' ∧
                bucket_size b' = U64_add (bucket_size b) (entry_size e))
  | Thrown c' => cacheAccounted c'
  end.
Proof.
  intros Hc Hbi Hb Hinv H. unfold insertInternal in H. rewrite Hbi in H.
  simpl in H.
  pose proof (getBucket_Some_lt _ _ _ Hb) as Hlt.
  destruct (decide (bucketState b = eBucketStateOk)) as [Hok|Hnok].
  - destruct (BucketStateHandler_RAII_ok _ _ _ _ _ Hb Hok H)
      as ([rc lk2] & c2 & b2 & Hscope & Hb2 & ->).
    set (b1 := set_bucketState eBucketStateInconsistent b) in *.
    destruct (insertInternalScope lk bi (setBucket bi b1 c))
      as [[[rc' lk''] c'']|] eqn:Hs; [|done].
    simpl in Hscope. injection Hscope as -> -> ->.
    destruct (insertInternalScope_accounted lk bi (setBucket bi b1 c) b1
                rc lk2 c2) as [Hc2 Hdelta]; try done.
    { apply cacheAccounted_setBucket; [done|].
      apply sizeAccounted_set_bucketState. by eapply Hc. }
    { by apply getBucket_setBucket_eq. }
    split.
    + apply cacheAccounted_setBucket; [done|].
      apply sizeAccounted_set_bucketState. by eapply Hc2.
    + intros e He Hm Hrc. destruct (Hdelta e He Hm Hrc) as (b'&Hb'&Hsz).
      rewrite Hb2 in Hb'. injection Hb' as <-.
      exists (set_bucketState eBucketStateOk b2). split; [|done].
      apply getBucket_setBucket_eq. by eapply getBucket_Some_lt.
  - rewrite (BucketStateHandler_RAII_thrown _ _ _ b) in H by done.
    by injection H as <-.
Qed.

Lemma removeEntry_accounted en c c' b :
  let k := getHashKey en in
  let bi := Z.to_nat (getBucketCacheBucketIndex k) in
  cacheAccounted c →
  getBucket c bi = Some b →
  (∀ e, entriesMap b !! k = Some e → status e = eEntryStatusReady) →
  removeEntry (Some en) c = Some c' →
  cacheAccounted c' ∧
  (bucketState b = eBucketStateOk →
   ∀ e, entriesMap b !! k = Some e →
        ∃ b', getBucket c' bi = Some b' ∧
              bucket_size b' = wrap64 (bucket_size b - billed e)).
Proof.
  intros k bi Hc Hb Hready H. unfold removeEntry in H. fold k bi in H.
  pose proof (getBucket_Some_lt _ _ _ Hb) as Hlt.
  destruct (BucketStateHandler_RAII bi c _) as [r|] eqn:Hr; [|done].
  simpl in H.
  destruct (decide (bucketState b = eBucketStateOk)) as [Hok|Hnok].
  - destruct (BucketStateHandler_RAII_ok _ _ _ _ _ Hb Hok Hr)
      as ([] & c2 & b2 & Hscope & Hb2 & ->).
    injection H as <-.
    set (b1 := set_bucketState eBucketStateInconsistent b) in *.
    assert (cacheAccounted (setBucket bi b1 c)) as Hc1.
    { apply cacheAccounted_setBucket; [done|].
      apply sizeAccounted_set_bucketState. by eapply Hc. }
    rewrite getBucket_setBucket_eq in Hscope by done. simpl in Hscope.
    unfold tryCacheLookupImpl in Hscope.
    destruct (entriesMap b1 !! k) as [e|] eqn:He.
    + destruct (deallocateCacheEntryImpl bi k (setBucket bi b1 c))
        as [c3|] eqn:Hd; [|done].
      simpl in Hscope. injection Hscope as ->.
      destruct (deallocateCacheEntryImpl_accounted bi k
                  (setBucket bi b1 c) c2 b1 e Hc1)
        as (Hc2&b'&Hb'&Hsz); try done.
      { by apply getBucket_setBucket_eq. }
      { by apply Hready. }
      rewrite Hb2 in Hb'. injection Hb' as <-.
      split.
      * apply cacheAccounted_setBucket; [done|].
        apply sizeAccounted_set_bucketState. by eapply Hc2.
      * intros _ e' He'. simpl in He. rewrite He in He'. injection He' as <-.
        exists (set_bucketState eBucketStateOk b2). split; [|done].
        apply getBucket_setBucket_eq. by eapply getBucket_Some_lt.
    + injection Hscope as <-. split.
      * apply cacheAccounted_setBucket; [done|].
        rewrite getBucket_setBucket_eq in Hb2 by done. injection Hb2 as <-.
        apply sizeAccounted_set_bucketState, sizeAccounted_set_bucketState.
        by eapply Hc.
      * intros _ e He'. simpl in He. congruence.
  - rewrite (BucketStateHandler_RAII_thrown _ _ _ b) in Hr by done.
    injection Hr as <-. injection H as <-. split; [apply clear_accounted|done].
Qed.

Lemma frameSizeAndIndex_refl c : frameSizeAndIndex c c.
Proof. split; [done|]. intros i b Hb. exists b. done. Qed.

Lemma frameSizeAndIndex_trans c1 c2 c3 :
  frameSizeAndIndex c1 c2 → frameSizeAndIndex c2 c3 → frameSizeAndIndex c1 c3.
Proof.
  intros [Hl1 H1] [Hl2 H2]. split; [congruence|].
  intros i b3 Hb3. destruct (H2 _ _ Hb3) as (b2&Hb2&[? ?]).
  destruct (H1 _ _ Hb2) as (b1&Hb1&[? ?]).
  exists b1. split; [done|]. split; congruence.
Qed.

Lemma frameSizeAndIndex_accounted c c' :
  frameSizeAndIndex c c' → cacheAccounted c → cacheAccounted c'.
Proof.
  intros [_ H] Hc i b' Hb'. destruct (H _ _ Hb') as (b&Hb&Hs).
  eapply sizeAccounted_sameSizeAndIndex; [done|]. by eapply Hc.
Qed.

Lemma frameSizeAndIndex_createTileStorage c :
  frameSizeAndIndex c (createTileStorage c).
Proof.
  split; [apply length_createTileStorage|].
  intros i b' Hb'. destruct (createTileStorage_buckets _ _ _ Hb') as (b&?&?&_).
  eauto.
Qed.

Lemma frameSizeAndIndex_set_freeTiles i b s c :
  getBucket c i = Some b →
  frameSizeAndIndex c (setBucket i (set_freeTiles s b) c).
Proof.
  intros Hb. split; [apply length_setBucket|].
  intros j b' Hj. destruct (decide (i = j)) as [->|Hne].
  - rewrite getBucket_setBucket_eq in Hj by (by eapply getBucket_Some_lt).
    injection Hj as <-. exists b. done.
  - rewrite getBucket_setBucket_ne in Hj by done. exists b'. done.
Qed.

Lemma allocateTile_frame h t c r c' :
  allocateTile h t c = Some (r, c') → frameSizeAndIndex c c'.
Proof.
  unfold allocateTile.
  generalize (Z.to_nat (getBucketIndexForTile h t)). intros bi H.
  destruct (getBucket c bi) as [tb|]; [|done]. simpl in H.
  set (c1 := if decide (freeTiles tb = ∅) then createTileStorage c else c) in H.
  assert (frameSizeAndIndex c c1) as H1.
  { unfold c1. case_decide;
      [apply frameSizeAndIndex_createTileStorage|apply frameSizeAndIndex_refl]. }
  destruct (getBucket c1 bi) as [tb1|] eqn:Htb1; [|done]. simpl in H.
  destruct (firstFreeTile (freeTiles tb1)) as [x|]; [|done]. simpl in H.
  assert (frameSizeAndIndex c1
            (setBucket bi (set_freeTiles (freeTiles tb1 ∖ {[x]}) tb1) c1)) as H2
    by (by apply frameSizeAndIndex_set_freeTiles).
  destruct (_ <? _); injection H as <- <-;
    by eapply frameSizeAndIndex_trans.
Qed.

Lemma allocateTiles_frame h ts c r c' :
  allocateTiles h ts c = Some (r, c') →
  frameSizeAndIndex c c' ∧
  ∀ l, r = Some l → length l = length ts.
Proof.
  revert c r c'. induction ts as [|t ts IH]; intros c r c' H; simpl in H.
  - injection H as <- <-. split; [apply frameSizeAndIndex_refl|].
    by intros l [= <-].
  - destruct (allocateTile h t c) as [[r1 c1]|] eqn:H1; [|done]. simpl in H.
    apply allocateTile_frame in H1.
    destruct r1 as [x|].
    + destruct (allocateTiles h ts c1) as [[rs c2]|] eqn:H2; [|done].
      simpl in H. injection H as <- <-.
      apply IH in H2 as [H2 Hlen].
      split; [by eapply frameSizeAndIndex_trans|].
      intros l Hl. destruct rs as [l0|]; [|done]. injection Hl as <-.
      simpl. f_equal. by apply Hlen.
    + injection H as <- <-. split; [done|]. done.
Qed.

Lemma freeAllocatedTiles_frame h ts als c c' :
  freeAllocatedTiles h ts als c = Some c' → frameSizeAndIndex c c'.
Proof.
  revert als c. induction ts as [|t ts IH]; intros als c H; simpl in H.
  - injection H as <-. apply frameSizeAndIndex_refl.
  - destruct als as [|a als]; [injection H as <-; apply frameSizeAndIndex_refl|].
    revert H. generalize (Z.to_nat (getBucketIndexForTile h t)). intros bi H.
    destruct (getBucket c bi) as [tb|] eqn:Htb; [|done]. simpl in H.
    apply IH in H. eapply frameSizeAndIndex_trans; [|exact H].
    by apply frameSizeAndIndex_set_freeTiles.
Qed.

Lemma retrieveAndLockTiles_accounted entry tilesToAlloc c ok allocated c' :
  cacheAccounted c →
  retrieveAndLockTiles entry tilesToAlloc c = Some (ok, allocated, c') →
  cacheAccounted c' ∧
  (ok = true → tilesToAlloc ≠ [] →
   ∀ b, getBucket c (Z.to_nat (getBucketCacheBucketIndex (getHashKey entry)))
        = Some b →
        ∃ b' e e',
          getBucket c' (Z.to_nat (getBucketCacheBucketIndex (getHashKey entry)))
            = Some b' ∧
          entriesMap b !! getHashKey entry = Some e ∧
          entriesMap b' !! getHashKey entry = Some e' ∧
          tileIndices e' = tileIndices e ++ allocated ∧
          length allocated = length tilesToAlloc ∧
          bucket_size b' =
            U64_add (bucket_size b)
                    (U64_mul (Z.of_nat (length tilesToAlloc))
                             NATRON_TILE_SIZE_BYTES)).
Proof.
  intros Hc H. unfold retrieveAndLockTiles in H.
  destruct tilesToAlloc as [|t0 ts0] eqn:Hts.
  { injection H as <- <- <-. split; [done|]. done. }
  rewrite <- Hts in *. clear Hts.
  revert H.
  generalize (Z.to_nat (getBucketCacheBucketIndex (getHashKey entry))).
  intros bi H.
  destruct (allocateTiles (getHashKey entry) tilesToAlloc c)
    as [[r c1]|] eqn:Ha; [|done]. simpl in H.
  apply allocateTiles_frame in Ha as [Hf1 Hlen].
  pose proof (frameSizeAndIndex_accounted _ _ Hf1 Hc) as Hc1.
  destruct r as [al|]; [|by injection H as <- <- <-].
  specialize (Hlen al eq_refl).
  destruct (getBucket c1 bi) as [b1|] eqn:Hb1; [|done]. simpl in H.
  unfold tryCacheLookupImpl in H.
  destruct (entriesMap b1 !! getHashKey entry) as [e|] eqn:He.
  - injection H as <- <- <-.
    pose proof (Hc1 _ _ Hb1) as Hacc. unfold sizeAccounted in Hacc.
    split.
    + apply cacheAccounted_setBucket; [done|].
      unfold sizeAccounted. simpl.
      rewrite (billedSum_insert_Some _ e) by done.
      rewrite Hacc. unfold U64_add, U64_mul, wrap64.
      rewrite Zplus_mod_idemp_r, Zplus_mod_idemp_l.
      f_equal. unfold billed. simpl. rewrite length_app, Hlen. lia.
    + intros _ _ b Hb. destruct Hf1 as [_ Hf1].
      destruct (Hf1 _ _ Hb1) as (b0&Hb0&Hsz&Hm).
      rewrite Hb in Hb0. injection Hb0 as <-.
      eexists _, e, _. split.
      { apply getBucket_setBucket_eq. by eapply getBucket_Some_lt. }
      split. { by rewrite <- Hm. }
      split. { simpl. apply lookup_insert_eq. }
      split; [done|]. split; [done|]. simpl. by rewrite Hsz.
  - destruct (freeAllocatedTiles _ _ _ c1) as [c2|] eqn:Hfree; [|done].
    simpl in H. injection H as <- <- <-.
    apply freeAllocatedTiles_frame in Hfree.
    split; [by eapply frameSizeAndIndex_accounted|done].
Qed.

(** C4 (amended).  The size recorded by a bucket equals, modulo 2^64, the
    sum of [size] over its Ready entries plus the tile size for every tile
    owned by one of its entries.  This holds for a wiped cache and is
    preserved by [Cache::get] (a reservation bills nothing: the size of the
    bucket is unchanged), by [insertInternal] (which adds the [size] of the
    entry it makes Ready), by [retrieveAndLockTiles] (which adds the tile
    size times the number of tiles allocated), and by the deallocation of a
    Ready entry, through [deallocateCacheEntryImpl] or [removeEntry] (which
    subtracts exactly what the entry was billed). *)
Theorem size_accounting_preserved (c : CachePrivate) :
  cacheAccounted c →
  cacheAccounted (clear c) ∧
  (∀ thread en lk c',
     get thread en c = Some (lk, c') → cacheAccounted c') ∧
  (∀ thread en b,
     let k := getHashKey en in
     let bi := Z.to_nat (getBucketCacheBucketIndex k) in
     getBucket c bi = Some b → bucketState b = eBucketStateOk →
     entriesMap b !! k = None →
     ∃ lk c' b' e,
       get thread en c = Some (lk, c') ∧ getBucket c' bi = Some b' ∧
       entriesMap b' !! k = Some e ∧ status e = eEntryStatusPending ∧
       entry_size e = getMetadataSize en ∧
       bucket_size b' = bucket_size b) ∧
  (∀ lk bi b r,
     bucket lk = Some bi → getBucket c bi = Some b →
     (∀ e, entriesMap b !! lockerHash lk = Some e →
           status e = eEntryStatusReady → computeThreadMagic e = 0) →
     insertInternal lk c = Some r →
     match r with
     | Normal (rc, _, c') =>
       cacheAccounted c' ∧
       (∀ e, entriesMap b !! lockerHash lk = Some e →
             computeThreadMagic e ≠ 0 → rc = eInsertRetCodeCreated →
             ∃ b', getBucket c' bi = Some b' ∧
                   bucket_size b' = U64_add (bucket_size b) (entry_size e))
     | Thrown c' => cacheAccounted c'
     end) ∧
  (∀ entry tilesToAlloc ok allocated c',
     retrieveAndLockTiles entry tilesToAlloc c = Some (ok, allocated, c') →
     cacheAccounted c' ∧
     (ok = true → tilesToAlloc ≠ [] →
      ∀ b, getBucket c (Z.to_nat (getBucketCacheBucketIndex (getHashKey entry)))
           = Some b →
           ∃ b' e e',
             getBucket c'
               (Z.to_nat (getBucketCacheBucketIndex (getHashKey entry)))
               = Some b' ∧
             entriesMap b !! getHashKey entry = Some e ∧
             entriesMap b' !! getHashKey entry = Some e' ∧
             tileIndices e' = tileIndices e ++ allocated ∧
             length allocated = length tilesToAlloc ∧
             bucket_size b' =
               U64_add (bucket_size b)
                       (U64_mul (Z.of_nat (length tilesToAlloc))
                                NATRON_TILE_SIZE_BYTES))) ∧
  (∀ bi k b e c',
     getBucket c bi = Some b → entriesMap b !! k = Some e →
     status e = eEntryStatusReady →
     deallocateCacheEntryImpl bi k c = Some c' →
     cacheAccounted c' ∧
     ∃ b', getBucket c' bi = Some b' ∧
           bucket_size b' = wrap64 (bucket_size b - billed e)) ∧
  (∀ en b c',
     let k := getHashKey en in
     let bi := Z.to_nat (getBucketCacheBucketIndex k) in
     getBucket c bi = Some b →
     (∀ e, entriesMap b !! k = Some e → status e = eEntryStatusReady) →
     removeEntry (Some en) c = Some c' →
     cacheAccounted c' ∧
     (bucketState b = eBucketStateOk →
      ∀ e, entriesMap b !! k = Some e →
           ∃ b', getBucket c' bi = Some b' ∧
                 bucket_size b' = wrap64 (bucket_size b - billed e))).
Proof.
  intros Hc. split; [apply clear_accounted|].
  split. { intros thread en lk c' H. by eapply lookupAndSetStatus_accounted. }
  split.
  { intros thread en b k bi Hb Hok Hnone.
    destruct (get_miss thread en c b Hb Hok Hnone) as (e&Hget&Hst&_&Hsz&_).
    eexists _, _, _, e. split; [exact Hget|].
    split. { apply getBucket_setBucket_eq. by eapply getBucket_Some_lt. }
    split. { simpl. apply lookup_insert_eq. }
    done. }
  split. { intros lk bi b r. by apply insertInternal_accounted. }
  split.
  { intros entry ts ok al c'. by apply retrieveAndLockTiles_accounted. }
  split.
  { intros bi k b e c'. by apply deallocateCacheEntryImpl_accounted. }
  intros en b c' k bi. by apply removeEntry_accounted.
Qed.

(** ** Eviction *)

Lemma sumZ_cons x l : sumZ (x :: l) = x + sumZ l.
Proof. reflexivity. Qed.

Lemma sumZ_same {A} (f : A → Z) (l l' : list A) :
  length l' = length l →
  (∀ j y, l !! j = Some y → ∃ y', l' !! j = Some y' ∧ f y' = f y) →
  sumZ (f <$> l') = sumZ (f <$> l).
Proof.
  revert l'. induction l as [|a l IH]; intros [|a' l'] Hlen Hrest; try done.
  rewrite !fmap_cons, !sumZ_cons.
  destruct (Hrest 0%nat a) as (y'&Hy'&Hf); [done|].
  injection Hy' as ->. rewrite Hf. f_equal.
  apply IH; [by injection Hlen|]. intros j y Hy. by apply (Hrest (S j)).
Qed.

Lemma sumZ_change {A} (f : A → Z) (l l' : list A) i x x' :
  length l' = length l →
  l !! i = Some x → l' !! i = Some x' →
  (∀ j y, j ≠ i → l !! j = Some y → ∃ y', l' !! j = Some y' ∧ f y' = f y) →
  sumZ (f <$> l') = sumZ (f <$> l) - f x + f x'.
Proof.
  revert l' i. induction l as [|a l IH]; intros l' i Hlen Hi Hi' Hrest.
  { done. }
  destruct l' as [|a' l']; [done|]. injection Hlen as Hlen.
  rewrite !fmap_cons, !sumZ_cons.
  destruct i as [|i].
  - injection Hi as ->. injection Hi' as ->.
    rewrite (sumZ_same f l l'); [lia|done|].
    intros j y Hy. by apply (Hrest (S j) y).
  - destruct (Hrest 0%nat a) as (y'&Hy'&Hf); [done|done|].
    injection Hy' as ->. rewrite Hf.
    rewrite (IH l' i); [lia|done|done|done|].
    intros j y Hj Hy. apply (Hrest (S j) y); [lia|done].
Qed.

Lemma totalEntries_sumZ c :
  Z.of_nat (totalEntries c)
  = sumZ ((λ b, Z.of_nat (size (entriesMap b))) <$> buckets c).
Proof.
  unfold totalEntries. induction (buckets c) as [|b l IH]; [done|].
  rewrite fmap_cons, sumZ_cons. simpl. lia.
Qed.

Lemma getCurrentSize_sumZ c :
  getCurrentSize c = wrap64 (sumZ (bucket_size <$> buckets c)).
Proof.
  unfold getCurrentSize.
  assert (∀ l a, foldl (λ ret b, U64_add ret (bucket_size b)) (wrap64 a) l
                 = wrap64 (a + sumZ (bucket_size <$> l))) as H.
  { induction l as [|b l IH]; intros a.
    - simpl. f_equal. unfold sumZ. simpl. lia.
    - rewrite fmap_cons, sumZ_cons. simpl.
      rewrite U64_add_wrap_l, IH. f_equal. lia. }
  apply (H _ 0).
Qed.

Lemma mapsSameButNode_size m m' : mapsSameButNode m m' → size m' = size m.
Proof.
  intros H. rewrite <- !size_dom. f_equal. apply set_eq. intros j.
  rewrite !elem_of_dom. specialize (H j).
  destruct (m !! j), (m' !! j); try done; split; intros [? ?]; done.
Qed.

Lemma sizeAfterDeallocate_wrap e s :
  sizeAfterDeallocate e s
  = wrap64 (s - entry_size e
            - Z.of_nat (length (tileIndices e)) * NATRON_TILE_SIZE_BYTES).
Proof.
  unfold sizeAfterDeallocate. destruct (tileIndices e) as [|t ts].
  - unfold U64_sub. f_equal. simpl. lia.
  - unfold U64_sub, U64_mul, wrap64.
    by rewrite Zminus_mod_idemp_r, Zminus_mod_idemp_l.
Qed.

Lemma wrap64_decomp a : ∃ q, wrap64 a = a + q * 2 ^ 64.
Proof.
  exists (- (a / 2 ^ 64)). unfold wrap64.
  pose proof (Z.div_mod a (2 ^ 64)). lia.
Qed.

Lemma wrap64_shift a q : wrap64 (a + q * 2 ^ 64) = wrap64 a.
Proof. unfold wrap64. apply Z_mod_plus_full. Qed.

Lemma deallocateCacheEntryImpl_measures bi k c c' b e :
  getBucket c bi = Some b → entriesMap b !! k = Some e →
  deallocateCacheEntryImpl bi k c = Some c' →
  (totalEntries c' < totalEntries c)%nat ∧
  getCurrentSize c' =
    wrap64 (getCurrentSize c - entry_size e
            - Z.of_nat (length (tileIndices e)) * NATRON_TILE_SIZE_BYTES).
Proof.
  intros Hb He Hd.
  destruct (deallocateCacheEntryImpl_spec _ _ _ _ Hd)
    as (b0&e0&b'&Hb0&He0&Hb'&Hlen&_&_&_&Hk&Hnode&_&_&_&_&Hsz&_&Hothers&_).
  rewrite Hb in Hb0. injection Hb0 as <-.
  rewrite He in He0. injection He0 as <-.
  split.
  - apply Nat2Z.inj_lt. rewrite !totalEntries_sumZ.
    rewrite (sumZ_change (λ b, Z.of_nat (size (entriesMap b)))
               (buckets c) (buckets c') bi b b'); try done.
    + rewrite (mapsSameButNode_size _ _ Hnode).
      rewrite map_size_delete_Some by eauto. 
      assert (size (entriesMap b) ≠ 0)%nat.
      { apply map_size_ne_0_lookup. eauto. }
      lia.
    + intros j y Hne Hy. destruct (Hothers j y Hne Hy) as (y'&Hy'&Hs).
      exists y'. split; [done|]. by destruct Hs as (_&_&_&_&_&->&_).
  - rewrite !getCurrentSize_sumZ.
    rewrite (sumZ_change bucket_size (buckets c) (buckets c') bi b b');
      try done.
    + rewrite Hsz, sizeAfterDeallocate_wrap.
      set (S0 := sumZ (bucket_size <$> buckets c)).
      set (d := entry_size e
                + Z.of_nat (length (tileIndices e)) * NATRON_TILE_SIZE_BYTES).
      destruct (wrap64_decomp (bucket_size b - entry_size e
                  - Z.of_nat (length (tileIndices e)) * NATRON_TILE_SIZE_BYTES))
        as [q1 ->].
      destruct (wrap64_decomp S0) as [q2 ->].
      replace (S0 - bucket_size b
               + (bucket_size b - entry_size e
                  - Z.of_nat (length (tileIndices e)) * NATRON_TILE_SIZE_BYTES
                  + q1 * 2 ^ 64))
        with (S0 - d + q1 * 2 ^ 64) by (unfold d; lia).
      replace (S0 + q2 * 2 ^ 64 - entry_size e
               - Z.of_nat (length (tileIndices e)) * NATRON_TILE_SIZE_BYTES)
        with (S0 - d + q2 * 2 ^ 64) by (unfold d; lia).
      by rewrite !wrap64_shift.
    + intros j y Hne Hy. destruct (Hothers j y Hne Hy) as (y'&Hy'&Hs).
      exists y'. split; [done|]. by destruct Hs as (_&_&_&_&->&_).
Qed.

Lemma setBucket_measures i b b' c :
  getBucket c i = Some b →
  entriesMap b' = entriesMap b → bucket_size b' = bucket_size b →
  totalEntries (setBucket i b' c) = totalEntries c ∧
  getCurrentSize (setBucket i b' c) = getCurrentSize c.
Proof.
  intros Hb Hm Hs.
  assert (∀ j y, buckets c !! j = Some y →
                 ∃ y', buckets (setBucket i b' c) !! j = Some y' ∧
                       entriesMap y' = entriesMap y ∧
                       bucket_size y' = bucket_size y) as Hpt.
  { intros j y Hy. destruct (decide (i = j)) as [->|Hne].
    - exists b'. split.
      + apply (getBucket_setBucket_eq j b' c). by eapply getBucket_Some_lt.
      + unfold getBucket in Hb. rewrite Hb in Hy. by injection Hy as <-.
    - exists y. split; [|done].
      pose proof (getBucket_setBucket_ne i j b' c Hne) as Hne'.
      unfold getBucket in Hne'. by rewrite Hne'. }
  split.
  - apply Nat2Z.inj. rewrite !totalEntries_sumZ.
    apply sumZ_same; [apply length_setBucket|].
    intros j y Hy. destruct (Hpt j y Hy) as (y'&Hy'&Hm'&_).
    exists y'. split; [done|]. by rewrite Hm'.
  - rewrite !getCurrentSize_sumZ. f_equal.
    apply sumZ_same; [apply length_setBucket|].
    intros j y Hy. destruct (Hpt j y Hy) as (y'&Hy'&_&Hs').
    exists y'. done.
Qed.

(** What one bucket of a round does, case by case. *)
Lemma evictBucket_cases bi cur c r :
  BucketStateHandler_RAII bi c (evictBucketScope bi cur) = Some r →
  ∃ b, getBucket c bi = Some b ∧
    match r with
    | Thrown c' => c' = c ∧ bucketState b ≠ eBucketStateOk
    | Normal (None, c') =>
      c' = c ∧ bucketState b = eBucketStateOk ∧
      (lruListFront b = None ∨
       ∃ f n, lruListFront b = Some f ∧ entriesMap b !! f = Some n ∧
              (hash (lruNode n) = 0 ∨
               entriesMap b !! hash (lruNode n) = None))
    | Normal (Some cur', c') =>
      bucketState b = eBucketStateOk ∧
      ∃ f n e c1 b1,
        lruListFront b = Some f ∧ entriesMap b !! f = Some n ∧
        hash (lruNode n) ≠ 0 ∧
        entriesMap b !! hash (lruNode n) = Some e ∧
        cur' = U64_sub (U64_sub cur (entry_size e))
                 (U64_mul (Z.of_nat (length (tileIndices e)))
                          NATRON_TILE_SIZE_BYTES) ∧
        deallocateCacheEntryImpl bi (hash (lruNode n))
          (setBucket bi (set_bucketState eBucketStateInconsistent b) c)
          = Some c1 ∧
        getBucket c1 bi = Some b1 ∧
        c' = setBucket bi (set_bucketState eBucketStateOk b1) c1
    end.
Proof.
  intros H. destruct (getBucket c bi) as [b|] eqn:Hb.
  2:{ unfold BucketStateHandler_RAII in H. by rewrite Hb in H. }
  exists b. split; [done|].
  pose proof (getBucket_Some_lt _ _ _ Hb) as Hlt.
  destruct (decide (bucketState b = eBucketStateOk)) as [Hok|Hnok].
  2:{ rewrite (BucketStateHandler_RAII_thrown _ _ _ b) in H by done.
      by injection H as <-. }
  destruct (BucketStateHandler_RAII_ok _ _ _ _ _ Hb Hok H)
    as (a & c2 & b2 & Hscope & Hb2 & ->).
  set (b1 := set_bucketState eBucketStateInconsistent b) in *.
  unfold evictBucketScope in Hscope.
  rewrite getBucket_setBucket_eq in Hscope by done. simpl in Hscope.
  assert (setBucket bi (set_bucketState eBucketStateOk b1) (setBucket bi b1 c)
          = c) as Hrestore.
  { rewrite setBucket_setBucket. unfold b1.
    rewrite set_bucketState_Ok_id by done. by apply setBucket_id. }
  destruct (lruListFront b) as [f|] eqn:Hf.
  - destruct (entriesMap b !! f) as [n|] eqn:Hn; [|done]. simpl in Hscope.
    destruct (Z.eqb_spec (hash (lruNode n)) 0) as [Hz|Hnz].
    { injection Hscope as <- <-.
      rewrite getBucket_setBucket_eq in Hb2 by done. injection Hb2 as <-.
      split; [done|]. split; [done|]. right. exists f, n. eauto. }
    unfold tryCacheLookupImpl in Hscope. simpl in Hscope.
    destruct (entriesMap b !! hash (lruNode n)) as [e|] eqn:He.
    + destruct (deallocateCacheEntryImpl bi _ (setBucket bi b1 c))
        as [c1|] eqn:Hd; [|done].
      simpl in Hscope. injection Hscope as <- <-.
      split; [done|]. exists f, n, e, c1, b2. done.
    + injection Hscope as <- <-.
      rewrite getBucket_setBucket_eq in Hb2 by done. injection Hb2 as <-.
      split; [done|]. split; [done|]. right. exists f, n. eauto.
  - simpl in Hscope. injection Hscope as <- <-.
    rewrite getBucket_setBucket_eq in Hb2 by done. injection Hb2 as <-.
    split; [done|]. split; [done|]. by left.
Qed.

Lemma evictBucket_measures bi cur c cur' c' :
  BucketStateHandler_RAII bi c (evictBucketScope bi cur)
    = Some (Normal (Some cur', c')) →
  (totalEntries c' < totalEntries c)%nat ∧
  length (buckets c') = length (buckets c) ∧
  (cur = getCurrentSize c → cur' = getCurrentSize c').
Proof.
  intros H. destruct (evictBucket_cases _ _ _ _ H)
    as (b&Hb&Hok&f&n&e&c1&b1&Hf&Hn&Hnz&He&Hcur&Hd&Hb1&->).
  pose proof (getBucket_Some_lt _ _ _ Hb) as Hlt.
  set (bI := set_bucketState eBucketStateInconsistent b) in *.
  destruct (setBucket_measures bi b bI c Hb) as [Ht0 Hs0]; [done|done|].
  destruct (deallocateCacheEntryImpl_measures bi (hash (lruNode n))
              (setBucket bi bI c) c1 bI e)
    as [Ht1 Hs1]; [by apply getBucket_setBucket_eq|done|done|].
  destruct (setBucket_measures bi b1 (set_bucketState eBucketStateOk b1) c1 Hb1)
    as [Ht2 Hs2]; [done|done|].
  split; [lia|]. split.
  { rewrite length_setBucket.
    destruct (deallocateCacheEntryImpl_spec _ _ _ _ Hd)
      as (_&_&_&_&_&_&Hlen&_). by rewrite Hlen, length_setBucket. }
  intros ->. rewrite Hs2, Hs1, Hs0, Hcur. unfold U64_sub, U64_mul.
  destruct (wrap64_decomp (getCurrentSize c - entry_size e)) as [q1 ->].
  destruct (wrap64_decomp (Z.of_nat (length (tileIndices e))
                           * NATRON_TILE_SIZE_BYTES)) as [q2 ->].
  replace (getCurrentSize c - entry_size e + q1 * 2 ^ 64
           - (Z.of_nat (length (tileIndices e)) * NATRON_TILE_SIZE_BYTES
              + q2 * 2 ^ 64))
    with (getCurrentSize c - entry_size e
          - Z.of_nat (length (tileIndices e)) * NATRON_TILE_SIZE_BYTES
          + (q1 - q2) * 2 ^ 64) by lia.
  by rewrite wrap64_shift.
Qed.

Lemma evictLoop_unfold fuel maxSize c cur :
  evictLoop (S fuel) maxSize c cur =
  r ← evictRound (seq 0 (Z.to_nat NATRON_CACHE_BUCKETS_COUNT)) c cur false;
  match r with
  | Thrown c' => Some (evictReturned (recoverFromInconsistentState c'))
  | Normal (curSize', found, c') =>
    if negb found then Some (evictReturned c')
    else if curSize' >? maxSize then evictLoop fuel maxSize c' curSize'
    else Some (evictReturned c')
  end.
Proof. reflexivity. Qed.

Lemma evictRound_measure bs c cur found cur' found' c' :
  evictRound bs c cur found = Some (Normal (cur', found', c')) →
  (totalEntries c' ≤ totalEntries c)%nat ∧
  (found' = true → found = true ∨ (totalEntries c' < totalEntries c)%nat).
Proof.
  revert c cur found. induction bs as [|bi bs IH]; intros c cur found H.
  { simpl in H. injection H as <- <- <-. split; [done|]. by left. }
  simpl in H.
  destruct (BucketStateHandler_RAII bi c (evictBucketScope bi cur))
    as [r|] eqn:Hr; [|done]. simpl in H.
  destruct r as [[[cur1|] c1]|c1]; [| |done].
  - apply evictBucket_measures in Hr as (Hlt&_&_).
    apply IH in H as [Hle _]. split; [lia|]. intros _. right. lia.
  - destruct (evictBucket_cases _ _ _ _ Hr) as (b&_&->&_).
    by apply IH in H.
Qed.

(** The loop never runs out of fuel when it is given more iterations than
    the cache has entry headers. *)
Lemma evictLoop_fuel fuel maxSize c cur :
  (totalEntries c < fuel)%nat →
  evictLoop fuel maxSize c cur ≠ Some evictOutOfFuel.
Proof.
  revert c cur. induction fuel as [|fuel IH]; intros c cur Hlt; [lia|].
  rewrite evictLoop_unfold.
  destruct (evictRound _ c cur false) as [r|] eqn:Hr; [|done].
  cbn [mbind option_bind].
  destruct r as [[[cur' found] c']|c']; [|done].
  destruct found; simpl; [|done].
  destruct (cur' >? maxSize); [|done].
  apply IH. apply evictRound_measure in Hr as [_ Hr].
  destruct (Hr eq_refl) as [|]; [done|lia].
Qed.

Lemma evictBucket_wf bi cur c :
  evictInvariant c cur → (bi < 256)%nat →
  ∃ r, BucketStateHandler_RAII bi c (evictBucketScope bi cur) = Some r ∧
    match r with
    | Thrown c' => c' = c
    | Normal (None, c') =>
      c' = c ∧ ∃ b, getBucket c bi = Some b ∧ lruListFront b = None
    | Normal (Some cur', c') => evictInvariant c' cur'
    end.
Proof.
  intros (Hlen&Hwf&Hcur) Hbi.
  destruct (getBucket_lt_Some c bi) as [b Hb]; [lia|].
  assert (bi < length (buckets c))%nat as Hlt by lia.
  pose proof (Hwf _ _ Hb) as Hfront.
  set (bI := set_bucketState eBucketStateInconsistent b).
  assert (is_Some (BucketStateHandler_RAII bi c (evictBucketScope bi cur)))
    as [r Hr].
  { unfold BucketStateHandler_RAII. rewrite Hb. simpl. case_decide; [|done].
    fold bI. unfold evictBucketScope.
    rewrite getBucket_setBucket_eq by done. simpl.
    destruct (lruListFront b) as [f|] eqn:Hf.
    - destruct (Hfront f Hf) as (Hnz&e&He&Hh&Hp&Hn).
      rewrite He. simpl. rewrite Hh.
      destruct (Z.eqb_spec f 0) as [|_]; [done|].
      unfold tryCacheLookupImpl. simpl. rewrite He.
      destruct (deallocateCacheEntryImpl_total bi f (setBucket bi bI c) bI e)
        as [c1 Hd]; try done.
      { by rewrite length_setBucket. }
      { by apply getBucket_setBucket_eq. }
      { by rewrite Hp. }
      rewrite Hd. simpl.
      destruct (deallocateCacheEntryImpl_spec _ _ _ _ Hd)
        as (_&_&b1&_&_&Hb1&_). by rewrite Hb1.
    - simpl. by rewrite getBucket_setBucket_eq by done. }
  exists r. split; [done|].
  destruct (evictBucket_cases _ _ _ _ Hr) as (b0&Hb0&Hcases).
  rewrite Hb in Hb0. injection Hb0 as <-.
  destruct r as [[[cur'|] c']|c'].
  - pose proof (evictBucket_measures _ _ _ _ _ Hr) as (_&Hlen'&Hcur').
    destruct Hcases as (Hok&f&n&e&c1&b1&Hf&Hn&Hnz&He&_&Hd&Hb1&->).
    split; [congruence|]. split; [|by apply Hcur'].
    destruct (Hfront f Hf) as (_&e0&He0&Hh&Hp&_).
    rewrite Hn in He0. injection He0 as <-. rewrite Hh in *.
    rewrite Hn in He. injection He as <-.
    destruct (deallocateCacheEntryImpl_spec _ _ _ _ Hd)
      as (b0&e0&b1'&Hb0&He0&Hb1'&Hlen1&_&_&_&_&_&_&Hfr&_&_&_&_&Hothers&_).
    rewrite getBucket_setBucket_eq in Hb0 by done. injection Hb0 as <-.
    simpl in He0. rewrite Hn in He0. injection He0 as <-.
    rewrite Hb1 in Hb1'. injection Hb1' as <-.
    intros j bj Hj. destruct (decide (bi = j)) as [<-|Hne].
    + rewrite getBucket_setBucket_eq in Hj
        by (by rewrite Hlen1, length_setBucket).
      injection Hj as <-. intros f'. simpl. rewrite Hfr. simpl.
      rewrite Hf, decide_True by done. by rewrite Hp.
    + rewrite getBucket_setBucket_ne in Hj by done.
      destruct (getBucket_lt_Some c j) as [b0 Hb0].
      { apply getBucket_Some_lt in Hj.
        by rewrite Hlen1, length_setBucket in Hj. }
      destruct (Hothers j b0) as (b0'&Hb0'&Hs); [done| |].
      { by rewrite getBucket_setBucket_ne. }
      rewrite Hj in Hb0'. injection Hb0' as <-.
      destruct Hs as (Hf'&_&_&_&_&Hm&_).
      pose proof (Hwf _ _ Hb0) as Hwf0.
      intros f'. rewrite Hf', Hm. apply Hwf0.
  - destruct Hcases as (->&Hok&Hnone). split; [done|].
    exists b. split; [done|].
    destruct Hnone as [|(f&n&Hf&Hn&Hbad)]; [done|].
    destruct (Hfront f Hf) as (Hnz&e0&He0&Hh&_).
    rewrite Hn in He0. injection He0 as <-. rewrite Hh in Hbad.
    destruct Hbad; congruence.
  - by destruct Hcases.
Qed.

Lemma evictRound_found bs c cur cur' found' c' :
  evictRound bs c cur true = Some (Normal (cur', found', c')) →
  found' = true.
Proof.
  revert c cur. induction bs as [|bi bs IH]; intros c cur H; simpl in H.
  { by injection H as <- <- <-. }
  destruct (BucketStateHandler_RAII bi c (evictBucketScope bi cur))
    as [r|]; [|done]. simpl in H.
  destruct r as [[[cur1|] c1]|c1]; [by eapply IH|by eapply IH|done].
Qed.

Lemma evictRound_wf bs c cur found :
  evictInvariant c cur → Forall (λ i, i < 256)%nat bs →
  ∃ r, evictRound bs c cur found = Some r ∧
    match r with
    | Thrown c' => length (buckets c') = 256%nat
    | Normal (cur', found', c') =>
      evictInvariant c' cur' ∧
      (found' = false →
       c' = c ∧
       ∀ i, i ∈ bs → ∃ b, getBucket c i = Some b ∧ lruListFront b = None)
    end.
Proof.
  revert c cur found. induction bs as [|bi bs IH]; intros c cur found Hinv Hbs.
  { eexists. split; [done|]. split; [done|]. intros _. split; [done|].
    intros i Hi. by apply elem_of_nil in Hi. }
  apply Forall_cons in Hbs as [Hbi Hbs]. simpl.
  destruct (evictBucket_wf bi cur c Hinv Hbi) as (r&Hr&Hcase).
  rewrite Hr. simpl.
  destruct r as [[[cur1|] c1]|c1].
  - destruct (IH c1 cur1 true Hcase Hbs) as (r2&Hr2&Hcase2).
    exists r2. split; [done|].
    destruct r2 as [[[cur2 found2] c2]|c2]; [|done].
    destruct Hcase2 as [Hinv2 Hnf]. split; [done|].
    intros ->. by apply evictRound_found in Hr2.
  - destruct Hcase as (->&b&Hb&Hnone).
    destruct (IH c cur found Hinv Hbs) as (r2&Hr2&Hcase2).
    exists r2. split; [done|].
    destruct r2 as [[[cur2 found2] c2]|c2]; [|done].
    destruct Hcase2 as [Hinv2 Hnf]. split; [done|].
    intros Hf. destruct (Hnf Hf) as [-> Hall]. split; [done|].
    intros i Hi. apply elem_of_cons in Hi as [->|Hi]; eauto.
  - subst c1. eexists. split; [done|]. by destruct Hinv.
Qed.

Lemma getCurrentSize_clear c : getCurrentSize (clear c) = 0.
Proof.
  rewrite getCurrentSize_sumZ.
  assert (∀ l : list CacheBucketIPCData,
            Forall (λ b, bucket_size b = 0) l → sumZ (bucket_size <$> l) = 0)
    as Hzero.
  { induction 1 as [|b l Hb _ IH]; [done|].
    rewrite fmap_cons, sumZ_cons. lia. }
  rewrite Hzero; [done|]. apply Forall_lookup. intros i b Hb.
  destruct (createTileStorage_buckets _ i b Hb) as (b0&Hb0&[Hs _]&_).
  rewrite Hs. unfold getBucket in Hb0. simpl in Hb0.
  rewrite list_lookup_fmap in Hb0.
  destruct (buckets c !! i); [|done]. by injection Hb0 as <-.
Qed.

Lemma evictLoop_wf fuel maxSize c cur :
  0 ≤ maxSize → evictInvariant c cur →
  ∃ r, evictLoop fuel maxSize c cur = Some r ∧
    match r with
    | evictReturned c' =>
      getCurrentSize c' ≤ maxSize ∨ allFrontsNull c'
    | evictOutOfFuel => True
    end.
Proof.
  intros Hmax. revert c cur. induction fuel as [|fuel IH]; intros c cur Hinv.
  { by eexists. }
  rewrite evictLoop_unfold.
  destruct (evictRound_wf (seq 0 (Z.to_nat NATRON_CACHE_BUCKETS_COUNT)) c cur
              false Hinv) as (r&Hr&Hcase).
  { apply Forall_forall. intros i Hi. apply elem_of_seq in Hi.
    change (Z.to_nat NATRON_CACHE_BUCKETS_COUNT) with 256%nat in Hi. lia. }
  rewrite Hr. cbn [mbind option_bind].
  destruct r as [[[cur' found] c']|c'].
  - destruct Hcase as [Hinv' Hnf]. destruct found; simpl.
    + destruct (Z.gtb_spec cur' maxSize) as [Hgt|Hle].
      * by apply IH.
      * eexists. split; [done|]. left. destruct Hinv' as (_&_&<-). lia.
    + eexists. split; [done|]. right.
      destruct (Hnf eq_refl) as [-> Hall].
      intros i b Hb. destruct (Hall i) as (b0&Hb0&Hnone).
      { apply elem_of_seq.
        change (Z.to_nat NATRON_CACHE_BUCKETS_COUNT) with 256%nat.
        apply getBucket_Some_lt in Hb. destruct Hinv as (Hlen&_). lia. }
      congruence.
  - eexists. split; [done|]. left.
    unfold recoverFromInconsistentState. rewrite getCurrentSize_clear. lia.
Qed.

Lemma getBucket_clear c i b :
  getBucket (clear c) i = Some b →
  bucketState b = eBucketStateOk ∧ lruListFront b = None ∧
  lruListBack b = None ∧ bucket_size b = 0 ∧ entriesMap b = ∅.
Proof.
  intros Hb. destruct (createTileStorage_buckets _ i b Hb)
    as (b0&Hb0&[Hs Hm]&Hst&Hf&Hbk).
  unfold getBucket in Hb0. simpl in Hb0. rewrite list_lookup_fmap in Hb0.
  destruct (buckets c !! i); [|done]. injection Hb0 as <-.
  by rewrite Hs, Hm, Hst, Hf, Hbk.
Qed.







(** ** Tile ids, bucket levels and directory names *)

Lemma encodeTileIndex_add i f :
  0 ≤ i < 2 ^ 32 → 0 ≤ f < 2 ^ 32 →
  encodeTileIndex i f = i * 2 ^ 32 + f.
Proof.
  intros Hi Hf. unfold encodeTileIndex, wrap64.
  rewrite Z.shiftl_mul_pow2 by lia.
  rewrite (Z.mod_small (i * 2 ^ 32)) by lia.
  rewrite <- (Z.add_lor_land (i * 2 ^ 32) f).
  assert (Z.land (i * 2 ^ 32) f = 0) as ->; [|lia].
  apply Z.bits_inj'. intros n Hn. rewrite Z.land_spec, Z.bits_0.
  destruct (Z.lt_ge_cases n 32) as [Hlt|Hge].
  - rewrite Z.mul_pow2_bits_low by lia. done.
  - rewrite andb_comm.
    assert (Z.testbit f n = false) as ->; [|done].
    destruct (Z.eq_dec f 0) as [->|Hne]; [apply Z.bits_0|].
    apply Z.bits_above_log2; [lia|].
    assert (Z.log2 f < 32); [|lia]. apply Z.log2_lt_pow2; lia.
Qed.

Lemma getTileIndex_encodeTileIndex i f :
  0 ≤ i < 2 ^ 32 → 0 ≤ f < 2 ^ 32 →
  getTileIndex (encodeTileIndex i f) = (i, f).
Proof.
  intros Hi Hf. rewrite encodeTileIndex_add by done.
  unfold getTileIndex. rewrite Z.shiftr_div_pow2 by lia.
  rewrite Z.div_add_l by lia. rewrite (Z.div_small f) by lia.
  rewrite Z.add_0_r, (Z.mod_small i) by lia.
  rewrite Z.add_comm, Z_mod_plus_full, Z.mod_small by lia. done.
Qed.

(** X1.  Decoding a tile id built by the seeding code gives back the tile
    index and the file index it was built from, whenever both fit in 32
    bits; hence two ids built from different indices differ. *)
Theorem tile_index_round_trip (i f i' f' : Z) :
  0 ≤ i < 2 ^ 32 → 0 ≤ f < 2 ^ 32 →
  0 ≤ i' < 2 ^ 32 → 0 ≤ f' < 2 ^ 32 →
  getTileIndex (encodeTileIndex i f) = (i, f) ∧
  (encodeTileIndex i f = encodeTileIndex i' f' → i = i' ∧ f = f').
Proof.
  intros Hi Hf Hi' Hf'. split; [by apply getTileIndex_encodeTileIndex|].
  intros Heq.
  assert (getTileIndex (encodeTileIndex i f)
          = getTileIndex (encodeTileIndex i' f')) as Hg by (by rewrite Heq).
  rewrite !getTileIndex_encodeTileIndex in Hg by done.
  by injection Hg.
Qed.

(** X2.  [getBucketStorageIndex<level>] selects the byte number [level] of
    the hash, counted from the most significant one: level 0 is the top
    byte and level 7, the one the cache uses, the lowest byte.  The index is
    always within the 256 buckets. *)
Theorem getBucketStorageIndex_selects_byte (level hash : Z) :
  0 ≤ level ≤ 7 →
  getBucketStorageIndex level hash = (hash / 2 ^ (56 - 8 * level)) mod 256 ∧
  0 ≤ getBucketStorageIndex level hash < NATRON_CACHE_BUCKETS_COUNT.
Proof.
  intros Hl.
  assert (getBucketStorageIndex level hash
          = (hash / 2 ^ (56 - 8 * level)) mod 256) as Heq.
  { unfold getBucketStorageIndex, NATRON_CACHE_BUCKETS_N_DIGITS.
    assert (Z.shiftr 18446744073709551615 (2 * level * 4)
            = Z.ones (64 - 8 * level)) as ->.
    { assert (level = 0 ∨ level = 1 ∨ level = 2 ∨ level = 3 ∨ level = 4
              ∨ level = 5 ∨ level = 6 ∨ level = 7) as H by lia.
      destruct H as [->|[->|[->|[->|[->|[->|[->| ->]]]]]]]; reflexivity. }
    rewrite Z.land_ones, Z.shiftr_div_pow2 by lia.
    replace (64 - 2 * (level + 1) * 4) with (56 - 8 * level) by lia.
    replace (64 - 8 * level) with (8 + (56 - 8 * level)) by lia.
    rewrite Z.pow_add_r by lia.
    change (2 ^ 8) with 256.
    set (B := 2 ^ (56 - 8 * level)).
    assert (0 < B) as HB by (apply Z.pow_pos_nonneg; lia).
    rewrite (Z.mul_comm 256 B), Z.rem_mul_r by lia.
    rewrite (Z.mul_comm B), Z.div_add, Z.mod_div by lia. done. }
  split; [exact Heq|]. rewrite Heq.
  unfold NATRON_CACHE_BUCKETS_COUNT. apply Z.mod_pos_bound. lia.
Qed.

(** X3.  The directory of bucket [i], for [i] in [0, 256), is named by the
    two lower-case hexadecimal digits of [i]; two different buckets never
    share a directory name. *)
Theorem getBucketDirName_two_digits_distinct (i j : Z) :
  0 ≤ i < NATRON_CACHE_BUCKETS_COUNT → 0 ≤ j < NATRON_CACHE_BUCKETS_COUNT →
  getBucketDirName i = hexDigit (i / 16) +:+ hexDigit (i mod 16) ∧
  String.length (getBucketDirName i) = 2%nat ∧
  (getBucketDirName i = getBucketDirName j → i = j).
Proof.
  unfold NATRON_CACHE_BUCKETS_COUNT. intros Hi Hj.
  assert (Forall (λ x, getBucketDirName x
                       = hexDigit (x / 16) +:+ hexDigit (x mod 16)
                       ∧ String.length (getBucketDirName x) = 2%nat)
                 (seqZ 0 256)) as Hall.
  { apply (bool_decide_unpack _). vm_compute. exact I. }
  assert (NoDup (getBucketDirName <$> seqZ 0 256)) as Hnd.
  { apply (bool_decide_unpack _). vm_compute. exact I. }
  rewrite Forall_forall in Hall.
  destruct (Hall i) as [H1 H2]; [apply elem_of_seqZ; lia|].
  split; [done|]. split; [done|]. intros Heq.
  assert (∀ x, 0 ≤ x < 256 →
               (getBucketDirName <$> seqZ 0 256) !! Z.to_nat x
               = Some (getBucketDirName x)) as Hlk.
  { intros x Hx. rewrite list_lookup_fmap, lookup_seqZ_lt by lia.
    simpl. f_equal. f_equal. lia. }
  pose proof (Hlk i Hi) as Hli. rewrite Heq in Hli.
  pose proof (NoDup_lookup _ _ _ _ Hnd Hli (Hlk j Hj)). lia.
Qed.

(** ** Edge behaviour of the public operations *)

Lemma RAII_scope_unchanged {A} bi c b (a : A)
    (scope : CachePrivate → option (A * CachePrivate)) :
  getBucket c bi = Some b → bucketState b = eBucketStateOk →
  (∀ c1, scope c1 = Some (a, c1)) →
  BucketStateHandler_RAII bi c scope = Some (Normal (a, c)).
Proof.
  intros Hb Hok Hs. pose proof (getBucket_Some_lt _ _ _ Hb) as Hlt.
  unfold BucketStateHandler_RAII. rewrite Hb. simpl.
  rewrite decide_True by done. rewrite Hs. simpl.
  rewrite getBucket_setBucket_eq by done. simpl.
  rewrite setBucket_setBucket, set_bucketState_Ok_id by done.
  by rewrite setBucket_id.
Qed.

Lemma RAII_scope_unchanged_at {A} bi c b (a : A)
    (scope : CachePrivate → option (A * CachePrivate)) :
  getBucket c bi = Some b → bucketState b = eBucketStateOk →
  (let c1 := setBucket bi (set_bucketState eBucketStateInconsistent b) c in
   scope c1 = Some (a, c1)) →
  BucketStateHandler_RAII bi c scope = Some (Normal (a, c)).
Proof.
  intros Hb Hok Hs. pose proof (getBucket_Some_lt _ _ _ Hb) as Hlt.
  unfold BucketStateHandler_RAII. rewrite Hb. simpl.
  rewrite decide_True by done. cbv zeta in Hs. rewrite Hs. simpl.
  rewrite getBucket_setBucket_eq by done. simpl.
  rewrite setBucket_setBucket, set_bucketState_Ok_id by done.
  by rewrite setBucket_id.
Qed.

(** X4.  [removeEntry] of a key the cache does not hold, its bucket being
    in state Ok, leaves the whole cache exactly as it was. *)
Theorem removeEntry_absent_key (en : CacheEntryBase) (c : CachePrivate)
    (b : CacheBucketIPCData) :
  let k := getHashKey en in
  let bi := Z.to_nat (getBucketCacheBucketIndex k) in
  getBucket c bi = Some b → bucketState b = eBucketStateOk →
  entriesMap b !! k = None →
  removeEntry (Some en) c = Some c.
Proof.
  intros k bi Hb Hok Hk. pose proof (getBucket_Some_lt _ _ _ Hb) as Hlt.
  unfold removeEntry. fold k bi.
  rewrite (RAII_scope_unchanged_at bi c b tt); [done..|].
  cbv zeta. rewrite getBucket_setBucket_eq by done. simpl.
  unfold tryCacheLookupImpl. simpl. by rewrite Hk.
Qed.

(** X5.  When the bucket an operation addresses is flagged Inconsistent,
    the operation does not touch the entry: it wipes the whole cache.  This
    holds for [removeEntry], for [insertInCache], for the destruction of a
    locker in MustCompute status, and for [Cache::get] of a key the bucket
    does not hold, which still answers MustCompute although nothing has
    been reserved. *)
Theorem inconsistent_bucket_wipes_cache (thread : Z) (en : CacheEntryBase)
    (c : CachePrivate) (b : CacheBucketIPCData) :
  let k := getHashKey en in
  let bi := Z.to_nat (getBucketCacheBucketIndex k) in
  getBucket c bi = Some b → bucketState b = eBucketStateInconsistent →
  removeEntry (Some en) c = Some (clear c) ∧
  (∀ lk, bucket lk = Some bi → insertInCache lk c = Some (lk, clear c)) ∧
  (∀ lk, bucket lk = Some bi →
         lockerStatus lk = eCacheEntryStatusMustCompute →
         destroyLocker lk c = Some (clear c)) ∧
  (entriesMap b !! k = None →
   get thread en c = Some (set_bucket (Some bi) (newLocker en), clear c)).
Proof.
  intros k bi Hb Hst.
  assert (bucketState b ≠ eBucketStateOk) as Hne by (by rewrite Hst).
  split; [|split; [|split]].
  - unfold removeEntry. fold k bi.
    by rewrite (BucketStateHandler_RAII_thrown bi c _ b).
  - intros lk Hlk. unfold insertInCache, insertInternal. rewrite Hlk. simpl.
    by rewrite (BucketStateHandler_RAII_thrown bi c _ b).
  - intros lk Hlk Hs. unfold destroyLocker. rewrite Hs, Hlk. simpl.
    by rewrite (BucketStateHandler_RAII_thrown bi c _ b).
  - intros Hk. unfold get, lookupAndSetStatus. simpl.
    unfold lookupAndSetStatusInternal at 1. simpl. fold k bi. rewrite Hb. simpl.
    unfold tryCacheLookupImpl. rewrite Hk. simpl.
    unfold lookupAndCreate, lookupAndSetStatusInternal. simpl. fold k bi.
    rewrite Hb. simpl. unfold tryCacheLookupImpl. rewrite Hk. simpl.
    by rewrite (BucketStateHandler_RAII_thrown bi c _ b).
Qed.

Lemma length_clear c : length (buckets (clear c)) = length (buckets c).
Proof. unfold clear. by rewrite length_createTileStorage; simpl; rewrite length_fmap. Qed.

(** X6.  After [Cache::clear] the cache holds no entry: every bucket is in
    state Ok with an empty index and an empty LRU list, the current size is
    0 and [hasCacheEntryForHash] answers false for every hash; the maximum
    size and the number of buckets are kept, and exactly one tile storage
    file exists when tile storage is on, none otherwise. *)
Theorem clear_leaves_empty_cache (c : CachePrivate) :
  length (buckets c) = Z.to_nat NATRON_CACHE_BUCKETS_COUNT →
  getCurrentSize (clear c) = 0 ∧
  (∀ k, hasCacheEntryForHash k (clear c) = Some false) ∧
  (∀ i b, getBucket (clear c) i = Some b →
          bucketState b = eBucketStateOk ∧ lruListFront b = None ∧
          lruListBack b = None ∧ entriesMap b = ∅) ∧
  getMaximumCacheSize (clear c) = getMaximumCacheSize c ∧
  length (buckets (clear c)) = length (buckets c) ∧
  tilesStorage (clear c) = (if useTileStorage c then 1 else 0)%nat.
Proof.
  intros Hlen. split; [apply getCurrentSize_clear|].
  split; [|split; [|split; [|split]]].
  - intros k. unfold hasCacheEntryForHash.
    destruct (getBucket_lt_Some (clear c)
                (Z.to_nat (getBucketCacheBucketIndex k))) as [b Hb].
    { rewrite length_clear, Hlen. apply getBucketCacheBucketIndex_lt. }
    rewrite Hb. simpl. apply getBucket_clear in Hb as (_&_&_&_&Hm).
    unfold tryCacheLookupImpl. rewrite Hm, lookup_empty.
    done.
  - intros i b Hb. apply getBucket_clear in Hb. tauto.
  - unfold clear, createTileStorage, getMaximumCacheSize. simpl.
    by destruct (useTileStorage c).
  - apply length_clear.
  - unfold clear, createTileStorage. simpl. by destruct (useTileStorage c).
Qed.

(** X7.  [insertInCache] from a locker whose reservation is gone (the cache
    was wiped in between) stores nothing: the cache is left as it was and
    the locker keeps its status.  From a locker whose entry has already
    been made Ready (its [computeThreadMagic] is 0), it only sets the locker
    to Cached. *)
Theorem insertInCache_without_reservation (lk : CacheEntryLockerPrivate)
    (bi : nat) (c : CachePrivate) (b : CacheBucketIPCData) :
  bucket lk = Some bi → getBucket c bi = Some b →
  bucketState b = eBucketStateOk →
  (entriesMap b !! lockerHash lk = None → insertInCache lk c = Some (lk, c)) ∧
  (∀ e, entriesMap b !! lockerHash lk = Some e → computeThreadMagic e = 0 →
        insertInCache lk c
        = Some (set_lockerStatus eCacheEntryStatusCached lk, c)).
Proof.
  intros Hlk Hb Hok. pose proof (getBucket_Some_lt _ _ _ Hb) as Hlt.
  split.
  - intros Hk. unfold insertInCache, insertInternal. rewrite Hlk. simpl.
    rewrite (RAII_scope_unchanged_at bi c b (eInsertRetCodeCreated, lk));
      [done..|].
    cbv zeta. unfold insertInternalScope.
    rewrite getBucket_setBucket_eq by done. simpl.
    unfold tryCacheLookupImpl. simpl. by rewrite Hk.
  - intros e He Hm. unfold insertInCache, insertInternal. rewrite Hlk. simpl.
    rewrite (RAII_scope_unchanged_at bi c b
               (eInsertRetCodeCreated,
                set_lockerStatus eCacheEntryStatusCached lk)); [done..|].
    cbv zeta. unfold insertInternalScope.
    rewrite getBucket_setBucket_eq by done. simpl.
    unfold tryCacheLookupImpl. simpl. rewrite He, Hm. done.
Qed.

Lemma set_status_id e : set_status (status e) e = e.
Proof. by destruct e as [? ? ? [? ? ?] ? ? ? ?]. Qed.

Lemma set_entriesMap_id b : set_entriesMap (entriesMap b) b = b.
Proof. by destruct b. Qed.

(** X8.  [Cache::get] of a key whose entry is Pending never changes the
    cache.  When the entry is being computed by another thread, or the
    payload allows several fetches per thread, the locker comes back in
    ComputationPending status; when the calling thread itself reserved the
    entry and the payload does not allow several fetches, the recursion is
    detected and the locker comes back in MustCompute status instead of
    waiting for itself. *)
Theorem get_of_pending_entry (thread : Z) (en : CacheEntryBase)
    (c : CachePrivate) (b : CacheBucketIPCData) (e : MemorySegmentEntryHeader) :
  let k := getHashKey en in
  let bi := Z.to_nat (getBucketCacheBucketIndex k) in
  let lk := set_bucket (Some bi) (newLocker en) in
  getBucket c bi = Some b → entriesMap b !! k = Some e →
  status e = eEntryStatusPending →
  (allowMultipleFetchForThread en = true ∨ computeThreadMagic e ≠ thread →
   get thread en c
   = Some (set_lockerStatus eCacheEntryStatusComputationPending lk, c)) ∧
  (allowMultipleFetchForThread en = false → computeThreadMagic e = thread →
   get thread en c = Some (lk, c)).
Proof.
  intros k bi lk Hb He Hst. split.
  - intros Hfor.
    assert (negb (allowMultipleFetchForThread en)
            && (computeThreadMagic e =? thread) = false) as Hrec.
    { destruct Hfor as [->|Hne]; [done|].
      apply andb_false_iff. right. by apply Z.eqb_neq. }
    unfold get, lookupAndSetStatus. simpl.
    unfold lookupAndSetStatusInternal. simpl. fold k bi. rewrite Hb. simpl.
    unfold tryCacheLookupImpl. rewrite He. simpl. rewrite Hst. simpl.
    rewrite Hrec. simpl. done.
  - intros Hno Hmagic.
    assert (negb (allowMultipleFetchForThread en)
            && (computeThreadMagic e =? thread) = true) as Hrec.
    { rewrite Hno. simpl. by apply Z.eqb_eq. }
    unfold get, lookupAndSetStatus. simpl.
    unfold lookupAndSetStatusInternal at 1. simpl. fold k bi. rewrite Hb. simpl.
    unfold tryCacheLookupImpl. rewrite He. simpl. rewrite Hst. simpl.
    rewrite Hrec. simpl.
    unfold lookupAndCreate, lookupAndSetStatusInternal. simpl. fold k bi.
    rewrite Hb. simpl. unfold tryCacheLookupImpl. rewrite He. simpl.
    rewrite Hst. simpl. rewrite Hrec. simpl.
    rewrite <- Hst, set_status_id, insert_id, set_entriesMap_id by done.
    by rewrite setBucket_id.
Qed.

(** ** Insertion, exactly *)

Lemma writeEntry_Some f k m e :
  m !! k = Some e → writeEntry f k m = Some (<[k := f e]> m).
Proof. intros H. unfold writeEntry. by rewrite H. Qed.

Lemma pushBackLRU_exact k b e :
  entriesMap b !! k = Some e →
  (∀ p, lruListBack b = Some p → p ≠ k ∧ is_Some (entriesMap b !! p)) →
  pushBackLRU k b
  = Some (mkBucket
            (match lruListBack b with
             | None => Some k | Some _ => lruListFront b end)
            (Some k) (version b) (bucketState b) (bucket_size b)
            (<[k := set_lruNode (mkLRUListNode (lruListBack b) None k) e]>
               (match lruListBack b with
                | None => entriesMap b
                | Some p => alter (set_next (Some k)) p (entriesMap b)
                end))
            (freeTiles b)).
Proof.
  intros He Hback. unfold pushBackLRU.
  rewrite (writeEntry_Some _ _ _ e) by done. simpl.
  destruct (lruListBack b) as [p|] eqn:Hbk; [|done].
  destruct (Hback p eq_refl) as [Hpk [ep Hep]].
  unfold insertLinkedListNode.
  rewrite (writeEntry_Some _ p _ ep) by (by rewrite lookup_insert_ne).
  simpl.
  erewrite (writeEntry_Some _ k)
    by (by rewrite lookup_insert_ne, lookup_insert_eq).
  simpl.
  erewrite (writeEntry_Some _ k) by (by rewrite lookup_insert_eq).
  unfold set_lruListBack, set_entriesMap. simpl. f_equal.
  match goal with
  | |- mkBucket _ _ _ _ _ ?m1 _ = mkBucket _ _ _ _ _ ?m2 _ =>
    assert (m1 = m2) as ->; [|done]
  end.
  apply map_eq. intros j.
  destruct (decide (j = k)) as [->|Hjk].
  { by rewrite !lookup_insert_eq. }
  rewrite !(lookup_insert_ne _ k j) by done.
  destruct (decide (j = p)) as [->|Hjp].
  - by rewrite lookup_insert_eq, lookup_alter_eq, Hep.
  - rewrite lookup_insert_ne, lookup_alter_ne by done.
    by rewrite lookup_insert_ne.
Qed.

Lemma insertInternalScope_exact lk bi c b e props :
  let k := lockerHash lk in
  getBucket c bi = Some b → entriesMap b !! k = Some e →
  computeThreadMagic e ≠ 0 →
  serializeCacheEntry lk e = (eInsertRetCodeCreated, set_properties props e) →
  (∀ p, lruListBack b = Some p → p ≠ k ∧ is_Some (entriesMap b !! p)) →
  insertInternalScope lk bi c
  = Some (eInsertRetCodeCreated, set_lockerStatus eCacheEntryStatusCached lk,
          setBucket bi (insertedBucket k props e b) c).
Proof.
  intros k Hb He Hmagic Hser Hback.
  unfold insertInternalScope. fold k. rewrite Hb. simpl.
  unfold tryCacheLookupImpl. rewrite He.
  apply Z.eqb_neq in Hmagic. rewrite Hmagic, Hser.
  rewrite decide_True by done.
  rewrite (pushBackLRU_exact k _ (set_properties props e)); cycle 1.
  { simpl. apply lookup_insert_eq. }
  { simpl. intros p Hp. destruct (Hback p Hp) as [Hpk Hsome].
    split; [done|]. by rewrite lookup_insert_ne. }
  simpl.
  erewrite (writeEntry_Some _ k) by (simpl; apply lookup_insert_eq).
  simpl. do 3 f_equal. unfold insertedBucket, set_entriesMap. simpl.
  match goal with
  | |- mkBucket _ _ _ _ _ ?m1 _ = mkBucket _ _ _ _ _ ?m2 _ =>
    assert (m1 = m2) as ->; [|done]
  end.
  change (set_status eEntryStatusReady _)
    with (insertedEntry k (lruListBack b) props e).
  destruct (lruListBack b) as [p|] eqn:Hbk; [|by rewrite !insert_insert_eq].
  destruct (Hback p eq_refl) as [Hpk _].
  apply map_eq. intros j.
  destruct (decide (j = k)) as [->|Hjk]; [by rewrite !lookup_insert_eq|].
  rewrite !(lookup_insert_ne _ k j) by done.
  destruct (decide (j = p)) as [->|Hjp].
  - rewrite !lookup_alter_eq. by rewrite lookup_insert_ne.
  - rewrite !lookup_alter_ne by done. by rewrite lookup_insert_ne.
Qed.

Lemma insertInCache_exact lk bi c b e props :
  let k := lockerHash lk in
  bucket lk = Some bi →
  getBucket c bi = Some b → bucketState b = eBucketStateOk →
  entriesMap b !! k = Some e → computeThreadMagic e ≠ 0 →
  serializeCacheEntry lk e = (eInsertRetCodeCreated, set_properties props e) →
  (∀ p, lruListBack b = Some p → p ≠ k ∧ is_Some (entriesMap b !! p)) →
  insertInCache lk c
  = Some (set_lockerStatus eCacheEntryStatusCached lk,
          setBucket bi (insertedBucket k props e b) c).
Proof.
  intros k Hlk Hb Hok He Hmagic Hser Hback.
  pose proof (getBucket_Some_lt _ _ _ Hb) as Hlt.
  unfold insertInCache, insertInternal. rewrite Hlk. simpl.
  unfold BucketStateHandler_RAII. rewrite Hb. simpl.
  rewrite decide_True by done.
  rewrite (insertInternalScope_exact lk bi _
             (set_bucketState eBucketStateInconsistent b) e props);
    [|by apply getBucket_setBucket_eq|done..].
  simpl. rewrite setBucket_setBucket.
  rewrite getBucket_setBucket_eq by done. simpl.
  rewrite setBucket_setBucket. do 3 f_equal.
  unfold insertedBucket. simpl. by rewrite Hok.
Qed.

(** ** Reservation, insertion and look-up *)

Lemma get_miss_exact thread en c b :
  let k := getHashKey en in
  let bi := Z.to_nat (getBucketCacheBucketIndex k) in
  getBucket c bi = Some b → bucketState b = eBucketStateOk →
  entriesMap b !! k = None →
  get thread en c
  = Some (set_bucket (Some bi) (newLocker en),
          setBucket bi
            (set_entriesMap (<[k := reservedEntry thread en]> (entriesMap b)) b)
            c).
Proof.
  intros k bi Hb Hst Hk.
  pose proof (getBucket_Some_lt _ _ _ Hb) as Hlt.
  unfold get, lookupAndSetStatus. simpl.
  unfold lookupAndSetStatusInternal at 1. simpl. fold k bi. rewrite Hb. simpl.
  unfold tryCacheLookupImpl. rewrite Hk. simpl.
  unfold lookupAndCreate, lookupAndSetStatusInternal. simpl. fold k bi.
  rewrite Hb. simpl. unfold tryCacheLookupImpl. rewrite Hk. simpl.
  unfold BucketStateHandler_RAII. rewrite Hb. simpl.
  rewrite decide_True by done. simpl.
  rewrite getBucket_setBucket_eq by done. simpl.
  rewrite getBucket_setBucket_eq by (by rewrite length_setBucket). simpl.
  unfold constructEntry. simpl. fold k. rewrite Hk.
  f_equal. f_equal.
  unfold setBucket, set_buckets. simpl. rewrite !list_insert_insert_eq.
  rewrite <- Hst. unfold reservedEntry, copyProcessLocalEntryToEntry.
  destruct b, persistent; reflexivity.
Qed.

(** A Ready entry at the tail of the LRU list whose deserialization
    succeeds: the look-up is a hit and leaves the cache as it is. *)
Lemma get_hit_most_recent thread en c b e :
  let k := getHashKey en in
  let bi := Z.to_nat (getBucketCacheBucketIndex k) in
  getBucket c bi = Some b → entriesMap b !! k = Some e →
  status e = eEntryStatusReady → lruListBack b = Some k →
  deserializeEntry e en k false = eShmEntryReadRetCodeOk →
  (persistent = false → nonPersistentEntry e = Some en) →
  get thread en c
  = Some (set_lockerStatus eCacheEntryStatusCached
            (set_bucket (Some bi) (newLocker en)), c).
Proof.
  intros k bi Hb He Hst Hbk Hde Hnp.
  unfold get, lookupAndSetStatus. simpl.
  unfold lookupAndSetStatusInternal. simpl. fold k bi. rewrite Hb. simpl.
  unfold tryCacheLookupImpl. rewrite He. simpl. rewrite Hst. simpl.
  unfold readFromSharedMemoryEntryImpl. rewrite He. simpl. rewrite Hde.
  rewrite decide_True by done.
  unfold touchLRU. rewrite decide_True by done. simpl.
  rewrite setBucket_id by done.
  unfold copyProcessLocalEntryFromEntry.
  destruct persistent; [done|]. rewrite Hnp by done. done.
Qed.

(** X9.  Round trip.  On a bucket in state Ok that does not hold the key, a
    [Cache::get] reserves the entry and answers MustCompute; [insertInCache]
    then makes it Ready and answers Cached; after that the key is present
    and every later [Cache::get] of it, from whatever thread, answers Cached
    and leaves the cache unchanged.  For the persistent cache this needs the
    payload to serialize and to deserialize from what it wrote; the thread
    identity must not be 0, the value [insertInternal] reads as "already
    inserted". *)
Theorem insert_then_get_is_cached (thread thread' : Z) (en : CacheEntryBase)
    (c : CachePrivate) (b : CacheBucketIPCData) (props : IPCPropertyMap) :
  let k := getHashKey en in
  let bi := Z.to_nat (getBucketCacheBucketIndex k) in
  getBucket c bi = Some b → bucketState b = eBucketStateOk →
  entriesMap b !! k = None →
  thread ≠ 0 →
  (∀ p, lruListBack b = Some p → is_Some (entriesMap b !! p)) →
  (persistent = true →
   toMemorySegment en ∅ = Some props ∧
   fromMemorySegment en false (setIPCProperty kNatronIPCPropertyHash k props)
     = fmsReturn eFromMemorySegmentRetCodeOk ∧
   getHashKeyForced en (setIPCProperty kNatronIPCPropertyHash k props) = k) →
  ∃ lk1 c1 lk2 c2 lk3,
    get thread en c = Some (lk1, c1) ∧
    lockerStatus lk1 = eCacheEntryStatusMustCompute ∧
    insertInCache lk1 c1 = Some (lk2, c2) ∧
    lockerStatus lk2 = eCacheEntryStatusCached ∧
    hasCacheEntryForHash k c2 = Some true ∧
    get thread' en c2 = Some (lk3, c2) ∧
    lockerStatus lk3 = eCacheEntryStatusCached.
Proof.
  intros k bi Hb Hok Hk Hthread Hback Hser.
  pose proof (getBucket_Some_lt _ _ _ Hb) as Hlt.
  set (lk1 := set_bucket (Some bi) (newLocker en)).
  set (e := reservedEntry thread en).
  set (b1 := set_entriesMap (<[k := e]> (entriesMap b)) b).
  set (c1 := setBucket bi b1 c).
  set (props' := if persistent
                 then setIPCProperty kNatronIPCPropertyHash k props else ∅).
  set (b2 := insertedBucket k props' e b1).
  assert (getBucket c1 bi = Some b1) as Hb1
    by (by apply getBucket_setBucket_eq).
  assert (insertInCache lk1 c1
          = Some (set_lockerStatus eCacheEntryStatusCached lk1,
                  setBucket bi b2 c1)) as Hins.
  { apply (insertInCache_exact lk1 bi c1 b1 e props'); try done.
    - apply lookup_insert_eq.
    - unfold serializeCacheEntry, props'. simpl.
      destruct persistent; [|done].
      destruct Hser as (-> & _); done.
    - intros p Hp. destruct (Hback p Hp) as [ep Hep].
      assert (p ≠ k) as Hne by (intros ->; simplify_eq).
      split; [done|]. simpl. rewrite lookup_insert_ne by done. eauto. }
  set (c2 := setBucket bi b2 c1).
  assert (getBucket c2 bi = Some b2) as Hb2.
  { apply getBucket_setBucket_eq. unfold c1. by rewrite length_setBucket. }
  assert (entriesMap b2 !! k
          = Some (insertedEntry k (lruListBack b1) props' e)) as He2
    by apply lookup_insert_eq.
  exists lk1, c1, (set_lockerStatus eCacheEntryStatusCached lk1), c2,
    (set_lockerStatus eCacheEntryStatusCached lk1).
  split; [by apply get_miss_exact|]. split; [done|].
  split; [exact Hins|]. split; [done|]. split.
  { unfold hasCacheEntryForHash. fold bi. rewrite Hb2. simpl.
    unfold tryCacheLookupImpl. rewrite He2. done. }
  split; [|done].
  apply (get_hit_most_recent thread' en c2 b2 _ Hb2 He2); try done.
  - unfold deserializeEntry, props'. simpl.
    destruct persistent; [|done].
    destruct Hser as (_ & Hfrom & Hforced); [done|].
    unfold getIPCProperty at 1, setIPCProperty at 1.
    rewrite lookup_insert_eq. fold k. rewrite Z.eqb_refl. simpl.
    rewrite Hfrom, Hforced, Z.eqb_refl. done.
  - intros Hp. simpl. unfold e, reservedEntry. by rewrite Hp.
Qed.

(** ** The LRU list under insertion and removal *)

Lemma lruLinked_live m pr l x :
  lruLinked m pr l → x ∈ l → is_Some (m !! x).
Proof.
  revert pr. induction l as [|y l IH]; intros pr H Hx.
  { by apply elem_of_nil in Hx. }
  destruct H as [(e&He&_) H]. apply elem_of_cons in Hx as [->|Hx]; eauto.
Qed.

Lemma lruLinked_ext m m' pr l :
  (∀ x, x ∈ l → m' !! x = m !! x) → lruLinked m pr l → lruLinked m' pr l.
Proof.
  revert pr. induction l as [|y l IH]; intros pr Hext H; [done|].
  destruct H as [(e&He&Hh&Hp&Hn) H]. split.
  - exists e. rewrite Hext by apply list_elem_of_here. done.
  - apply IH; [|done]. intros x Hx. apply Hext. by apply list_elem_of_further.
Qed.

Lemma last_cons_cons {A} (x y : A) l : last (x :: y :: l) = last (y :: l).
Proof. done. Qed.

Lemma last_elem_of {A} (l : list A) x : last l = Some x → x ∈ l.
Proof.
  induction l as [|y [|z l] IH]; [done|..].
  - intros [= ->]. apply list_elem_of_here.
  - rewrite last_cons_cons. intros H. apply elem_of_cons. right. by apply IH.
Qed.

Lemma lruLinked_snoc m pr l k ek :
  lruLinked m pr l → k ∉ l → NoDup l →
  hash (lruNode ek) = k → next (lruNode ek) = None →
  prev (lruNode ek) = match last l with Some p => Some p | None => pr end →
  lruLinked
    (<[k := ek]> (match last l with
                  | None => m
                  | Some p => alter (set_next (Some k)) p m
                  end))
    pr (l ++ [k]).
Proof.
  intros H Hk Hnd Hh Hn. revert pr H.
  induction l as [|x l IH]; intros pr H Hp.
  { simpl in *. split; [|done]. exists ek. by rewrite lookup_insert_eq. }
  destruct H as [(ex&Hex&Hhx&Hpx&Hnx) H].
  apply not_elem_of_cons in Hk as [Hkx Hk].
  apply NoDup_cons in Hnd as [Hxl Hnd].
  destruct l as [|y l].
  - simpl in *. split.
    + exists (set_next (Some k) ex).
      rewrite lookup_insert_ne, lookup_alter_eq, Hex by done. done.
    + split; [|done]. exists ek. by rewrite lookup_insert_eq.
  - rewrite last_cons_cons in *.
    assert (∃ p, last (y :: l) = Some p) as [p Hlast].
    { destruct (last (y :: l)) eqn:Hl; [eauto|]. by apply last_None in Hl. }
    assert (p ≠ x) as Hpne.
    { intros ->. apply Hxl. by apply last_elem_of. }
    split.
    + exists ex. rewrite Hlast.
      rewrite lookup_insert_ne, lookup_alter_ne by done. done.
    + apply (IH Hk Hnd (Some x) H). rewrite Hp. by rewrite Hlast.
Qed.

Lemma lruLinked_last m pr l k :
  lruLinked m pr (l ++ [k]) →
  ∃ e, m !! k = Some e ∧ hash (lruNode e) = k ∧ next (lruNode e) = None ∧
       prev (lruNode e) = match last l with Some p => Some p | None => pr end.
Proof.
  revert pr. induction l as [|x l IH]; intros pr H.
  { destruct H as [(e&He&Hh&Hp&Hn) _]. exists e. done. }
  destruct H as [_ H]. destruct (IH _ H) as (e&He&Hh&Hn&Hp).
  exists e. split; [done|]. split; [done|]. split; [done|].
  rewrite Hp. destruct l as [|y l]; [done|].
  rewrite last_cons_cons. destruct (last (y :: l)) eqn:Hlast; [done|].
  by apply last_None in Hlast.
Qed.

Lemma lruLinked_unsnoc m m' pr l k :
  lruLinked m pr (l ++ [k]) → NoDup (l ++ [k]) →
  (∀ j ej, j ∈ l → m !! j = Some ej →
           m' !! j = Some (if decide (last l = Some j)
                           then set_next None ej else ej)) →
  lruLinked m' pr l.
Proof.
  revert pr. induction l as [|x l IH]; intros pr H Hnd Hm'; [done|].
  destruct H as [(ex&Hex&Hhx&Hpx&Hnx) H].
  simpl in Hnd. apply NoDup_cons in Hnd as [Hxl Hnd].
  destruct l as [|y l].
  - split; [|done]. exists (set_next None ex).
    rewrite (Hm' x ex (list_elem_of_here _ _) Hex). simpl.
    rewrite decide_True by done. done.
  - split.
    + exists ex. rewrite (Hm' x ex (list_elem_of_here _ _) Hex).
      rewrite last_cons_cons.
      rewrite decide_False; [done|].
      intros Hl. apply last_elem_of in Hl. apply Hxl.
      apply elem_of_app. by left.
    + apply IH; [done..|]. intros j ej Hj Hej.
      rewrite (Hm' j ej (list_elem_of_further _ _ _ Hj) Hej).
      by rewrite last_cons_cons.
Qed.

Lemma serializeCacheEntry_snd lk e :
  snd (serializeCacheEntry lk e)
  = set_properties (properties (snd (serializeCacheEntry lk e))) e.
Proof.
  unfold serializeCacheEntry.
  destruct persistent; [destruct (toMemorySegment _ _)|]; simpl; try done.
  by destruct e.
Qed.

(** X10.  An insertion appends to the LRU list.  When the LRU list of the
    bucket holds the keys [l], least recently used first, and the locker's
    reserved entry is not among them, a successful [insertInCache] leaves
    the list holding [l] followed by the key, properly linked, with the
    entry Ready and its size added to the size of the bucket; no other
    bucket changes. *)
Theorem insertInCache_appends_to_lru (lk : CacheEntryLockerPrivate) (bi : nat)
    (c : CachePrivate) (b : CacheBucketIPCData) (e : MemorySegmentEntryHeader)
    (l : list Z) :
  let k := lockerHash lk in
  bucket lk = Some bi → getBucket c bi = Some b →
  bucketState b = eBucketStateOk →
  entriesMap b !! k = Some e → computeThreadMagic e ≠ 0 →
  fst (serializeCacheEntry lk e) = eInsertRetCodeCreated →
  lruListIs b l → k ∉ l →
  ∃ c' b' e',
    insertInCache lk c
      = Some (set_lockerStatus eCacheEntryStatusCached lk, c') ∧
    getBucket c' bi = Some b' ∧ lruListIs b' (l ++ [k]) ∧
    entriesMap b' !! k = Some e' ∧ status e' = eEntryStatusReady ∧
    bucket_size b' = U64_add (bucket_size b) (entry_size e) ∧
    ∀ j, j ≠ bi → getBucket c' j = getBucket c j.
Proof.
  intros k Hlk Hb Hok He Hmagic Hser (Hnd&Hfront&Hback&Hlinked) Hkl.
  pose proof (getBucket_Some_lt _ _ _ Hb) as Hlt.
  set (props := properties (snd (serializeCacheEntry lk e))).
  eexists _, _, _. split.
  { apply (insertInCache_exact lk bi c b e props); try done.
    - rewrite (surjective_pairing (serializeCacheEntry lk e)), Hser.
      by rewrite serializeCacheEntry_snd.
    - intros p Hp. rewrite Hback in Hp. apply last_elem_of in Hp.
      split; [by intros ->|]. by eapply lruLinked_live. }
  split; [by apply getBucket_setBucket_eq|].
  split; [|split; [apply lookup_insert_eq|split; [done|split; [done|]]]].
  2:{ intros j Hj. by apply getBucket_setBucket_ne. }
  unfold lruListIs, insertedBucket. simpl.
  split. { apply NoDup_app. repeat split; [done| |apply NoDup_singleton].
           intros x Hx ->%list_elem_of_singleton. done. }
  rewrite Hback, Hfront. split.
  { destruct (last l) eqn:Hl; [by destruct l|].
    by apply last_None in Hl as ->. }
  split. { by rewrite last_snoc. }
  apply lruLinked_snoc; try done. simpl. by destruct (last l).
Qed.

Lemma set_prev_same p ej : prev (lruNode ej) = p → set_prev p ej = ej.
Proof. intros <-. by destruct ej as [? ? ? [] ? ? ? ?]. Qed.

Lemma unlinkedNeighbour_tail n j ej :
  next n = None →
  unlinkedNeighbour n j ej
  = if decide (prev n = Some j) then set_next None ej else ej.
Proof.
  intros Hn. unfold unlinkedNeighbour. rewrite Hn.
  rewrite (decide_False (P := None = Some j)) by done.
  case_decide; [by apply set_prev_same|apply set_prev_set_next_eta].
Qed.

(** Deallocating the key at the tail of the LRU list, or a key that is not
    on the list and whose node is unlinked, leaves the list holding the
    other keys. *)
Lemma deallocateCacheEntryImpl_lru bi k c c' b e l :
  getBucket c bi = Some b → entriesMap b !! k = Some e →
  deallocateCacheEntryImpl bi k c = Some c' →
  lruListIs b (l ++ [k]) ∨
  (lruListIs b l ∧ (k ∉ l) ∧
   prev (lruNode e) = None ∧ next (lruNode e) = None) →
  ∃ b', getBucket c' bi = Some b' ∧ lruListIs b' l ∧
        entriesMap b' !! k = None ∧ bucketState b' = bucketState b.
Proof.
  intros Hb He Hd Hcase.
  assert (NoDup l ∧ (k ∉ l) ∧ next (lruNode e) = None ∧
          prev (lruNode e) = (if decide (lruListBack b = Some k)
                              then last l else None) ∧
          lruListFront b = (if decide (lruListBack b = Some k)
                            then head (l ++ [k]) else head l) ∧
          (lruListBack b ≠ Some k → lruListBack b = last l) ∧
          (lruListBack b = Some k → lruLinked (entriesMap b) None (l ++ [k])) ∧
          (lruListBack b ≠ Some k → lruLinked (entriesMap b) None l))
    as (Hnd & Hkl & Hnx & Hpv & Hfr & Hbk & HlinkA & HlinkB).
  { destruct Hcase as [(Hnd&Hf&Hbk&Hl)|((Hnd&Hf&Hbk&Hl)&Hkl&Hp&Hn)].
    - apply NoDup_app in Hnd as (Hnd&Hdisj&_).
      assert (k ∉ l) as Hkl.
      { intros Hk. apply (Hdisj k Hk). apply list_elem_of_here. }
      rewrite last_snoc in Hbk.
      destruct (lruLinked_last _ _ _ _ Hl) as (e1&He1&_&Hn1&Hp1).
      rewrite He in He1. injection He1 as <-.
      rewrite !(decide_True (P := lruListBack b = Some k)) by done.
      split; [done|]. split; [done|]. split; [done|].
      split. { rewrite Hp1. by destruct (last l). }
      split; [done|]. split; [by intros Hne|]. split; [done|by intros Hne].
    - assert (lruListBack b ≠ Some k) as Hne.
      { rewrite Hbk. intros Hl'. by apply last_elem_of in Hl'. }
      rewrite !(decide_False (P := lruListBack b = Some k)) by done.
      split; [done|]. split; [done|]. split; [done|]. split; [done|].
      split; [done|]. split; [done|]. split; [by intros Hc|done]. }
  assert (prev (lruNode e) ≠ Some k) as Hpk.
  { rewrite Hpv. case_decide; [|done].
    intros Hl. by apply last_elem_of in Hl. }
  assert (next (lruNode e) ≠ Some k) as Hnk by (by rewrite Hnx).
  destruct (deallocateCacheEntryImpl_spec _ _ _ _ Hd)
    as (b0&e0&b'&Hb0&He0&Hb'&_&_&_&_&Hnone&_&Hback'&Hfront'&_&Hst&_).
  rewrite Hb in Hb0. injection Hb0 as <-.
  rewrite He in He0. injection He0 as <-.
  destruct (deallocateCacheEntryImpl_lookup _ _ _ _ _ _ Hb He Hpk Hnk Hd)
    as (b''&Hb''&Hlk).
  rewrite Hb' in Hb''. injection Hb'' as <-.
  exists b'. split; [done|]. split; [|done].
  split; [done|].
  destruct (decide (lruListBack b = Some k)) as [Hisback|Hnotback].
  - rewrite Hback', Hfront', Hpv, Hfr.
    split.
    { destruct l as [|x l']; simpl.
      - by rewrite decide_True.
      - rewrite decide_False; [done|]. intros [= ->]. apply Hkl.
        apply list_elem_of_here. }
    split; [done|].
    apply (lruLinked_unsnoc (entriesMap b) _ None l k (HlinkA Hisback)).
    { apply NoDup_app. repeat split; [done| |apply NoDup_singleton].
      intros x Hx ->%list_elem_of_singleton. done. }
    intros j ej Hj Hej. rewrite Hlk by (by intros ->). rewrite Hej. simpl.
    rewrite unlinkedNeighbour_tail by done. rewrite Hpv. done.
  - rewrite Hback', Hfront', Hfr.
    split.
    { rewrite decide_False; [done|].
      destruct l as [|x l']; [done|]. simpl. intros [= ->].
      apply Hkl. apply list_elem_of_here. }
    split; [by apply Hbk|].
    apply (lruLinked_ext (entriesMap b)); [|by apply HlinkB].
    intros x Hx. rewrite Hlk by (by intros ->).
    destruct (entriesMap b !! x) as [ex|]; [|done]. simpl. f_equal.
    rewrite unlinkedNeighbour_tail by done. rewrite Hpv.
    by rewrite decide_False.
Qed.

(** X11.  Removing the most recently used entry keeps the LRU list in
    shape: when the list of the bucket holds the keys [l] followed by the
    key of the entry, [removeEntry] succeeds and leaves the list holding
    [l], properly linked, with the key erased from the index. *)
Theorem removeEntry_most_recent_keeps_lru (en : CacheEntryBase)
    (c : CachePrivate) (b : CacheBucketIPCData) (l : list Z) :
  let k := getHashKey en in
  let bi := Z.to_nat (getBucketCacheBucketIndex k) in
  length (buckets c) = Z.to_nat NATRON_CACHE_BUCKETS_COUNT →
  getBucket c bi = Some b → bucketState b = eBucketStateOk →
  lruListIs b (l ++ [k]) →
  ∃ c' b', removeEntry (Some en) c = Some c' ∧
           getBucket c' bi = Some b' ∧ lruListIs b' l ∧
           entriesMap b' !! k = None ∧ bucketState b' = eBucketStateOk.
Proof.
  intros k bi Hlen Hb Hok Hlru.
  pose proof (getBucket_Some_lt _ _ _ Hb) as Hlt.
  pose proof Hlru as (Hnd&_&_&Hlinked).
  destruct (lruLinked_last _ _ _ _ Hlinked) as (e&He&_&Hnx&Hpv).
  set (bI := set_bucketState eBucketStateInconsistent b).
  set (cI := setBucket bi bI c).
  assert (getBucket cI bi = Some bI) as HbI
    by (by apply getBucket_setBucket_eq).
  destruct (deallocateCacheEntryImpl_total bi k cI bI e) as [c1 Hd];
    [by unfold cI; rewrite length_setBucket|done|done|..].
  { intros p Hp. rewrite Hpv in Hp.
    destruct (last l) as [q|] eqn:Hl; [|done]. injection Hp as <-.
    apply (lruLinked_live _ _ _ _ Hlinked).
    apply elem_of_app. left. by apply last_elem_of. }
  { intros x Hx. by rewrite Hnx in Hx. }
  destruct (deallocateCacheEntryImpl_lru bi k cI c1 bI e l HbI He Hd)
    as (b1&Hb1&Hlru1&Hnone&Hst1); [by left|].
  exists (setBucket bi (set_bucketState eBucketStateOk b1) c1),
    (set_bucketState eBucketStateOk b1).
  split.
  { unfold removeEntry. fold k bi. unfold BucketStateHandler_RAII.
    rewrite Hb. simpl. rewrite decide_True by done. fold bI cI.
    rewrite HbI. simpl. unfold tryCacheLookupImpl. simpl. rewrite He.
    rewrite Hd. simpl. rewrite Hb1. done. }
  split. { apply getBucket_setBucket_eq. by eapply getBucket_Some_lt. }
  done.
Qed.

(** X12.  Dropping a reservation leaves the LRU list alone: when a locker
    in MustCompute status is destroyed and its entry, never inserted, is
    not on the LRU list (its node is unlinked), the entry is erased from the
    index and the list of the bucket holds the same keys as before. *)
Theorem destroyLocker_keeps_lru (lk : CacheEntryLockerPrivate) (bi : nat)
    (c : CachePrivate) (b : CacheBucketIPCData) (e : MemorySegmentEntryHeader)
    (l : list Z) :
  let k := lockerHash lk in
  length (buckets c) = Z.to_nat NATRON_CACHE_BUCKETS_COUNT →
  lockerStatus lk = eCacheEntryStatusMustCompute → bucket lk = Some bi →
  getBucket c bi = Some b → bucketState b = eBucketStateOk →
  entriesMap b !! k = Some e →
  prev (lruNode e) = None → next (lruNode e) = None →
  lruListIs b l → k ∉ l →
  ∃ c' b', destroyLocker lk c = Some c' ∧
           getBucket c' bi = Some b' ∧ lruListIs b' l ∧
           entriesMap b' !! k = None ∧ bucketState b' = eBucketStateOk.
Proof.
  intros k Hlen Hst Hlk Hb Hok He Hpv Hnx Hlru Hkl.
  pose proof (getBucket_Some_lt _ _ _ Hb) as Hlt.
  set (bI := set_bucketState eBucketStateInconsistent b).
  set (cI := setBucket bi bI c).
  assert (getBucket cI bi = Some bI) as HbI
    by (by apply getBucket_setBucket_eq).
  destruct (deallocateCacheEntryImpl_total bi k cI bI e) as [c1 Hd];
    [by unfold cI; rewrite length_setBucket|done|done|..].
  { intros p Hp. by rewrite Hpv in Hp. }
  { intros x Hx. by rewrite Hnx in Hx. }
  destruct (deallocateCacheEntryImpl_lru bi k cI c1 bI e l HbI He Hd)
    as (b1&Hb1&Hlru1&Hnone&Hst1); [by right|].
  exists (setBucket bi (set_bucketState eBucketStateOk b1) c1),
    (set_bucketState eBucketStateOk b1).
  split.
  { unfold destroyLocker. rewrite Hst, Hlk. simpl.
    unfold BucketStateHandler_RAII.
    rewrite Hb. simpl. rewrite decide_True by done. fold bI cI.
    rewrite HbI. simpl. unfold tryCacheLookupImpl. simpl. fold k. rewrite He.
    rewrite Hd. simpl. rewrite Hb1. done. }
  split. { apply getBucket_setBucket_eq. by eapply getBucket_Some_lt. }
  done.
Qed.

(** ** Tile storage *)

Lemma createTileStorage_getBucket c i b :
  useTileStorage c = true → getBucket c i = Some b →
  getBucket (createTileStorage c) i
  = Some (set_freeTiles
            (seedFreeTiles i (Z.of_nat (tilesStorage c)) (freeTiles b)) b).
Proof.
  unfold createTileStorage, getBucket. intros -> Hb. simpl.
  rewrite list_lookup_imap, Hb. done.
Qed.

Lemma elem_of_seedFreeTiles i f free t :
  t ∈ seedFreeTiles i f free ↔
  t ∈ free ∨ ∃ idx, t = encodeTileIndex idx f ∧
                    256 * Z.of_nat i ≤ idx < 256 * Z.of_nat i + 256.
Proof.
  unfold seedFreeTiles, NATRON_NUM_TILES_PER_BUCKET_FILE.
  rewrite elem_of_union, elem_of_list_to_set, list_elem_of_fmap.
  split; (intros [?|(idx&->&Hidx)]; [by left|right]); exists idx;
    (split; [done|]); revert Hidx; rewrite elem_of_seqZ; lia.
Qed.

(** X13.  A new storage file has [NATRON_NUM_TILES_PER_FILE] tiles, and
    [createTileStorage] hands each of them to exactly one bucket: the tile
    of index [idx] becomes free in bucket [idx / 256] and in no other (apart
    from buckets that already listed that id as free).  The number of
    storage files grows by one. *)
Theorem createTileStorage_distributes_tiles (c : CachePrivate) (i : nat)
    (b : CacheBucketIPCData) (idx : Z) :
  let f := Z.of_nat (tilesStorage c) in
  useTileStorage c = true → f < 2 ^ 32 →
  (i < Z.to_nat NATRON_CACHE_BUCKETS_COUNT)%nat →
  getBucket c i = Some b →
  0 ≤ idx < NATRON_NUM_TILES_PER_FILE →
  ∃ b', getBucket (createTileStorage c) i = Some b' ∧
        (encodeTileIndex idx f ∈ freeTiles b' ↔
         encodeTileIndex idx f ∈ freeTiles b ∨ idx / 256 = Z.of_nat i) ∧
        tilesStorage (createTileStorage c) = S (tilesStorage c).
Proof.
  intros f Huse Hf Hi Hb Hidx.
  unfold NATRON_NUM_TILES_PER_FILE, NATRON_NUM_TILES_PER_BUCKET_FILE,
    NATRON_CACHE_BUCKETS_COUNT in *.
  eexists. split; [by apply createTileStorage_getBucket|].
  split; [|by unfold createTileStorage; rewrite Huse].
  simpl. fold f. rewrite elem_of_seedFreeTiles.
  split; (intros [?|H]; [by left|right]).
  - destruct H as (idx'&Heq&Hr).
    assert (idx = idx') as <-.
    { assert (getTileIndex (encodeTileIndex idx f)
              = getTileIndex (encodeTileIndex idx' f)) as Hg by (by rewrite Heq).
      rewrite !getTileIndex_encodeTileIndex in Hg by lia. congruence. }
    symmetry. apply Z.div_unique with (r := idx - 256 * Z.of_nat i); lia.
  - exists idx. split; [done|].
    pose proof (Z.div_mod idx 256). pose proof (Z.mod_pos_bound idx 256). lia.
Qed.

(** ** Releasing tiles *)

Lemma eraseFirst_NoDup t l :
  NoDup l →
  NoDup (eraseFirst t l) ∧ ∀ x, x ∈ eraseFirst t l ↔ x ∈ l ∧ x ≠ t.
Proof.
  induction 1 as [|y l Hy Hnd IH]; simpl.
  { split; [constructor|]. intros x. rewrite elem_of_nil. tauto. }
  destruct IH as [IH1 IH2]. case_decide as Hyt.
  - subst y. split; [done|]. intros x. rewrite elem_of_cons.
    split; [intros Hx; split; [by right|by intros ->]|].
    intros [[->|Hx] Hne]; done.
  - split.
    + constructor; [|done]. rewrite IH2. tauto.
    + intros x. rewrite !elem_of_cons, IH2.
      split; [intros [->|[? ?]]; split; auto|].
      intros [[->|Hx] Hne]; auto.
Qed.

Lemma foldl_eraseFirst_NoDup cs l :
  NoDup l →
  NoDup (foldl (λ l t, eraseFirst t l) l cs) ∧
  ∀ x, x ∈ foldl (λ l t, eraseFirst t l) l cs ↔ x ∈ l ∧ x ∉ cs.
Proof.
  revert l. induction cs as [|t cs IH]; intros l Hnd; simpl.
  { split; [done|]. intros x. rewrite elem_of_nil. tauto. }
  destruct (eraseFirst_NoDup t l Hnd) as [H1 H2].
  destruct (IH _ H1) as [H3 H4]. split; [done|].
  intros x. rewrite H4, H2, not_elem_of_cons. tauto.
Qed.

Lemma releaseTilesLoop_frame h ls cs c c' :
  releaseTilesLoop h ls cs c = Some c' →
  length (buckets c') = length (buckets c) ∧
  ∀ j b, getBucket c j = Some b →
         ∃ b', getBucket c' j = Some b' ∧ sameButFreeTiles b b'.
Proof.
  revert cs c. induction ls as [|li ls IH]; intros cs c H; simpl in H.
  { injection H as <-. split; [done|]. eauto using sameButFreeTiles_refl. }
  destruct cs as [|ci cs].
  { injection H as <-. split; [done|]. eauto using sameButFreeTiles_refl. }
  revert H. generalize (Z.to_nat (getBucketIndexForTile h li)). intros i H.
  destruct (getBucket c i) as [tb|] eqn:Htb; [|done]. simpl in H.
  apply IH in H as [Hlen H]. rewrite length_setBucket in Hlen.
  split; [done|]. intros j b Hj.
  pose proof (getBucket_Some_lt _ _ _ Htb) as Hlt.
  destruct (decide (i = j)) as [->|Hne].
  - rewrite Hj in Htb. injection Htb as ->.
    destruct (H j (set_freeTiles ({[ci]} ∪ freeTiles tb) tb)) as (b'&Hb'&Hs);
      [by apply getBucket_setBucket_eq|].
    exists b'. split; [done|].
    eapply sameButFreeTiles_trans; [|exact Hs].
    repeat split; try done. simpl. apply union_subseteq_r.
  - apply H. by rewrite getBucket_setBucket_ne.
Qed.

Lemma releaseTilesLoop_total h ls cs c :
  length (buckets c) = 256%nat → is_Some (releaseTilesLoop h ls cs c).
Proof.
  revert cs c. induction ls as [|li ls IH]; intros cs c Hlen; simpl; [eauto|].
  destruct cs as [|ci cs]; [eauto|].
  pose proof (getBucketCacheBucketIndex_lt (U64_add h li)) as Hlt.
  unfold getBucketIndexForTile. revert Hlt.
  generalize (Z.to_nat (getBucketCacheBucketIndex (U64_add h li))).
  intros i Hlt.
  destruct (getBucket_lt_Some c i) as [tb ->]; [lia|]. simpl.
  apply IH. by rewrite length_setBucket.
Qed.

Lemma releaseTilesLoop_elem h ls cs c c' i li ci :
  releaseTilesLoop h ls cs c = Some c' →
  ls !! i = Some li → cs !! i = Some ci →
  ∃ tb, getBucket c' (Z.to_nat (getBucketIndexForTile h li)) = Some tb ∧
        ci ∈ freeTiles tb.
Proof.
  revert cs c i. induction ls as [|l0 ls IH]; intros cs c i H Hl Hc; [done|].
  destruct cs as [|c0 cs]; [done|]. simpl in H.
  destruct (getBucket c (Z.to_nat (getBucketIndexForTile h l0))) as [tb|] eqn:Htb;
    [|done]. simpl in H.
  destruct i as [|i]; simpl in Hl, Hc.
  - injection Hl as ->. injection Hc as ->.
    apply releaseTilesLoop_frame in H as [_ H].
    destruct (H (Z.to_nat (getBucketIndexForTile h li))
                (set_freeTiles ({[ci]} ∪ freeTiles tb) tb)) as (b'&Hb'&Hs).
    { apply getBucket_setBucket_eq. by eapply getBucket_Some_lt. }
    exists b'. split; [done|].
    destruct Hs as (_&_&_&_&_&_&Hsub). simpl in Hsub.
    apply Hsub. apply elem_of_union. left. by apply elem_of_singleton.
  - by eapply IH.
Qed.

Lemma getCurrentSize_same_sizes c c' :
  length (buckets c') = length (buckets c) →
  (∀ j b, getBucket c j = Some b →
          ∃ b', getBucket c' j = Some b' ∧ bucket_size b' = bucket_size b) →
  getCurrentSize c' = getCurrentSize c.
Proof.
  intros Hlen H. rewrite !getCurrentSize_sumZ. do 2 f_equal.
  apply list_eq. intros j. rewrite !list_lookup_fmap.
  destruct (buckets c !! j) as [b|] eqn:Hb.
  - destruct (H j b Hb) as (b'&Hb'&Hs). unfold getBucket in Hb'.
    rewrite Hb'. simpl. by rewrite Hs.
  - apply lookup_ge_None in Hb. rewrite <- Hlen in Hb.
    apply lookup_ge_None in Hb. by rewrite Hb.
Qed.

(** X14.  [releaseTiles], given as many cache ids as local indices and at
    least one, puts every released id in the free set of bucket
    [getBucketIndexForTile(hash, local index)] and takes the ids out of the
    tile list of the entry; but it leaves the recorded size of every bucket,
    hence the current size of the cache, as it was: the bytes billed when
    the tiles were allocated are not given back. *)
Theorem releaseTiles_frees_without_unbilling (en : CacheEntryBase)
    (ls cs : list Z) (c : CachePrivate) (b : CacheBucketIPCData) :
  let k := getHashKey en in
  let bi := Z.to_nat (getBucketCacheBucketIndex k) in
  length (buckets c) = Z.to_nat NATRON_CACHE_BUCKETS_COUNT →
  getBucket c bi = Some b →
  ls ≠ [] → length ls = length cs →
  ∃ c' b',
    releaseTiles en ls cs c = Some c' ∧ getBucket c' bi = Some b' ∧
    (∀ i li ci, ls !! i = Some li → cs !! i = Some ci →
       ∃ tb, getBucket c' (Z.to_nat (getBucketIndexForTile k li)) = Some tb ∧
             ci ∈ freeTiles tb) ∧
    (∀ j bj, getBucket c j = Some bj →
       ∃ bj', getBucket c' j = Some bj' ∧
              bucket_size bj' = bucket_size bj ∧
              freeTiles bj ⊆ freeTiles bj') ∧
    getCurrentSize c' = getCurrentSize c ∧
    (∀ e, entriesMap b !! k = Some e → NoDup (tileIndices e) →
       ∃ e', entriesMap b' !! k = Some e' ∧ entry_size e' = entry_size e ∧
             ∀ t, t ∈ tileIndices e' ↔ t ∈ tileIndices e ∧ t ∉ cs).
Proof.
  intros k bi Hlen Hb Hne Hl.
  pose proof (getBucket_Some_lt _ _ _ Hb) as Hlt.
  unfold releaseTiles. fold k bi.
  rewrite bool_decide_eq_false_2 by done.
  rewrite Hl, Nat.eqb_refl. simpl. rewrite Hb. simpl.
  set (c1 := match tryCacheLookupImpl k b with
             | Some e => _ | None => c end).
  assert (length (buckets c1) = length (buckets c) ∧
          ∃ b1, getBucket c1 bi = Some b1 ∧
                bucket_size b1 = bucket_size b ∧ freeTiles b1 = freeTiles b ∧
                (∀ e, entriesMap b !! k = Some e →
                      entriesMap b1 !! k
                      = Some (set_tileIndices
                                (foldl (λ l t, eraseFirst t l)
                                       (tileIndices e) cs) e)) ∧
                ∀ j, j ≠ bi → getBucket c1 j = getBucket c j)
    as (Hlen1 & b1 & Hb1 & Hs1 & Hf1 & He1 & Hoth1).
  { unfold c1, tryCacheLookupImpl. destruct (entriesMap b !! k) as [e|] eqn:He.
    - split; [apply length_setBucket|]. eexists.
      split; [by apply getBucket_setBucket_eq|]. split; [done|]. split; [done|].
      split. { intros e0 [= <-]. simpl. apply lookup_insert_eq. }
      intros j Hj. by apply getBucket_setBucket_ne.
    - split; [done|]. exists b. done. }
  destruct (releaseTilesLoop_total k ls cs c1) as [c' Hc'].
  { by rewrite Hlen1, Hlen. }
  rewrite Hc'.
  pose proof (releaseTilesLoop_frame _ _ _ _ _ Hc') as [Hlen' Hframe].
  destruct (Hframe bi b1 Hb1) as (b'&Hb'&Hsame).
  exists c', b'. split; [done|]. split; [done|].
  split. { intros i li ci Hli Hci. by eapply releaseTilesLoop_elem. }
  assert (∀ j bj, getBucket c j = Some bj →
            ∃ bj', getBucket c' j = Some bj' ∧
                   bucket_size bj' = bucket_size bj ∧
                   freeTiles bj ⊆ freeTiles bj') as Hall.
  { intros j bj Hj. destruct (decide (j = bi)) as [->|Hjne].
    - rewrite Hb in Hj. injection Hj as <-. exists b'. split; [done|].
      destruct Hsame as (_&_&_&_&Hsz&_&Hsub).
      split; [congruence|]. by rewrite <- Hf1.
    - rewrite <- Hoth1 in Hj by done.
      destruct (Hframe j bj Hj) as (bj'&Hbj'&(_&_&_&_&Hsz&_&Hsub)).
      exists bj'. done. }
  split; [exact Hall|]. split.
  { apply getCurrentSize_same_sizes; [congruence|].
    intros j bj Hj. destruct (Hall j bj Hj) as (bj'&?&?&_). eauto. }
  intros e He Hnd. destruct Hsame as (_&_&_&_&_&Hm&_).
  eexists. split; [rewrite Hm; by apply He1|]. split; [done|].
  simpl. by apply foldl_eraseFirst_NoDup.
Qed.

Lemma maximumSize_clear c : maximumSize (clear c) = maximumSize c.
Proof. unfold clear, createTileStorage. simpl. by destruct (useTileStorage c). Qed.

(** ** Waiting for a pending entry *)

(** A look-up of a Pending entry leaves the cache as it is; the locker
    waits unless a recursion is detected or the timeout has expired. *)
Lemma lookupAndSetStatus_pending thread ts to lk c bi b e :
  bucket lk = Some bi → getBucket c bi = Some b →
  entriesMap b !! lockerHash lk = Some e → status e = eEntryStatusPending →
  lookupAndSetStatus thread ts to lk c
  = Some (set_lockerStatus
            (if negb (negb (allowMultipleFetchForThread (processLocalEntry lk))
                      && (computeThreadMagic e =? thread))
                && ((to =? 0) || (ts <? to))
             then eCacheEntryStatusComputationPending
             else eCacheEntryStatusMustCompute) lk, c).
Proof.
  intros Hlk Hb He Hst.
  unfold lookupAndSetStatus. rewrite Hlk.
  unfold lookupAndSetStatusInternal at 1. simpl. rewrite Hlk. simpl.
  rewrite Hb. simpl. unfold tryCacheLookupImpl. rewrite He. simpl.
  rewrite Hst. simpl.
  destruct (negb (negb (allowMultipleFetchForThread (processLocalEntry lk))
                  && (computeThreadMagic e =? thread))
            && ((to =? 0) || (ts <? to))) eqn:Hw; [done|].
  simpl.
  unfold lookupAndCreate, lookupAndSetStatusInternal. simpl. rewrite Hlk. simpl.
  rewrite Hb. simpl. unfold tryCacheLookupImpl. rewrite He. simpl.
  rewrite Hst. simpl. rewrite Hw. simpl.
  rewrite <- Hst, set_status_id, insert_id, set_entriesMap_id by done.
  by rewrite setBucket_id.
Qed.

Lemma waitLoop_takes_over scaleWait thread timeout c bi b e k ple :
  getBucket c bi = Some b → entriesMap b !! k = Some e →
  status e = eEntryStatusPending →
  0 < timeout < 2 ^ 62 →
  (∀ t, 0 < t → t ≤ scaleWait t ≤ 2 * t) →
  ∀ fuel ts tw lk,
    bucket lk = Some bi → lockerHash lk = k → processLocalEntry lk = ple →
    0 ≤ ts → 0 < tw ≤ ts + 20 →
    (ts < timeout → (Z.to_nat (timeout - ts) + 2 ≤ fuel)%nat) →
    (1 ≤ fuel)%nat →
    waitLoop scaleWait fuel thread timeout ts tw lk c
    = Some (waitReturned (set_lockerStatus eCacheEntryStatusMustCompute lk) c).
Proof.
  intros Hb He Hst Hto Hscale.
  induction fuel as [|fuel IH]; intros ts tw lk Hlk Hk Hple Hts Htw Hfuel H1;
    [lia|].
  simpl. subst k.
  rewrite (lookupAndSetStatus_pending thread ts timeout lk c bi b e) by done.
  destruct (negb (negb (allowMultipleFetchForThread (processLocalEntry lk))
                  && (computeThreadMagic e =? thread))
            && ((timeout =? 0) || (ts <? timeout))) eqn:Hw; simpl; [|done].
  apply andb_true_iff in Hw as [_ Hw].
  assert (ts < timeout) as Hlt.
  { apply orb_true_iff in Hw as [Hz|Hlt]; [apply Z.eqb_eq in Hz; lia|].
    by apply Z.ltb_lt. }
  assert (U64_add ts tw = ts + tw) as ->.
  { unfold U64_add, wrap64. apply Z.mod_small. lia. }
  specialize (Hfuel Hlt).
  rewrite IH; [done|done|done|done|lia|..].
  - destruct ((timeout =? 0) || (ts + tw <? timeout)).
    + specialize (Hscale tw). lia.
    + lia.
  - intros Hlt1. lia.
  - lia.
Qed.

(** X16.  Waiting ends.  When the entry a locker waits for stays Pending
    (the thread computing it never inserts it), [waitForPendingEntry] with a
    timeout of [timeout > 0] milliseconds returns after at most
    [timeout + 2] look-ups with the locker in MustCompute status, having
    taken the entry over, and the cache is left as it was.  The polling
    interval may grow in any way between once and twice its value. *)
Theorem waitForPendingEntry_takes_over (scaleWait : Z → Z) (fuel : nat)
    (thread timeout : Z) (lk : CacheEntryLockerPrivate) (c : CachePrivate)
    (bi : nat) (b : CacheBucketIPCData) (e : MemorySegmentEntryHeader) :
  bucket lk = Some bi → getBucket c bi = Some b →
  entriesMap b !! lockerHash lk = Some e → status e = eEntryStatusPending →
  0 < timeout < 2 ^ 62 →
  (∀ t, 0 < t → t ≤ scaleWait t ≤ 2 * t) →
  (Z.to_nat timeout + 2 ≤ fuel)%nat →
  waitForPendingEntry scaleWait fuel thread timeout lk c
  = Some (waitReturned (set_lockerStatus eCacheEntryStatusMustCompute lk) c).
Proof.
  intros Hlk Hb He Hst Hto Hscale Hfuel. unfold waitForPendingEntry.
  apply (waitLoop_takes_over scaleWait thread timeout c bi b e
           (lockerHash lk) (processLocalEntry lk)); try done; lia.
Qed.

(** X17.  Without a timeout the wait never gives up: while the entry stays
    Pending for another thread (or the payload allows several fetches per
    thread), [waitForPendingEntry] with [timeout = 0] is still waiting after
    any number of look-ups. *)
Theorem waitForPendingEntry_without_timeout_keeps_waiting
    (scaleWait : Z → Z) (fuel : nat) (thread : Z)
    (lk : CacheEntryLockerPrivate) (c : CachePrivate) (bi : nat)
    (b : CacheBucketIPCData) (e : MemorySegmentEntryHeader) :
  bucket lk = Some bi → getBucket c bi = Some b →
  entriesMap b !! lockerHash lk = Some e → status e = eEntryStatusPending →
  allowMultipleFetchForThread (processLocalEntry lk) = true
  ∨ computeThreadMagic e ≠ thread →
  waitForPendingEntry scaleWait fuel thread 0 lk c = Some waitOutOfFuel.
Proof.
  intros Hlk Hb He Hst Hfor. unfold waitForPendingEntry.
  generalize 0 at 2. generalize 20. revert lk Hlk He Hfor.
  induction fuel as [|fuel IH]; intros lk Hlk He Hfor tw ts; [done|].
  simpl.
  rewrite (lookupAndSetStatus_pending thread ts 0 lk c bi b e) by done.
  assert (negb (allowMultipleFetchForThread (processLocalEntry lk))
          && (computeThreadMagic e =? thread) = false) as ->.
  { destruct Hfor as [->|Hne]; [done|].
    apply andb_false_iff. right. by apply Z.eqb_neq. }
  simpl. by apply IH.
Qed.

(** ** Several callers of one key *)




(** ** Tile allocation *)

Lemma foldr_min_elem x xs : foldr Z.min x xs ∈ x :: xs.
Proof.
  induction xs as [|y xs IH]; simpl; [apply list_elem_of_here|].
  destruct (Z.min_spec y (foldr Z.min x xs)) as [[_ ->]|[_ ->]].
  - apply list_elem_of_further, list_elem_of_here.
  - apply elem_of_cons in IH as [->|IH]; [apply list_elem_of_here|].
    by do 2 apply list_elem_of_further.
Qed.

Lemma firstFreeTile_elem (s : gset Z) :
  s ≠ ∅ → ∃ t, firstFreeTile s = Some t ∧ t ∈ s.
Proof.
  intros Hne. unfold firstFreeTile.
  destruct (elements s) as [|x xs] eqn:Hel.
  { by apply elements_empty_inv, leibniz_equiv in Hel. }
  eexists. split; [done|]. apply elem_of_elements. rewrite Hel.
  pose proof (foldr_min_elem x xs) as H.
  apply elem_of_cons in H as [->|H].
  - apply list_elem_of_here.
  - by apply list_elem_of_further.
Qed.

Lemma getBucket_createTileStorage_inv c j b' :
  useTileStorage c = true →
  getBucket (createTileStorage c) j = Some b' →
  ∃ b, getBucket c j = Some b ∧
       b' = set_freeTiles
              (seedFreeTiles j (Z.of_nat (tilesStorage c)) (freeTiles b)) b.
Proof.
  intros Huse Hb'. destruct (createTileStorage_buckets _ _ _ Hb') as (b&Hb&_).
  exists b. split; [done|].
  rewrite (createTileStorage_getBucket c j b Huse Hb) in Hb'. congruence.
Qed.

Lemma tilesStorage_createTileStorage c :
  useTileStorage c = true →
  tilesStorage (createTileStorage c) = S (tilesStorage c) ∧
  useTileStorage (createTileStorage c) = true.
Proof. intros H. unfold createTileStorage. by rewrite H. Qed.

Lemma seeded_file_index idx f :
  0 ≤ idx < 2 ^ 32 → 0 ≤ f < 2 ^ 32 →
  snd (getTileIndex (encodeTileIndex idx f)) = f.
Proof. intros. by rewrite getTileIndex_encodeTileIndex. Qed.

Lemma createTileStorage_consistent c A :
  length (buckets c) = 256%nat → useTileStorage c = true →
  Z.of_nat (tilesStorage c) < 2 ^ 32 →
  tilesConsistent c → tilesTaken c A →
  tilesConsistent (createTileStorage c) ∧ tilesTaken (createTileStorage c) A.
Proof.
  intros Hlen Huse Hf [Hfile Hdisj] Htaken.
  destruct (tilesStorage_createTileStorage c Huse) as [Hts _].
  set (f := Z.of_nat (tilesStorage c)) in *.
  assert (∀ j b t, getBucket c j = Some b →
            t ∈ seedFreeTiles j f (freeTiles b) →
            (t ∈ freeTiles b ∧ snd (getTileIndex t) < f) ∨
            (snd (getTileIndex t) = f ∧
             ∃ idx, t = encodeTileIndex idx f ∧ 0 ≤ idx < 2 ^ 32 ∧
                    256 * Z.of_nat j ≤ idx < 256 * Z.of_nat j + 256))
    as Hseed.
  { intros j b t Hb Ht. apply elem_of_seedFreeTiles in Ht as [Ht|(idx&->&Hr)].
    - left. split; [done|]. by eapply Hfile.
    - right. apply getBucket_Some_lt in Hb.
      assert (0 ≤ idx < 2 ^ 32) by lia.
      split; [apply seeded_file_index; lia|]. exists idx. done. }
  split; [split|].
  - intros i b' t Hb' Ht.
    apply getBucket_createTileStorage_inv in Hb' as (b&Hb&->); [|done].
    rewrite Hts. simpl in Ht.
    destruct (Hseed i b t Hb Ht) as [[_ ?]|[? _]]; lia.
  - intros i j b1' b2' t Hij Hb1' Hb2' Ht1 Ht2.
    apply getBucket_createTileStorage_inv in Hb1' as (b1&Hb1&->); [|done].
    apply getBucket_createTileStorage_inv in Hb2' as (b2&Hb2&->); [|done].
    simpl in Ht1, Ht2.
    destruct (Hseed i b1 t Hb1 Ht1) as [[Ho1 Hlt1]|[Hf1 (idx1&Heq1&Hr1&Hb1r)]];
      destruct (Hseed j b2 t Hb2 Ht2) as [[Ho2 Hlt2]|[Hf2 (idx2&Heq2&Hr2&Hb2r)]];
      try lia.
    + by apply (Hdisj i j b1 b2 t).
    + assert (getTileIndex (encodeTileIndex idx1 f)
              = getTileIndex (encodeTileIndex idx2 f)) as Hg by congruence.
      rewrite !getTileIndex_encodeTileIndex in Hg by lia.
      injection Hg as ->. lia.
  - intros a Ha. destruct (Htaken a Ha) as [Hlt Hnf]. split; [rewrite Hts; lia|].
    intros i b' Hb' Hin.
    apply getBucket_createTileStorage_inv in Hb' as (b&Hb&->); [|done].
    simpl in Hin.
    destruct (Hseed i b a Hb Hin) as [[Ho _]|[Hfa _]]; [|lia].
    by apply (Hnf i b).
Qed.

(** One allocation under consistent free sets: a tile is handed out, it was
    not handed out before, and the free sets stay consistent. *)
Lemma allocateTile_consistent h tl c A :
  length (buckets c) = 256%nat → useTileStorage c = true →
  Z.of_nat (tilesStorage c) < 2 ^ 32 →
  tilesConsistent c → tilesTaken c A →
  ∃ t c', allocateTile h tl c = Some (Some t, c') ∧
          length (buckets c') = 256%nat ∧ useTileStorage c' = true ∧
          (tilesStorage c' ≤ S (tilesStorage c))%nat ∧
          tilesConsistent c' ∧ tilesTaken c' (t :: A) ∧ t ∉ A.
Proof.
  intros Hlen Huse Hf Hcons Htaken. unfold allocateTile.
  pose proof (getBucketCacheBucketIndex_lt (U64_add h tl)) as Hlt.
  unfold getBucketIndexForTile. revert Hlt.
  generalize (Z.to_nat (getBucketCacheBucketIndex (U64_add h tl))).
  intros bi Hlt.
  destruct (getBucket_lt_Some c bi) as [tb Htb]; [lia|]. rewrite Htb. simpl.
  set (c1 := if decide (freeTiles tb = ∅) then createTileStorage c else c).
  assert (length (buckets c1) = 256%nat ∧ useTileStorage c1 = true ∧
          (tilesStorage c1 ≤ S (tilesStorage c))%nat ∧
          tilesConsistent c1 ∧ tilesTaken c1 A ∧
          ∃ tb1, getBucket c1 bi = Some tb1 ∧ freeTiles tb1 ≠ ∅)
    as (Hlen1 & Huse1 & Hts1 & Hcons1 & Htaken1 & tb1 & Htb1 & Hne1).
  { unfold c1. case_decide as Hempty.
    - destruct (tilesStorage_createTileStorage c Huse) as [Hts Hu].
      destruct (createTileStorage_consistent c A) as [Hc1 Ht1]; try done.
      split; [by rewrite length_createTileStorage|]. split; [done|].
      split; [lia|]. split; [done|]. split; [done|].
      eexists. split; [by apply createTileStorage_getBucket|]. simpl.
      assert (encodeTileIndex (256 * Z.of_nat bi) (Z.of_nat (tilesStorage c))
              ∈ seedFreeTiles bi (Z.of_nat (tilesStorage c)) (freeTiles tb))
        as Hin.
      { apply elem_of_seedFreeTiles. right. eexists. split; [done|]. lia. }
      intros Hemp. rewrite Hemp in Hin. by apply not_elem_of_empty in Hin.
    - split; [done|]. split; [done|]. split; [lia|]. split; [done|].
      split; [done|]. by exists tb. }
  rewrite Htb1. simpl.
  destruct (firstFreeTile_elem _ Hne1) as (t&Hfirst&Hin). rewrite Hfirst. simpl.
  destruct Hcons1 as [Hfile1 Hdisj1].
  pose proof (Hfile1 _ _ _ Htb1 Hin) as Hfi.
  set (c2 := setBucket bi (set_freeTiles (freeTiles tb1 ∖ {[t]}) tb1) c1).
  assert (tilesStorage c2 = tilesStorage c1) as Hts2 by done.
  apply Z.ltb_lt in Hfi as Hfib.
  change (snd (getTileIndex t)) with (t mod 2 ^ 32) in Hfib. rewrite Hfib.
  assert (bi < length (buckets c1))%nat as Hbi1 by lia.
  assert (∀ i b2, getBucket c2 i = Some b2 →
            ∃ b1, getBucket c1 i = Some b1 ∧ freeTiles b2 ⊆ freeTiles b1 ∧
                  (i = bi → t ∉ freeTiles b2)) as Hc2.
  { intros i b2 Hb2. destruct (decide (i = bi)) as [->|Hne].
    - unfold c2 in Hb2. rewrite getBucket_setBucket_eq in Hb2 by done.
      injection Hb2 as <-. exists tb1. split; [done|]. simpl.
      split; [apply subseteq_difference_l; done|].
      intros _. rewrite elem_of_difference, elem_of_singleton. tauto.
    - unfold c2 in Hb2. rewrite getBucket_setBucket_ne in Hb2 by done.
      exists b2. split; [done|]. split; [done|]. done. }
  exists t, c2. split; [done|].
  split; [by unfold c2; rewrite length_setBucket|]. split; [done|].
  split; [by rewrite Hts2|].
  split; [split|split].
  - intros i b2 x Hb2 Hx. destruct (Hc2 i b2 Hb2) as (b1&Hb1&Hsub&_).
    rewrite Hts2. eapply Hfile1; [exact Hb1|]. by apply Hsub.
  - intros i j b2 b2' x Hij Hb2 Hb2' Hx Hx'.
    destruct (Hc2 i b2 Hb2) as (b1&Hb1&Hsub&_).
    destruct (Hc2 j b2' Hb2') as (b1'&Hb1'&Hsub'&_).
    apply (Hdisj1 i j b1 b1' x Hij Hb1 Hb1'); [by apply Hsub|by apply Hsub'].
  - intros a Ha. rewrite Hts2. apply elem_of_cons in Ha as [->|Ha].
    + split; [done|]. intros i b2 Hb2 Hx.
      destruct (Hc2 i b2 Hb2) as (b1&Hb1&Hsub&Hsame).
      destruct (decide (i = bi)) as [->|Hne]; [by apply Hsame|].
      apply (Hdisj1 bi i tb1 b1 t); [done|done|done|done|by apply Hsub].
    + destruct (Htaken1 a Ha) as [Hlt1 Hnf1]. split; [done|].
      intros i b2 Hb2 Hx. destruct (Hc2 i b2 Hb2) as (b1&Hb1&Hsub&_).
      apply (Hnf1 i b1 Hb1). by apply Hsub.
  - intros Ha. destruct (Htaken1 t Ha) as [_ Hnf1]. by apply (Hnf1 bi tb1).
Qed.

Lemma allocateTiles_consistent h ts c A :
  length (buckets c) = 256%nat → useTileStorage c = true →
  Z.of_nat (tilesStorage c) + Z.of_nat (length ts) ≤ 2 ^ 32 →
  tilesConsistent c → tilesTaken c A →
  ∃ al c', allocateTiles h ts c = Some (Some al, c') ∧
           length (buckets c') = 256%nat ∧ useTileStorage c' = true ∧
           (tilesStorage c' ≤ tilesStorage c + length ts)%nat ∧
           tilesConsistent c' ∧ tilesTaken c' (al ++ A) ∧
           NoDup al ∧ length al = length ts ∧ (∀ t, t ∈ al → t ∉ A).
Proof.
  revert c A. induction ts as [|tl ts IH]; intros c A Hlen Huse Hf Hcons Htaken.
  { exists [], c. simpl. split; [done|]. split; [done|]. split; [done|].
    split; [lia|]. split; [done|]. split; [done|]. split; [constructor|].
    split; [done|]. intros t Ht. by apply elem_of_nil in Ht. }
  simpl in Hf. simpl.
  destruct (allocateTile_consistent h tl c A) as
    (t&c1&Hal&Hlen1&Huse1&Hts1&Hcons1&Htaken1&HtA); try done; [lia|].
  rewrite Hal. simpl.
  destruct (IH c1 (t :: A)) as
    (al&c2&Hals&Hlen2&Huse2&Hts2&Hcons2&Htaken2&Hnd&Hl&Hfresh);
    try done; [lia|].
  rewrite Hals. simpl. exists (t :: al), c2.
  split; [done|]. split; [done|]. split; [done|]. split; [lia|].
  split; [done|]. split.
  { intros a Ha. apply Htaken2. rewrite elem_of_app, elem_of_cons.
    apply elem_of_cons in Ha as [->|Ha]; [by right; left|].
    apply elem_of_app in Ha as [Ha|Ha]; [by left|by right; right]. }
  split.
  { constructor; [|done]. intros Ht. apply (Hfresh t Ht). apply list_elem_of_here. }
  split; [simpl; by rewrite Hl|].
  intros x Hx HxA. apply elem_of_cons in Hx as [->|Hx]; [done|].
  apply (Hfresh x Hx). by apply list_elem_of_further.
Qed.

Lemma setBucket_same_freeTiles bi b1 b1' c :
  getBucket c bi = Some b1 → freeTiles b1' = freeTiles b1 →
  ∀ i b2, getBucket (setBucket bi b1' c) i = Some b2 →
          ∃ b0, getBucket c i = Some b0 ∧ freeTiles b2 = freeTiles b0.
Proof.
  intros Hb1 Hfree i b2 Hb2.
  pose proof (getBucket_Some_lt _ _ _ Hb1) as Hlt.
  destruct (decide (i = bi)) as [->|Hne].
  - rewrite getBucket_setBucket_eq in Hb2 by done. injection Hb2 as <-.
    exists b1. done.
  - rewrite getBucket_setBucket_ne in Hb2 by done. exists b2. done.
Qed.

(** X18.  One call of [retrieveAndLockTiles], on free sets that are
    consistent (every free id belongs to an existing storage file and no id
    is free in two buckets) and for an entry that is in the cache.  The
    call succeeds and allocates as many tiles as were asked for.  The ids
    are pairwise different, and they differ from every id of [A], where
    [A] is any list of ids of existing storage files that no bucket lists
    as free before the call (the ids handed out by an earlier call, for
    instance).  Afterwards neither the new ids nor those of [A] are free in
    any bucket, the free sets are still consistent, at most one storage
    file per requested tile has been added, and the new ids are appended
    to the tile list of the entry.  The statement is about one call under
    the stated condition on the free sets; it does not say that this
    condition holds in every reachable state. *)
Theorem retrieveAndLockTiles_allocates_distinct_tiles (en : CacheEntryBase)
    (ts A : list Z) (c : CachePrivate) (b : CacheBucketIPCData)
    (e : MemorySegmentEntryHeader) :
  let k := getHashKey en in
  let bi := Z.to_nat (getBucketCacheBucketIndex k) in
  length (buckets c) = Z.to_nat NATRON_CACHE_BUCKETS_COUNT →
  useTileStorage c = true →
  Z.of_nat (tilesStorage c) + Z.of_nat (length ts) ≤ 2 ^ 32 →
  tilesConsistent c → tilesTaken c A →
  getBucket c bi = Some b → entriesMap b !! k = Some e → ts ≠ [] →
  ∃ al c' b' e',
    retrieveAndLockTiles en ts c = Some (true, al, c') ∧
    NoDup al ∧ length al = length ts ∧ (∀ t, t ∈ al → t ∉ A) ∧
    tilesTaken c' (al ++ A) ∧ tilesConsistent c' ∧
    length (buckets c') = length (buckets c) ∧ useTileStorage c' = true ∧
    (tilesStorage c' ≤ tilesStorage c + length ts)%nat ∧
    getBucket c' bi = Some b' ∧ entriesMap b' !! k = Some e' ∧
    tileIndices e' = tileIndices e ++ al.
Proof.
  intros k bi Hlen Huse Hf Hcons HA Hb He Hne.
  destruct (allocateTiles_consistent k ts c A) as
    (al&c1&Hal&Hlen1&Huse1&Hts1&[Hfile1 Hdisj1]&Htaken1&Hnd&Hl&Hfresh);
    try done.
  pose proof (allocateTiles_frame _ _ _ _ _ Hal) as [[_ Hframe] _].
  destruct (getBucket_lt_Some c1 bi) as [b1 Hb1].
  { rewrite Hlen1. apply getBucketCacheBucketIndex_lt. }
  destruct (Hframe bi b1 Hb1) as (b0&Hb0&[Hsz Hm]).
  rewrite Hb in Hb0. injection Hb0 as <-.
  unfold retrieveAndLockTiles. destruct ts as [|t0 ts']; [done|].
  fold k bi. rewrite Hal. simpl. rewrite Hb1. simpl.
  unfold tryCacheLookupImpl. rewrite Hm, He.
  set (b1' := set_entriesMap _ _).
  assert (∀ i b2, getBucket (setBucket bi b1' c1) i = Some b2 →
            ∃ b0, getBucket c1 i = Some b0 ∧ freeTiles b2 = freeTiles b0)
    as Hsame by (by apply (setBucket_same_freeTiles bi b1)).
  eexists al, _, b1', _. split; [done|]. split; [done|]. split; [done|].
  split; [done|]. split.
  { intros t Ht. destruct (Htaken1 t Ht) as [Hlt Hnf]. split; [exact Hlt|].
    intros i b2 Hb2. destruct (Hsame i b2 Hb2) as (b0&Hb0&->).
    by apply (Hnf i b0). }
  split.
  { split.
    - intros i b2 t Hb2 Ht. destruct (Hsame i b2 Hb2) as (b0&Hb0&Hfr).
      rewrite Hfr in Ht. by apply (Hfile1 i b0).
    - intros i j b2 b2' t Hij Hb2 Hb2' Ht.
      destruct (Hsame i b2 Hb2) as (b0&Hb0&Hfr).
      destruct (Hsame j b2' Hb2') as (b0'&Hb0'&Hfr').
      rewrite Hfr in Ht. rewrite Hfr'. by apply (Hdisj1 i j b0 b0'). }
  split. { rewrite length_setBucket, Hlen1, Hlen. reflexivity. }
  split; [exact Huse1|]. split; [exact Hts1|].
  split. { apply getBucket_setBucket_eq. by eapply getBucket_Some_lt. }
  split; [apply lookup_insert_eq|done].
Qed.

(** ** What an eviction removes *)

Lemma onlyRemoves_refl c : onlyRemoves c c.
Proof. split; [done|]. split; [done|]. intros i b Hb. exists b. done. Qed.

Lemma onlyRemoves_trans c1 c2 c3 :
  onlyRemoves c1 c2 → onlyRemoves c2 c3 → onlyRemoves c1 c3.
Proof.
  intros (Hl1&Hm1&H1) (Hl2&Hm2&H2). split; [congruence|]. split; [congruence|].
  intros i b3 Hb3. destruct (H2 i b3 Hb3) as (b2&Hb2&Hk2).
  destruct (H1 i b2 Hb2) as (b1&Hb1&Hk1). exists b1. split; [done|]. auto.
Qed.

Lemma onlyRemoves_set_bucketState bi b s c :
  getBucket c bi = Some b →
  onlyRemoves c (setBucket bi (set_bucketState s b) c).
Proof.
  intros Hb. pose proof (getBucket_Some_lt _ _ _ Hb) as Hlt.
  split; [apply length_setBucket|]. split; [done|].
  intros i b' Hb'. destruct (decide (i = bi)) as [->|Hne].
  - rewrite getBucket_setBucket_eq in Hb' by done. injection Hb' as <-.
    exists b. done.
  - rewrite getBucket_setBucket_ne in Hb' by done. exists b'. done.
Qed.

Lemma onlyRemoves_deallocate bi k c c' :
  deallocateCacheEntryImpl bi k c = Some c' → onlyRemoves c c'.
Proof.
  intros Hd. destruct (deallocateCacheEntryImpl_spec _ _ _ _ Hd)
    as (b&e&b'&Hb&He&Hb'&Hlen&Hmax&_&_&Hnone&Hmaps&_&_&_&_&_&_&Hoth&_).
  split; [done|]. split; [done|].
  intros i bi' Hbi'. destruct (decide (i = bi)) as [->|Hne].
  - rewrite Hb' in Hbi'. injection Hbi' as <-. exists b. split; [done|].
    intros j [ej Hj]. specialize (Hmaps j). rewrite Hj in Hmaps.
    destruct (decide (j = k)) as [->|Hjk]; [by rewrite Hnone in Hj|].
    rewrite lookup_delete_ne in Hmaps by done.
    destruct (entriesMap b !! j); [eauto|done].
  - destruct (getBucket_lt_Some c i) as [b0 Hb0].
    { rewrite <- Hlen. by eapply getBucket_Some_lt. }
    destruct (Hoth i b0 Hne Hb0) as (b0'&Hb0'&Hs).
    rewrite Hbi' in Hb0'. injection Hb0' as <-.
    exists b0. split; [done|]. by destruct Hs as (_&_&_&_&_&->&_).
Qed.

Lemma onlyRemoves_clear c : onlyRemoves c (clear c).
Proof.
  split; [apply length_clear|]. split; [apply maximumSize_clear|].
  intros i b' Hb'.
  destruct (getBucket_lt_Some c i) as [b Hb].
  { rewrite <- length_clear. by eapply getBucket_Some_lt. }
  exists b. split; [done|]. apply getBucket_clear in Hb' as (_&_&_&_&->).
  intros j [? Hj]. by rewrite lookup_empty in Hj.
Qed.

Lemma onlyRemoves_evictBucket bi cur c r :
  BucketStateHandler_RAII bi c (evictBucketScope bi cur) = Some r →
  match r with
  | Thrown c' => c' = c
  | Normal (_, c') => onlyRemoves c c'
  end.
Proof.
  intros H. destruct (evictBucket_cases _ _ _ _ H) as (b&Hb&Hcase).
  destruct r as [[[cur'|] c']|c'].
  - destruct Hcase as (_&f&n&e&c1&b1&_&_&_&_&_&Hd&Hb1&->).
    eapply onlyRemoves_trans; [by apply (onlyRemoves_set_bucketState bi b)|].
    eapply onlyRemoves_trans; [by eapply onlyRemoves_deallocate|].
    by apply onlyRemoves_set_bucketState.
  - destruct Hcase as (->&_). apply onlyRemoves_refl.
  - by destruct Hcase as (->&_).
Qed.

Lemma onlyRemoves_evictRound bs c cur found r :
  evictRound bs c cur found = Some r →
  match r with
  | Thrown c' => onlyRemoves c c'
  | Normal (_, c') => onlyRemoves c c'
  end.
Proof.
  revert c cur found. induction bs as [|bi bs IH]; intros c cur found H.
  { simpl in H. injection H as <-. apply onlyRemoves_refl. }
  simpl in H.
  destruct (BucketStateHandler_RAII bi c (evictBucketScope bi cur))
    as [r1|] eqn:H1; [|done]. simpl in H.
  pose proof (onlyRemoves_evictBucket _ _ _ _ H1) as Hm.
  destruct r1 as [[[cur1|] c1]|c1].
  - apply IH in H. destruct r as [[? ?]|?]; by eapply onlyRemoves_trans.
  - apply IH in H. destruct r as [[? ?]|?]; by eapply onlyRemoves_trans.
  - injection H as <-. subst c1. apply onlyRemoves_refl.
Qed.

Lemma onlyRemoves_evictLoop fuel maxSize c cur c' :
  evictLoop fuel maxSize c cur = Some (evictReturned c') → onlyRemoves c c'.
Proof.
  revert c cur. induction fuel as [|fuel IH]; intros c cur H; [done|].
  rewrite evictLoop_unfold in H.
  destruct (evictRound _ c cur false) as [r|] eqn:Hr; [|done].
  cbn [mbind option_bind] in H.
  pose proof (onlyRemoves_evictRound _ _ _ _ _ Hr) as Hm.
  destruct r as [[[cur' found] c1]|c1].
  - destruct found; cbn [negb] in H.
    + destruct (cur' >? maxSize).
      * apply IH in H. by eapply onlyRemoves_trans.
      * by injection H as <-.
    + by injection H as <-.
  - injection H as <-. eapply onlyRemoves_trans; [done|].
    apply onlyRemoves_clear.
Qed.

Lemma onlyRemoves_evictLRUEntries n c c' :
  evictLRUEntries n c = Some c' → onlyRemoves c c'.
Proof.
  unfold evictLRUEntries. intros H.
  destruct (getMaximumCacheSize c =? 0);
    [injection H as <-; apply onlyRemoves_refl|].
  destruct (getCurrentSize c >? _);
    [|injection H as <-; apply onlyRemoves_refl].
  destruct (evictLoop _ _ c (getCurrentSize c)) as [[c1|]|] eqn:Hl;
    cbn [mbind option_bind] in H; [|done..].
  injection H as <-. by eapply onlyRemoves_evictLoop.
Qed.

(** X19.  An eviction only removes: whatever [evictLRUEntries] returns has
    the same buckets and the same size limit, and every key it holds was
    held before, in the same bucket; no entry is created or moved. *)
Theorem evictLRUEntries_only_removes (nBytesToFree : Z) (c c' : CachePrivate) :
  evictLRUEntries nBytesToFree c = Some c' →
  length (buckets c') = length (buckets c) ∧
  getMaximumCacheSize c' = getMaximumCacheSize c ∧
  (∀ i b', getBucket c' i = Some b' →
           ∃ b, getBucket c i = Some b ∧
                ∀ j, is_Some (entriesMap b' !! j) → is_Some (entriesMap b !! j)) ∧
  (∀ k, hasCacheEntryForHash k c' = Some true →
        hasCacheEntryForHash k c = Some true).
Proof.
  intros H. apply onlyRemoves_evictLRUEntries in H as (Hlen&Hmax&Hkeys).
  split; [done|]. split; [done|]. split; [done|].
  intros k. unfold hasCacheEntryForHash, tryCacheLookupImpl.
  destruct (getBucket c' _) as [b'|] eqn:Hb'; [|done]. simpl.
  destruct (Hkeys _ _ Hb') as (b&->&Hsub). simpl.
  intros [= Hk]. apply bool_decide_eq_true in Hk.
  f_equal. apply bool_decide_eq_true. auto.
Qed.

Lemma onlyRemoves_absent c c' bi b f :
  onlyRemoves c c' → getBucket c bi = Some b → entriesMap b !! f = None →
  ∃ b', getBucket c' bi = Some b' ∧ entriesMap b' !! f = None.
Proof.
  intros (Hlen&_&Hkeys) Hb Hf.
  destruct (getBucket_lt_Some c' bi) as [b' Hb'].
  { rewrite Hlen. by eapply getBucket_Some_lt. }
  exists b'. split; [done|].
  destruct (Hkeys bi b' Hb') as (b0&Hb0&Hsub).
  rewrite Hb in Hb0. injection Hb0 as <-.
  destruct (entriesMap b' !! f) eqn:Hf'; [|done].
  destruct (Hsub f) as [? Hc]; [eauto|]. by rewrite Hf in Hc.
Qed.

Lemma evictRound_evicts_front bs c cur found bi b f n cur' found' c' :
  evictRound bs c cur found = Some (Normal (cur', found', c')) →
  bi ∈ bs →
  getBucket c bi = Some b → lruListFront b = Some f →
  entriesMap b !! f = Some n → hash (lruNode n) = f → f ≠ 0 →
  ∃ b', getBucket c' bi = Some b' ∧ entriesMap b' !! f = None.
Proof.
  revert c cur found b. induction bs as [|x bs IH];
    intros c cur found b H Hin Hb Hf Hn Hh Hnz.
  { by apply elem_of_nil in Hin. }
  simpl in H.
  destruct (BucketStateHandler_RAII x c (evictBucketScope x cur))
    as [r1|] eqn:H1; [|done]. simpl in H.
  destruct (evictBucket_cases _ _ _ _ H1) as (bx&Hbx&Hcase).
  destruct (decide (x = bi)) as [->|Hne].
  - rewrite Hb in Hbx. injection Hbx as <-.
    destruct r1 as [[[cur1|] c1]|c1]; [| |done].
    + destruct Hcase as (_&f0&n0&e&c0&b1&Hf0&Hn0&_&He&_&Hd&Hb1&->).
      rewrite Hf in Hf0. injection Hf0 as <-.
      rewrite Hn in Hn0. injection Hn0 as <-. rewrite Hh in Hd.
      destruct (deallocateCacheEntryImpl_spec _ _ _ _ Hd)
        as (_&_&b1'&_&_&Hb1'&_&_&_&_&Hnone&_).
      rewrite Hb1 in Hb1'. injection Hb1' as <-.
      apply onlyRemoves_evictRound in H.
      apply (onlyRemoves_absent _ _ bi (set_bucketState eBucketStateOk b1) f H);
        [|done].
      apply getBucket_setBucket_eq. by eapply getBucket_Some_lt.
    + destruct Hcase as (_&_&[Hnone|(f0&n0&Hf0&Hn0&Hbad)]).
      * by rewrite Hf in Hnone.
      * rewrite Hf in Hf0. injection Hf0 as <-.
        rewrite Hn in Hn0. injection Hn0 as <-. rewrite Hh in Hbad.
        destruct Hbad as [?|Hbad]; [done|]. by rewrite Hn in Hbad.
  - apply elem_of_cons in Hin as [->|Hin]; [done|].
    destruct r1 as [[[cur1|] c1]|c1]; [| |done].
    + destruct Hcase as (_&f0&n0&e&c0&b1&_&_&_&_&_&Hd&Hb1&->).
      destruct (deallocateCacheEntryImpl_spec _ _ _ _ Hd)
        as (_&_&_&_&_&_&_&_&_&_&_&_&_&_&_&_&_&_&Hoth&_).
      destruct (Hoth bi b) as (b'&Hb'&Hs); [done| |].
      { by rewrite getBucket_setBucket_ne. }
      destruct Hs as (Hfr&_&_&_&_&Hm&_).
      apply (IH _ _ _ b' H Hin); [|congruence|by rewrite Hm|done|done].
      by rewrite getBucket_setBucket_ne.
    + destruct Hcase as (->&_). by apply (IH _ _ _ b H Hin).
Qed.

(** X20.  What the front pointer designates is evicted.  When the limit is
    not 0 and the current size exceeds the target, whatever
    [evictLRUEntries] returns no longer holds the key that the front
    pointer of a bucket designated on entry, provided that pointer
    designated a live header stored under its own non-zero hash.  The
    statement is about the designee of [lruListFront], whichever place that
    entry has in the order of use. *)
Theorem evictLRUEntries_evicts_front (nBytesToFree : Z) (c c' : CachePrivate)
    (bi : nat) (b : CacheBucketIPCData) (f : Z)
    (e : MemorySegmentEntryHeader) :
  evictLRUEntries nBytesToFree c = Some c' →
  getMaximumCacheSize c ≠ 0 →
  getCurrentSize c > evictionTarget nBytesToFree c →
  (bi < Z.to_nat NATRON_CACHE_BUCKETS_COUNT)%nat →
  getBucket c bi = Some b → lruListFront b = Some f →
  entriesMap b !! f = Some e → hash (lruNode e) = f → f ≠ 0 →
  ∃ b', getBucket c' bi = Some b' ∧ entriesMap b' !! f = None.
Proof.
  unfold evictLRUEntries, evictionTarget.
  intros H Hmax Hgt Hbi Hb Hf He Hh Hnz.
  apply Z.eqb_neq in Hmax. rewrite Hmax in H.
  apply Z.gtb_gt in Hgt. rewrite Hgt in H.
  rewrite evictLoop_unfold in H.
  destruct (evictRound _ c (getCurrentSize c) false) as [r|] eqn:Hr;
    cbn [mbind option_bind] in H; [|done].
  destruct r as [[[cur' found] c1]|c1].
  - destruct (evictRound_evicts_front _ _ _ _ bi b f e _ _ _ Hr)
      as (b1&Hb1&Hnone); try done.
    { apply elem_of_seq. lia. }
    destruct found; cbn [negb] in H.
    + destruct (cur' >? _).
      * destruct (evictLoop _ _ c1 cur') as [[c2|]|] eqn:Hl;
          cbn [mbind option_bind] in H; [|done..].
        injection H as <-. apply onlyRemoves_evictLoop in Hl.
        by apply (onlyRemoves_absent c1 c2 bi b1).
      * injection H as <-. eauto.
    + injection H as <-. eauto.
  - injection H as <-. unfold recoverFromInconsistentState.
    apply onlyRemoves_evictRound in Hr.
    destruct (getBucket_lt_Some (clear c1) bi) as [b' Hb'].
    { rewrite length_clear. destruct Hr as (->&_).
      by eapply getBucket_Some_lt. }
    exists b'. split; [done|].
    apply getBucket_clear in Hb' as (_&_&_&_&->). apply lookup_empty.
Qed.

(** ** The size limit *)

Lemma evictBucket_maximumSize bi cur c r :
  BucketStateHandler_RAII bi c (evictBucketScope bi cur) = Some r →
  match r with
  | Thrown c' => maximumSize c' = maximumSize c
  | Normal (_, c') => maximumSize c' = maximumSize c
  end.
Proof.
  intros H. destruct (evictBucket_cases _ _ _ _ H) as (b&Hb&Hcase).
  destruct r as [[[cur'|] c']|c'].
  - destruct Hcase as (_&f&n&e&c1&b1&_&_&_&_&_&Hd&_&->).
    destruct (deallocateCacheEntryImpl_spec _ _ _ _ Hd)
      as (_&_&_&_&_&_&_&Hmax&_).
    simpl. by rewrite Hmax.
  - by destruct Hcase as (->&_).
  - by destruct Hcase as (->&_).
Qed.

Lemma evictRound_maximumSize bs c cur found r :
  evictRound bs c cur found = Some r →
  match r with
  | Thrown c' => maximumSize c' = maximumSize c
  | Normal (_, c') => maximumSize c' = maximumSize c
  end.
Proof.
  revert c cur found. induction bs as [|bi bs IH]; intros c cur found H.
  { simpl in H. by injection H as <-. }
  simpl in H.
  destruct (BucketStateHandler_RAII bi c (evictBucketScope bi cur))
    as [r1|] eqn:H1; [|done]. simpl in H.
  pose proof (evictBucket_maximumSize _ _ _ _ H1) as Hm.
  destruct r1 as [[[cur1|] c1]|c1].
  - apply IH in H. destruct r as [[? ?]|?]; congruence.
  - apply IH in H. destruct r as [[? ?]|?]; congruence.
  - by injection H as <-.
Qed.

Lemma evictLoop_maximumSize fuel maxSize c cur c' :
  evictLoop fuel maxSize c cur = Some (evictReturned c') →
  maximumSize c' = maximumSize c.
Proof.
  revert c cur. induction fuel as [|fuel IH]; intros c cur H; [done|].
  rewrite evictLoop_unfold in H.
  destruct (evictRound _ c cur false) as [r|] eqn:Hr; [|done].
  cbn [mbind option_bind] in H.
  pose proof (evictRound_maximumSize _ _ _ _ _ Hr) as Hm.
  destruct r as [[[cur' found] c1]|c1].
  - destruct found; cbn [negb] in H.
    + destruct (cur' >? maxSize).
      * apply IH in H. congruence.
      * injection H as <-. done.
    + injection H as <-. done.
  - injection H as <-. unfold recoverFromInconsistentState.
    by rewrite maximumSize_clear.
Qed.

(** X15.  [setMaximumCacheSize] records the new limit and evicts only when
    the limit shrinks to a non-zero value.  (1) Raising the limit, or
    setting it to 0 (no limit), changes nothing but the limit itself.
    (2) Whatever the call returns carries the new limit, has the same
    number of buckets and holds no key that was not held before.
    (3) Shrinking the limit to [size > 0] runs the eviction against [size];
    if, on entry, the front pointer of every bucket is null or designates
    a live header stored under its own non-zero hash, without predecessor
    and with a live successor if it has one, the call returns, and
    afterwards either the current size is at most [size] or the front
    pointer of every LRU list is null. *)
Theorem setMaximumCacheSize_evicts_only_when_shrinking (size : Z)
    (c : CachePrivate) :
  (getMaximumCacheSize c ≤ size ∨ size = 0 →
   setMaximumCacheSize size c = Some (set_maximumSize size c)) ∧
  (∀ c', setMaximumCacheSize size c = Some c' →
         getMaximumCacheSize c' = size ∧
         length (buckets c') = length (buckets c) ∧
         ∀ k, hasCacheEntryForHash k c' = Some true →
              hasCacheEntryForHash k c = Some true) ∧
  (0 < size < getMaximumCacheSize c →
   length (buckets c) = Z.to_nat NATRON_CACHE_BUCKETS_COUNT →
   frontsEvictable c →
   ∃ c', setMaximumCacheSize size c = Some c' ∧
         getMaximumCacheSize c' = size ∧
         (getCurrentSize c' ≤ size ∨ allFrontsNull c')).
Proof.
  unfold setMaximumCacheSize, getMaximumCacheSize. split; [|split].
  - intros H. destruct (Z.ltb_spec size (maximumSize c)) as [Hlt|Hge]; [|done].
    destruct H as [Hle| ->]; [lia|]. done.
  - intros c' H.
    assert (onlyRemoves (set_maximumSize size c) c') as (Hlen&Hmax&Hkeys).
    { destruct (size <? maximumSize c).
      - by apply onlyRemoves_evictLRUEntries in H.
      - injection H as <-. apply onlyRemoves_refl. }
    split; [exact Hmax|]. split; [exact Hlen|].
    intros k. unfold hasCacheEntryForHash, tryCacheLookupImpl.
    destruct (getBucket c' _) as [b'|] eqn:Hb'; [|done]. simpl.
    destruct (Hkeys _ _ Hb') as (b&Hb&Hsub).
    change (getBucket (set_maximumSize size c)) with (getBucket c) in Hb.
    rewrite Hb. simpl.
    intros [= Hk]. apply bool_decide_eq_true in Hk.
    f_equal. apply bool_decide_eq_true. auto.
  - intros Hsz Hlen Hwf.
    destruct (Z.ltb_spec size (maximumSize c)) as [_|Hge]; [|lia].
    set (c1 := set_maximumSize size c).
    unfold evictLRUEntries, getMaximumCacheSize.
    change (maximumSize c1) with size.
    destruct (Z.eqb_spec size 0) as [|_]; [lia|].
    destruct (Z.geb_spec 0 size) as [|_]; [lia|].
    rewrite Z.sub_0_r.
    change (getCurrentSize c1) with (getCurrentSize c).
    destruct (Z.gtb_spec (getCurrentSize c) size) as [Hgt|Hle].
    2:{ exists c1. split; [done|]. split; [done|]. by left. }
    destruct (evictLoop_wf (S (totalEntries c1)) size c1 (getCurrentSize c))
      as (r&Hr&Hcase); [lia|done|].
    rewrite Hr. cbn [mbind option_bind]. destruct r as [c'|].
    + exists c'. split; [done|]. split; [|done].
      by apply evictLoop_maximumSize in Hr.
    + exfalso.
      apply (evictLoop_fuel (S (totalEntries c1)) size c1 (getCurrentSize c));
        [lia|exact Hr].
Qed.

(** ** Serialization failure *)

(** X21.  When the payload cannot be serialized (its [toMemorySegment]
    throws [bip::bad_alloc] on both attempts), [insertInCache] in the
    persistent cache gives up: the locker keeps its status, the entry stays
    in the index as it was but for its properties, which are cleared, and
    neither the size of the bucket nor its LRU list changes. *)
Theorem insertInCache_serialization_failure (lk : CacheEntryLockerPrivate)
    (bi : nat) (c : CachePrivate) (b : CacheBucketIPCData)
    (e : MemorySegmentEntryHeader) :
  let k := lockerHash lk in
  persistent = true →
  bucket lk = Some bi → getBucket c bi = Some b →
  bucketState b = eBucketStateOk →
  entriesMap b !! k = Some e → computeThreadMagic e ≠ 0 →
  toMemorySegment (processLocalEntry lk) (properties e) = None →
  toMemorySegment (processLocalEntry lk) ∅ = None →
  insertInCache lk c
  = Some (lk, setBucket bi
                (set_entriesMap (<[k := set_properties ∅ e]> (entriesMap b)) b)
                c).
Proof.
  intros k Hp Hlk Hb Hok He Hmagic Hfail1 Hfail2.
  pose proof (getBucket_Some_lt _ _ _ Hb) as Hlt.
  apply Z.eqb_neq in Hmagic.
  set (b1 := set_entriesMap (<[k := set_properties ∅ e]> (entriesMap b)) b).
  set (c1 := setBucket bi b1 c).
  assert (∀ b0 e0 c0,
            getBucket c0 bi = Some b0 → bucketState b0 = eBucketStateOk →
            entriesMap b0 !! k = Some e0 →
            (computeThreadMagic e0 =? 0) = false →
            toMemorySegment (processLocalEntry lk) (properties e0) = None →
            insertInternal lk c0
            = Some (Normal
                      (eInsertRetCodeOutOfToCMemory, lk,
                       setBucket bi
                         (set_entriesMap
                            (<[k := set_properties ∅ e0]> (entriesMap b0)) b0)
                         c0))) as Hstep.
  { intros b0 e0 c0 Hb0 Hok0 He0 Hm0 Hf0.
    pose proof (getBucket_Some_lt _ _ _ Hb0) as Hlt0.
    unfold insertInternal. rewrite Hlk. simpl.
    unfold BucketStateHandler_RAII. rewrite Hb0. simpl.
    rewrite decide_True by done.
    unfold insertInternalScope. fold k.
    rewrite getBucket_setBucket_eq by done. simpl.
    unfold tryCacheLookupImpl. simpl. rewrite He0, Hm0.
    unfold serializeCacheEntry. rewrite Hp, Hf0.
    rewrite decide_False by done. simpl.
    rewrite setBucket_setBucket, getBucket_setBucket_eq by done. simpl.
    rewrite setBucket_setBucket. do 3 f_equal.
    rewrite <- Hok0. by destruct b0. }
  unfold insertInCache.
  rewrite (Hstep b e c Hb Hok He Hmagic Hfail1). simpl. fold b1 c1.
  rewrite (Hstep b1 (set_properties ∅ e) c1); try done.
  - simpl. f_equal. f_equal. unfold c1. rewrite setBucket_setBucket.
    f_equal. unfold b1, set_entriesMap. simpl. f_equal.
    by rewrite insert_insert_eq.
  - by apply getBucket_setBucket_eq.
  - apply lookup_insert_eq.
Qed.

End Cache.

(** * Concrete runs *)

(** The runs below instantiate the development at a tile size of 16384
    bytes and at the persistent cache. *)

(** ** The sample states *)

Lemma getBucket_emptyCache m i b :
  getBucket (emptyCache m) i = Some b → b = newBucket.
Proof.
  unfold getBucket, emptyCache.
  change (buckets (mkCache m (replicate 256 newBucket) 0 false))
    with (replicate 256 newBucket).
  intros H. by apply lookup_replicate in H as [-> _].
Qed.

Lemma emptyCache_accounted T m : cacheAccounted T (emptyCache m).
Proof.
  intros i b Hb. apply getBucket_emptyCache in Hb as ->.
  apply sizeAccounted_newBucket.
Qed.

Lemma oneEntryCache_accounted m : cacheAccounted 16384 (oneEntryCache m).
Proof.
  apply cacheAccounted_setBucket; [apply emptyCache_accounted|].
  by vm_compute.
Qed.

Lemma emptyCache_frontsEvictable m : frontsEvictable (emptyCache m).
Proof. intros i b Hb. apply getBucket_emptyCache in Hb as ->. by intros f. Qed.

Lemma frontsEvictable_setBucket i b c :
  frontsEvictable c → frontEvictable b → frontsEvictable (setBucket i b c).
Proof.
  intros Hc Hb j bj Hj. destruct (decide (i = j)) as [->|Hne].
  - pose proof (getBucket_Some_lt _ _ _ Hj) as Hlt.
    rewrite length_setBucket in Hlt.
    rewrite getBucket_setBucket_eq in Hj by done. by simplify_eq.
  - rewrite getBucket_setBucket_ne in Hj by done. by eapply Hc.
Qed.

Lemma twoEntryCache_frontsEvictable m : frontsEvictable (twoEntryCache m).
Proof.
  apply frontsEvictable_setBucket; [apply emptyCache_frontsEvictable|].
  intros f [= <-]. split; [done|].
  exists (readyEntry 1 1000 None (Some 257)).
  split; [by vm_compute|]. split; [done|]. split; [done|].
  intros x [= <-]. by eexists.
Qed.

(** The sample states are reached from the empty cache through the public
    operations: a miss reserves the entry, the insertion makes it Ready. *)
Lemma sample_states_reachable :
  let lk1 := set_bucket (Some 1%nat) (newLocker (samplePayload 1 1000)) in
  let lk257 := set_bucket (Some 1%nat) (newLocker (samplePayload 257 1000)) in
  get 16384 true 7 (samplePayload 1 1000) (emptyCache 0)
    = Some (lk1, pendingCache 0) ∧
  insertInCache true lk1 (pendingCache 0)
    = Some (set_lockerStatus eCacheEntryStatusCached lk1, oneEntryCache 0) ∧
  (∃ c, get 16384 true 7 (samplePayload 257 1000) (oneEntryCache 0)
          = Some (lk257, c) ∧
        insertInCache true lk257 c
          = Some (set_lockerStatus eCacheEntryStatusCached lk257,
                  twoEntryCache 0)).
Proof.
  split; [vm_compute; reflexivity|].
  split; [vm_compute; reflexivity|].
  eexists. split; [vm_compute; reflexivity|vm_compute; reflexivity].
Qed.

(** ** Bucket of a key *)

(** C1, as stated, fails at the key 0x0100000000000000: its top byte is 1,
    but [getBucketCacheBucketIndex] answers 0, and [Cache::get] on an empty
    cache pins the locker to bucket 0 and stores the reserved entry there;
    bucket 1 holds nothing under that key. *)
Lemma top_byte_is_not_the_bucket :
  let k := 2 ^ 56 in
  Z.shiftr k 56 = 1 ∧
  getBucketCacheBucketIndex k ≠ Z.shiftr k 56 ∧
  ∃ lk c b0 b1,
    get 16384 true 7 (samplePayload k 1000) (emptyCache 0) = Some (lk, c) ∧
    bucket lk = Some 0%nat ∧
    getBucket c 0 = Some b0 ∧ is_Some (entriesMap b0 !! k) ∧
    getBucket c 1 = Some b1 ∧ entriesMap b1 !! k = None.
Proof.
  split; [reflexivity|]. split; [by vm_compute|].
  eexists _, _, _, _.
  split; [vm_compute; reflexivity|].
  split; [reflexivity|].
  split; [vm_compute; reflexivity|].
  split; [by eexists|].
  split; [vm_compute; reflexivity|reflexivity].
Qed.

Lemma operations_address_low_byte_bucket_witness :
  0 ≤ 2 ^ 56 < 2 ^ 64 ∧
  getBucketCacheBucketIndex (2 ^ 56) = 2 ^ 56 mod 256 ∧
  hasCacheEntryForHash (2 ^ 56) (emptyCache 0) = Some false.
Proof.
  split; [lia|].
  destruct (operations_address_low_byte_bucket 16384 true (2 ^ 56))
    as (Hidx & Hhas & _); [lia|].
  split; [exact Hidx|]. rewrite Hhas. reflexivity.
Defined.

(** ** Eviction *)




Lemma evictLRUEntries_no_limit_witness :
  getMaximumCacheSize (oneEntryCache 0) = 0 ∧
  evictLRUEntries 16384 5 (oneEntryCache 0) = Some (oneEntryCache 0).
Proof.
  split; [reflexivity|].
  apply (evictLRUEntries_no_limit 16384 5 (oneEntryCache 0)). reflexivity.
Defined.

(** ** The LRU list *)

(** C3.  Bucket 1 holds the Ready entries 1 (front) and 257 (back).
    (1) [removeEntry] of the front entry 1 leaves entry 257 in the index and
    at the back of the list, but sets the front pointer to null instead of
    257.  (2) A hit on the front entry 1 moves its node behind 257 and
    leaves the front pointer on it: the node the front pointer designates
    then has 257 as its predecessor, while 257 itself has none. *)
Lemma lru_front_not_moved_to_successor :
  let c := twoEntryCache 0 in
  removeEntry 16384 (Some (samplePayload 1 1000)) c
    = Some (setBucket 1
              (mkBucket None (Some 257) 1 eBucketStateOk 1000
                        {[ 257 := readyEntry 257 1000 None None ]} ∅)
              (emptyCache 0)) ∧
  get 16384 true 7 (samplePayload 1 1000) c
    = Some (set_lockerStatus eCacheEntryStatusCached
              (set_bucket (Some 1%nat) (newLocker (samplePayload 1 1000))),
            setBucket 1
              (mkBucket (Some 1) (Some 1) 1 eBucketStateOk 2000
                        (<[ 257 := readyEntry 257 1000 None (Some 1) ]>
                           {[ 1 := readyEntry 1 1000 (Some 257) None ]}) ∅)
              (emptyCache 0)).
Proof. split; vm_compute; reflexivity. Qed.

(** ** Size accounting *)

(** C4, as stated, fails after a miss: [Cache::get] of a payload of 1000
    bytes on the empty cache stores a Pending entry of size 1000 in bucket
    1 and leaves the size of the bucket at 0, which is not the sum of the
    sizes of its Ready or Pending entries. *)
Lemma pending_entry_is_not_billed :
  let lk := set_bucket (Some 1%nat) (newLocker (samplePayload 1 1000)) in
  let b := mkBucket None None 1 eBucketStateOk 0
                    {[ 1 := pendingEntry 1000 7 ]} ∅ in
  get 16384 true 7 (samplePayload 1 1000) (emptyCache 0)
    = Some (lk, pendingCache 0) ∧
  getBucket (pendingCache 0) 1 = Some b ∧
  bucket_size b = 0 ∧
  sumValues (billedReadyOrPending 16384 <$> entriesMap b) = 1000 ∧
  ¬ sizeAccountedReadyOrPending 16384 b.
Proof.
  split; [vm_compute; reflexivity|]. split; [vm_compute; reflexivity|].
  split; [reflexivity|]. split; [vm_compute; reflexivity|].
  by vm_compute.
Qed.

Lemma size_accounting_preserved_witness :
  let c' := setBucket 1 (mkBucket None None 1 eBucketStateOk 0 ∅ ∅)
                      (emptyCache 0) in
  cacheAccounted 16384 (oneEntryCache 0) ∧
  cacheAccounted 16384 (clear (oneEntryCache 0)) ∧
  removeEntry 16384 (Some (samplePayload 1 1000)) (oneEntryCache 0) = Some c' ∧
  cacheAccounted 16384 c'.
Proof.
  intros c'. split; [apply oneEntryCache_accounted|].
  destruct (size_accounting_preserved 16384 true (oneEntryCache 0)
              (oneEntryCache_accounted 0)) as (Hclear & _ & _ & _ & _ & _ & Hrm).
  split; [exact Hclear|].
  assert (removeEntry 16384 (Some (samplePayload 1 1000)) (oneEntryCache 0)
          = Some c') as Hrun by (vm_compute; reflexivity).
  split; [exact Hrun|].
  refine (proj1 (Hrm (samplePayload 1 1000)
                   (mkBucket (Some 1) (Some 1) 1 eBucketStateOk 1000
                             {[ 1 := readyEntry 1 1000 None None ]} ∅)
                   c' _ _ Hrun)).
  - vm_compute; reflexivity.
  - intros e He. vm_compute in He. by injection He as <-.
Defined.

(** ** Tiles *)

Lemma createTileStorage_seeds c i b :
  useTileStorage c = true → getBucket c i = Some b →
  getBucket (createTileStorage c) i
  = Some (set_freeTiles
            (seedFreeTiles i (Z.of_nat (tilesStorage c)) (freeTiles b)) b).
Proof.
  unfold createTileStorage, getBucket. intros -> Hb. simpl.
  rewrite list_lookup_imap, Hb. done.
Qed.

(** C5.  Seeding the first storage file puts the tile of index 1 (encoded
    id 2^32), whose owner by [tile_index mod 256] is bucket 1, in the free
    set of bucket 0 and not in that of bucket 1: bucket [i] receives the
    indices [256 i .. 256 i + 255].  The tile loop of
    [deallocateCacheEntryImpl] goes by the other rule and returns that tile
    to the free set of bucket 1. *)
Lemma seeded_tile_is_not_in_its_owning_bucket :
  let t := encodeTileIndex 1 0 in
  let c0 := createTileStorage (emptyTileCache 0) in
  t = 2 ^ 32 ∧ fst (getTileIndex t) mod 256 = 1 ∧
  getBucket c0 0
    = Some (set_freeTiles (seedFreeTiles 0 0 ∅) newBucket) ∧
  getBucket c0 1
    = Some (set_freeTiles (seedFreeTiles 1 0 ∅) newBucket) ∧
  (t ∈ seedFreeTiles 0 0 ∅) ∧ (t ∉ seedFreeTiles 1 0 ∅) ∧
  freeTile t (emptyTileCache 0)
    = Some (setBucket 1 (set_freeTiles ({[ t ]} ∪ ∅) newBucket)
                      (emptyTileCache 0)).
Proof.
  split; [reflexivity|]. split; [reflexivity|].
  split; [by apply (createTileStorage_seeds (emptyTileCache 0) 0 newBucket)|].
  split; [by apply (createTileStorage_seeds (emptyTileCache 0) 1 newBucket)|].
  split; [apply (bool_decide_unpack _); vm_compute; exact I|].
  split; [apply (bool_decide_unpack _); vm_compute; exact I|].
  reflexivity.
Qed.

(** ** Lockers *)

(** C6.  Bucket 1 holds an entry reserved under hash 1 by thread 7.  Thread
    9, having waited for its whole timeout of 100 ms, looks the entry up
    under the write lock: the look-up answers Found with the locker in
    MustCompute status and the entry still Pending, but the cache is left
    as it was, [computeThreadMagic] still being 7.  The same holds through
    [lookupAndSetStatus], the entry point of [waitForPendingEntry]. *)
Lemma takeover_keeps_previous_owner :
  let lk := set_bucket (Some 1%nat) (newLocker (samplePayload 1 1000)) in
  let b := mkBucket None None 1 eBucketStateOk 0
                    {[ 1 := pendingEntry 1000 7 ]} ∅ in
  lookupAndSetStatusInternal 16384 true 9 true false 100 100 lk (pendingCache 0)
    = Some (eLookUpRetCodeFound, lk, pendingCache 0) ∧
  lookupAndSetStatus 16384 true 9 100 100 lk (pendingCache 0)
    = Some (lk, pendingCache 0) ∧
  lockerStatus lk = eCacheEntryStatusMustCompute ∧
  getBucket (pendingCache 0) 1 = Some b ∧
  (status <$> entriesMap b !! 1) = Some eEntryStatusPending ∧
  (computeThreadMagic <$> entriesMap b !! 1) = Some 7.
Proof. repeat split; vm_compute; reflexivity. Qed.

(** A polling interval that grows by the factor 1.2 of the source. *)
Lemma scaleWait_sample (t : Z) : 0 < t → t ≤ t * 12 / 10 ≤ 2 * t.
Proof.
  intros Ht. split.
  - apply Z.div_le_lower_bound; lia.
  - apply Z.div_le_upper_bound; lia.
Qed.



Lemma destroyLocker_rolls_back_witness :
  let lk := set_bucket (Some 1%nat) (newLocker (samplePayload 1 1000)) in
  destroyLocker 16384 (set_lockerStatus eCacheEntryStatusCached lk)
                (oneEntryCache 0) = Some (oneEntryCache 0) ∧
  ∃ c' b', destroyLocker 16384 lk (pendingCache 0) = Some c' ∧
           getBucket c' 1 = Some b' ∧ entriesMap b' !! 1 = None.
Proof.
  intros lk. split.
  - by apply (destroyLocker_rolls_back 16384
                (set_lockerStatus eCacheEntryStatusCached lk) (oneEntryCache 0)).
  - destruct (destroyLocker_rolls_back 16384 lk (pendingCache 0)) as [_ H].
    destruct (H 1%nat (mkBucket None None 1 eBucketStateOk 0
                         {[ 1 := pendingEntry 1000 7 ]} ∅))
      as [_ Hdrop]; [reflexivity| reflexivity | vm_compute; reflexivity
                     | reflexivity |].
    destruct (Hdrop (pendingEntry 1000 7))
      as (c' & b' & Hrun & Hb' & Hnone & _);
      [vm_compute; reflexivity | vm_compute; reflexivity
       | intros p Hp; discriminate Hp | intros x Hx; discriminate Hx |].
    by exists c', b'.
Defined.

Lemma hash_tag_written_last_and_checked_witness :
  let lk := set_bucket (Some 1%nat) (newLocker (samplePayload 1 1000)) in
  let b := mkBucket None None 1 eBucketStateOk 0
                    {[ 1 := pendingEntry 1000 7 ]} ∅ in
  length (buckets (pendingCache 0)) = 256%nat ∧
  bucket lk = Some 1%nat ∧ getBucket (pendingCache 0) 1 = Some b ∧
  entriesMap b !! lockerHash lk = Some (pendingEntry 1000 7) ∧
  insertInternal true lk (pendingCache 0)
    = Some (Normal (eInsertRetCodeCreated,
                    set_lockerStatus eCacheEntryStatusCached lk,
                    oneEntryCache 0)) ∧
  ∃ b' e',
    getBucket (oneEntryCache 0) 1 = Some b' ∧
    entriesMap b' !! 1 = Some e' ∧
    properties e' = setIPCProperty kNatronIPCPropertyHash 1 ∅ ∧
    getIPCProperty kNatronIPCPropertyHash (properties e') = Some 1 ∧
    status e' = eEntryStatusReady.
Proof.
  intros lk b.
  assert (length (buckets (pendingCache 0)) = 256%nat) as Hlen
    by (vm_compute; reflexivity).
  assert (getBucket (pendingCache 0) 1 = Some b) as Hb
    by (vm_compute; reflexivity).
  assert (entriesMap b !! lockerHash lk = Some (pendingEntry 1000 7)) as He
    by (vm_compute; reflexivity).
  assert (insertInternal true lk (pendingCache 0)
          = Some (Normal (eInsertRetCodeCreated,
                          set_lockerStatus eCacheEntryStatusCached lk,
                          oneEntryCache 0))) as Hrun
    by (vm_compute; reflexivity).
  split; [exact Hlen|]. split; [reflexivity|]. split; [exact Hb|].
  split; [exact He|]. split; [exact Hrun|].
  destruct (hash_tag_written_last_and_checked 16384 true 0 lk 1
              (pendingCache 0) b (pendingEntry 1000 7)
              eq_refl Hlen eq_refl Hb He) as [Hins _].
  destruct (Hins eq_refl) with (2 := Hrun)
    as (props & b' & e' & Hprops & Hb' & He' & Hpr & Htag & Hst);
    [by vm_compute|].
  exists b', e'. split; [exact Hb'|]. split; [exact He'|].
  split; [|by split].
  rewrite Hpr. vm_compute in Hprops. by injection Hprops as <-.
Defined.

(** ** Instances of the further properties *)

Lemma tile_index_round_trip_witness :
  0 ≤ 5 < 2 ^ 32 ∧ 0 ≤ 3 < 2 ^ 32 ∧ 0 ≤ 7 < 2 ^ 32 ∧ 0 ≤ 2 < 2 ^ 32 ∧
  getTileIndex (encodeTileIndex 5 3) = (5, 3) ∧
  (encodeTileIndex 5 3 = encodeTileIndex 7 2 → 5 = 7 ∧ 3 = 2).
Proof.
  split; [lia|]. split; [lia|]. split; [lia|]. split; [lia|].
  apply (tile_index_round_trip 5 3 7 2); lia.
Defined.

Lemma getBucketStorageIndex_selects_byte_witness :
  0 ≤ 0 ≤ 7 ∧
  getBucketStorageIndex 0 (2 ^ 56 + 5) = ((2 ^ 56 + 5) / 2 ^ (56 - 8 * 0)) mod 256 ∧
  0 ≤ getBucketStorageIndex 0 (2 ^ 56 + 5) < NATRON_CACHE_BUCKETS_COUNT.
Proof.
  split; [lia|]. apply (getBucketStorageIndex_selects_byte 0 (2 ^ 56 + 5)). lia.
Defined.

Lemma getBucketDirName_two_digits_distinct_witness :
  0 ≤ 10 < NATRON_CACHE_BUCKETS_COUNT ∧ 0 ≤ 171 < NATRON_CACHE_BUCKETS_COUNT ∧
  getBucketDirName 10 = "0a" ∧ getBucketDirName 171 = "ab" ∧
  String.length (getBucketDirName 10) = 2%nat ∧
  (getBucketDirName 10 = getBucketDirName 171 → 10 = 171).
Proof.
  assert (0 ≤ 10 < NATRON_CACHE_BUCKETS_COUNT) as H1 by (by vm_compute).
  assert (0 ≤ 171 < NATRON_CACHE_BUCKETS_COUNT) as H2 by (by vm_compute).
  split; [exact H1|]. split; [exact H2|].
  destruct (getBucketDirName_two_digits_distinct 10 171 H1 H2) as (_&Hl&Hinj).
  split; [reflexivity|]. split; [reflexivity|]. split; [exact Hl|exact Hinj].
Defined.

Lemma removeEntry_absent_key_witness :
  getBucket (oneEntryCache 0) 2 = Some newBucket ∧
  bucketState newBucket = eBucketStateOk ∧
  entriesMap newBucket !! 2 = None ∧
  removeEntry 16384 (Some (samplePayload 2 10)) (oneEntryCache 0)
  = Some (oneEntryCache 0).
Proof.
  split; [reflexivity|]. split; [reflexivity|]. split; [reflexivity|].
  apply (removeEntry_absent_key 16384 (samplePayload 2 10) (oneEntryCache 0)
           newBucket); reflexivity.
Defined.

Lemma inconsistent_bucket_wipes_cache_witness :
  let b := mkBucket (Some 1) (Some 1) 1 eBucketStateInconsistent 1000
                    {[ 1 := readyEntry 1 1000 None None ]} ∅ in
  getBucket (corruptedCache 0) 1 = Some b ∧
  bucketState b = eBucketStateInconsistent ∧
  removeEntry 16384 (Some (samplePayload 1 1000)) (corruptedCache 0)
  = Some (clear (corruptedCache 0)) ∧
  clear (corruptedCache 0) = emptyCache 0.
Proof.
  intros b. split; [reflexivity|]. split; [reflexivity|]. split.
  - apply (inconsistent_bucket_wipes_cache 16384 true 7 (samplePayload 1 1000)
             (corruptedCache 0) b); reflexivity.
  - vm_compute. reflexivity.
Defined.

Lemma clear_leaves_empty_cache_witness :
  length (buckets (twoEntryCache 0)) = Z.to_nat NATRON_CACHE_BUCKETS_COUNT ∧
  getCurrentSize (clear (twoEntryCache 0)) = 0 ∧
  hasCacheEntryForHash 257 (clear (twoEntryCache 0)) = Some false.
Proof.
  assert (length (buckets (twoEntryCache 0))
          = Z.to_nat NATRON_CACHE_BUCKETS_COUNT) as H
    by (vm_compute; reflexivity).
  split; [exact H|].
  destruct (clear_leaves_empty_cache (twoEntryCache 0) H) as (Hs&Hh&_).
  split; [exact Hs|apply Hh].
Defined.

Lemma insertInCache_without_reservation_witness :
  let lk := set_bucket (Some 1%nat) (newLocker (samplePayload 1 1000)) in
  bucket lk = Some 1%nat ∧ getBucket (emptyCache 0) 1 = Some newBucket ∧
  bucketState newBucket = eBucketStateOk ∧
  entriesMap newBucket !! lockerHash lk = None ∧
  insertInCache true lk (emptyCache 0) = Some (lk, emptyCache 0).
Proof.
  intros lk. split; [reflexivity|]. split; [reflexivity|].
  split; [reflexivity|]. split; [reflexivity|].
  destruct (insertInCache_without_reservation true lk 1 (emptyCache 0)
              newBucket) as [H _]; [reflexivity..|].
  apply H. reflexivity.
Defined.

Lemma get_of_pending_entry_witness :
  let lk := set_bucket (Some 1%nat) (newLocker (samplePayload 1 1000)) in
  let b := mkBucket None None 1 eBucketStateOk 0
                    {[ 1 := pendingEntry 1000 7 ]} ∅ in
  getBucket (pendingCache 0) 1 = Some b ∧
  entriesMap b !! 1 = Some (pendingEntry 1000 7) ∧
  status (pendingEntry 1000 7) = eEntryStatusPending ∧
  get 16384 true 9 (samplePayload 1 1000) (pendingCache 0)
  = Some (set_lockerStatus eCacheEntryStatusComputationPending lk,
          pendingCache 0) ∧
  get 16384 true 7 (samplePayload 1 1000) (pendingCache 0)
  = Some (lk, pendingCache 0).
Proof.
  intros lk b. split; [reflexivity|]. split; [reflexivity|].
  split; [reflexivity|]. split.
  - destruct (get_of_pending_entry 16384 true 9 (samplePayload 1 1000)
                (pendingCache 0) b (pendingEntry 1000 7)) as [H _];
      [reflexivity..|].
    apply H. right. simpl. lia.
  - destruct (get_of_pending_entry 16384 true 7 (samplePayload 1 1000)
                (pendingCache 0) b (pendingEntry 1000 7)) as [_ H];
      [reflexivity..|].
    apply H; reflexivity.
Defined.

Lemma insert_then_get_is_cached_witness :
  let en := samplePayload 1 1000 in
  getBucket (emptyCache 0) 1 = Some newBucket ∧
  bucketState newBucket = eBucketStateOk ∧
  entriesMap newBucket !! 1 = None ∧ 7 ≠ 0 ∧
  ∃ lk1 c1 lk2 c2 lk3,
    get 16384 true 7 en (emptyCache 0) = Some (lk1, c1) ∧
    lockerStatus lk1 = eCacheEntryStatusMustCompute ∧
    insertInCache true lk1 c1 = Some (lk2, c2) ∧
    lockerStatus lk2 = eCacheEntryStatusCached ∧
    hasCacheEntryForHash 1 c2 = Some true ∧
    get 16384 true 9 en c2 = Some (lk3, c2) ∧
    lockerStatus lk3 = eCacheEntryStatusCached.
Proof.
  intros en. split; [reflexivity|]. split; [reflexivity|].
  split; [reflexivity|]. split; [lia|].
  apply (insert_then_get_is_cached 16384 true 7 9 en (emptyCache 0) newBucket ∅);
    [reflexivity|reflexivity|reflexivity|lia| |].
  - intros p Hp. discriminate Hp.
  - intros _. split; [reflexivity|]. split; reflexivity.
Defined.

Lemma lruListIs_reserved :
  lruListIs (mkBucket (Some 1) (Some 1) 1 eBucketStateOk 1000
               (<[ 257 := pendingEntry 1000 7 ]>
                  {[ 1 := readyEntry 1 1000 None None ]}) ∅) [1].
Proof.
  split; [apply NoDup_singleton|]. split; [done|]. split; [done|].
  split; [|done]. by exists (readyEntry 1 1000 None None).
Qed.

Lemma lruListIs_two :
  lruListIs (mkBucket (Some 1) (Some 257) 1 eBucketStateOk 2000
               (<[ 257 := readyEntry 257 1000 (Some 1) None ]>
                  {[ 1 := readyEntry 1 1000 None (Some 257) ]}) ∅)
            ([1] ++ [257]).
Proof.
  split. { apply (bool_decide_unpack _). by vm_compute. }
  split; [done|]. split; [done|]. split.
  { by exists (readyEntry 1 1000 None (Some 257)). }
  split; [|done]. by exists (readyEntry 257 1000 (Some 1) None).
Qed.

Lemma insertInCache_appends_to_lru_witness :
  let lk := set_bucket (Some 1%nat) (newLocker (samplePayload 257 1000)) in
  let b := mkBucket (Some 1) (Some 1) 1 eBucketStateOk 1000
                    (<[ 257 := pendingEntry 1000 7 ]>
                       {[ 1 := readyEntry 1 1000 None None ]}) ∅ in
  getBucket (reservedBesideReadyCache 0) 1 = Some b ∧
  lruListIs b [1] ∧ (257 ∉ [1]) ∧
  ∃ c' b',
    insertInCache true lk (reservedBesideReadyCache 0)
      = Some (set_lockerStatus eCacheEntryStatusCached lk, c') ∧
    getBucket c' 1 = Some b' ∧ lruListIs b' ([1] ++ [257]) ∧
    bucket_size b' = 2000.
Proof.
  intros lk b.
  assert (257 ∉ [1]) as Hnot.
  { intros H%list_elem_of_singleton. discriminate H. }
  split; [reflexivity|]. split; [apply lruListIs_reserved|].
  split; [exact Hnot|].
  destruct (insertInCache_appends_to_lru true lk 1 (reservedBesideReadyCache 0)
              b (pendingEntry 1000 7) [1])
    as (c'&b'&e'&Hrun&Hb'&Hlru&_&_&Hsz&_);
    [reflexivity|reflexivity|reflexivity|reflexivity|by vm_compute|reflexivity
    |apply lruListIs_reserved|exact Hnot|].
  exists c', b'. split; [exact Hrun|]. split; [exact Hb'|].
  split; [exact Hlru|]. rewrite Hsz. reflexivity.
Defined.

Lemma removeEntry_most_recent_keeps_lru_witness :
  let b := mkBucket (Some 1) (Some 257) 1 eBucketStateOk 2000
                    (<[ 257 := readyEntry 257 1000 (Some 1) None ]>
                       {[ 1 := readyEntry 1 1000 None (Some 257) ]}) ∅ in
  getBucket (twoEntryCache 0) 1 = Some b ∧ lruListIs b ([1] ++ [257]) ∧
  ∃ c' b',
    removeEntry 16384 (Some (samplePayload 257 1000)) (twoEntryCache 0)
      = Some c' ∧
    getBucket c' 1 = Some b' ∧ lruListIs b' [1] ∧
    entriesMap b' !! 257 = None.
Proof.
  intros b. split; [reflexivity|]. split; [apply lruListIs_two|].
  destruct (removeEntry_most_recent_keeps_lru 16384 (samplePayload 257 1000)
              (twoEntryCache 0) b [1])
    as (c'&b'&Hrun&Hb'&Hlru&Hnone&_);
    [vm_compute; reflexivity|reflexivity|reflexivity
    |apply lruListIs_two|].
  exists c', b'. split; [exact Hrun|]. split; [exact Hb'|].
  split; [exact Hlru|exact Hnone].
Defined.

Lemma destroyLocker_keeps_lru_witness :
  let lk := set_bucket (Some 1%nat) (newLocker (samplePayload 257 1000)) in
  let b := mkBucket (Some 1) (Some 1) 1 eBucketStateOk 1000
                    (<[ 257 := pendingEntry 1000 7 ]>
                       {[ 1 := readyEntry 1 1000 None None ]}) ∅ in
  getBucket (reservedBesideReadyCache 0) 1 = Some b ∧ lruListIs b [1] ∧
  ∃ c' b',
    destroyLocker 16384 lk (reservedBesideReadyCache 0) = Some c' ∧
    getBucket c' 1 = Some b' ∧ lruListIs b' [1] ∧
    entriesMap b' !! 257 = None.
Proof.
  intros lk b. split; [reflexivity|]. split; [apply lruListIs_reserved|].
  destruct (destroyLocker_keeps_lru 16384 lk 1 (reservedBesideReadyCache 0)
              b (pendingEntry 1000 7) [1])
    as (c'&b'&Hrun&Hb'&Hlru&Hnone&_);
    [vm_compute; reflexivity|reflexivity|reflexivity|reflexivity|reflexivity
    |reflexivity|reflexivity|reflexivity|apply lruListIs_reserved| |].
  { intros H%list_elem_of_singleton. discriminate H. }
  exists c', b'. split; [exact Hrun|]. split; [exact Hb'|].
  split; [exact Hlru|exact Hnone].
Defined.

Lemma createTileStorage_distributes_tiles_witness :
  useTileStorage (emptyTileCache 0) = true ∧
  getBucket (emptyTileCache 0) 0 = Some newBucket ∧
  0 ≤ 1 < NATRON_NUM_TILES_PER_FILE ∧
  ∃ b', getBucket (createTileStorage (emptyTileCache 0)) 0 = Some b' ∧
        (encodeTileIndex 1 0 ∈ freeTiles b' ↔
         encodeTileIndex 1 0 ∈ freeTiles newBucket ∨ 1 / 256 = Z.of_nat 0) ∧
        tilesStorage (createTileStorage (emptyTileCache 0)) = 1%nat.
Proof.
  split; [reflexivity|]. split; [reflexivity|]. split; [by vm_compute|].
  apply (createTileStorage_distributes_tiles (emptyTileCache 0) 0 newBucket 1);
    [reflexivity|by vm_compute|vm_compute; lia|reflexivity|by vm_compute].
Defined.

Lemma releaseTiles_frees_without_unbilling_witness :
  let b := mkBucket None None 1 eBucketStateOk 0
                    {[ 1 := pendingEntry 1000 7 ]} ∅ in
  length (buckets (pendingTileCache 0)) = Z.to_nat NATRON_CACHE_BUCKETS_COUNT ∧
  getBucket (pendingTileCache 0) 1 = Some b ∧
  ∃ c' tb,
    releaseTiles (samplePayload 1 1000) [2] [5] (pendingTileCache 0) = Some c' ∧
    getBucket c' (Z.to_nat (getBucketIndexForTile 1 2)) = Some tb ∧
    5 ∈ freeTiles tb ∧
    getCurrentSize c' = getCurrentSize (pendingTileCache 0).
Proof.
  intros b.
  assert (length (buckets (pendingTileCache 0))
          = Z.to_nat NATRON_CACHE_BUCKETS_COUNT) as Hlen
    by (vm_compute; reflexivity).
  split; [exact Hlen|]. split; [reflexivity|].
  destruct (releaseTiles_frees_without_unbilling (samplePayload 1 1000) [2] [5]
              (pendingTileCache 0) b)
    as (c'&b'&Hrun&_&Hfree&_&Hsz&_);
    [exact Hlen|reflexivity|discriminate|reflexivity|].
  destruct (Hfree 0%nat 2 5) as (tb&Htb&Hin); [reflexivity|reflexivity|].
  exists c', tb. split; [exact Hrun|]. split; [exact Htb|].
  split; [exact Hin|exact Hsz].
Defined.

Lemma setMaximumCacheSize_evicts_only_when_shrinking_witness :
  setMaximumCacheSize 16384 0 (twoEntryCache 1000)
  = Some (set_maximumSize 0 (twoEntryCache 1000)) ∧
  0 < 500 < getMaximumCacheSize (twoEntryCache 1000) ∧
  frontsEvictable (twoEntryCache 1000) ∧
  ∃ c', setMaximumCacheSize 16384 500 (twoEntryCache 1000) = Some c' ∧
        getMaximumCacheSize c' = 500 ∧
        (getCurrentSize c' ≤ 500 ∨ allFrontsNull c') ∧
        length (buckets c') = length (buckets (twoEntryCache 1000)) ∧
        (hasCacheEntryForHash 257 c' = Some true →
         hasCacheEntryForHash 257 (twoEntryCache 1000) = Some true).
Proof.
  split.
  - destruct (setMaximumCacheSize_evicts_only_when_shrinking 16384 0
                (twoEntryCache 1000)) as [H _].
    apply H. right. reflexivity.
  - split; [vm_compute; split; reflexivity|].
    split; [apply twoEntryCache_frontsEvictable|].
    destruct (setMaximumCacheSize_evicts_only_when_shrinking 16384 500
                (twoEntryCache 1000)) as (_&Hsafe&H).
    destruct H as (c'&Hrun&Hmax&Hsize);
      [vm_compute; split; reflexivity|vm_compute; reflexivity
      |apply twoEntryCache_frontsEvictable|].
    destruct (Hsafe c' Hrun) as (_&Hlen&Hkeys).
    exists c'. split; [exact Hrun|]. split; [exact Hmax|].
    split; [exact Hsize|]. split; [exact Hlen|apply Hkeys].
Defined.

Lemma waitForPendingEntry_takes_over_witness :
  let lk := set_bucket (Some 1%nat) (newLocker (samplePayload 1 1000)) in
  let b := mkBucket None None 1 eBucketStateOk 0
                    {[ 1 := pendingEntry 1000 7 ]} ∅ in
  getBucket (pendingCache 0) 1 = Some b ∧
  0 < 100 < 2 ^ 62 ∧ (Z.to_nat 100 + 2 ≤ 102)%nat ∧
  waitForPendingEntry 16384 true (λ t, t * 12 / 10) 102 9 100 lk
                      (pendingCache 0)
  = Some (waitReturned (set_lockerStatus eCacheEntryStatusMustCompute lk)
                       (pendingCache 0)).
Proof.
  intros lk b. split; [reflexivity|]. split; [lia|]. split; [lia|].
  apply (waitForPendingEntry_takes_over 16384 true (λ t, t * 12 / 10) 102 9 100
           lk (pendingCache 0) 1 b (pendingEntry 1000 7));
    [reflexivity|reflexivity|reflexivity|reflexivity|lia
    |apply scaleWait_sample|lia].
Defined.

Lemma waitForPendingEntry_without_timeout_keeps_waiting_witness :
  let lk := set_bucket (Some 1%nat) (newLocker (samplePayload 1 1000)) in
  let b := mkBucket None None 1 eBucketStateOk 0
                    {[ 1 := pendingEntry 1000 7 ]} ∅ in
  getBucket (pendingCache 0) 1 = Some b ∧
  computeThreadMagic (pendingEntry 1000 7) ≠ 9 ∧
  waitForPendingEntry 16384 true (λ t, t * 12 / 10) 50 9 0 lk (pendingCache 0)
  = Some waitOutOfFuel.
Proof.
  intros lk b. split; [reflexivity|]. split; [by vm_compute|].
  apply (waitForPendingEntry_without_timeout_keeps_waiting 16384 true
           (λ t, t * 12 / 10) 50 9 lk (pendingCache 0) 1 b
           (pendingEntry 1000 7));
    [reflexivity|reflexivity|reflexivity|reflexivity|].
  right. by vm_compute.
Defined.

Lemma pendingTileCache_no_free_tile m i b :
  getBucket (pendingTileCache m) i = Some b → freeTiles b = ∅.
Proof.
  unfold pendingTileCache. intros Hb.
  destruct (decide (i = 1%nat)) as [->|Hne].
  - rewrite getBucket_setBucket_eq in Hb by (vm_compute; lia).
    by injection Hb as <-.
  - rewrite getBucket_setBucket_ne in Hb by done.
    unfold getBucket, emptyTileCache in Hb.
    change (buckets (mkCache m (replicate 256 newBucket) 0 true))
      with (replicate 256 newBucket) in Hb.
    by apply lookup_replicate in Hb as [-> _].
Qed.

Lemma pendingTileCache_consistent m : tilesConsistent (pendingTileCache m).
Proof.
  split.
  - intros i b t Hb Ht. apply pendingTileCache_no_free_tile in Hb.
    rewrite Hb in Ht. by apply not_elem_of_empty in Ht.
  - intros i j b b' t _ Hb _ Ht. apply pendingTileCache_no_free_tile in Hb.
    rewrite Hb in Ht. by apply not_elem_of_empty in Ht.
Qed.

Lemma retrieveAndLockTiles_allocates_distinct_tiles_witness :
  let c := pendingTileCache 0 in
  let en := samplePayload 1 1000 in
  let b := mkBucket None None 1 eBucketStateOk 0
                    {[ 1 := pendingEntry 1000 7 ]} ∅ in
  length (buckets c) = Z.to_nat NATRON_CACHE_BUCKETS_COUNT ∧
  useTileStorage c = true ∧ tilesConsistent c ∧ tilesTaken c [] ∧
  getBucket c 1 = Some b ∧
  ∃ al c' al2 c'',
    retrieveAndLockTiles 16384 en [0; 1; 256] c = Some (true, al, c') ∧
    NoDup al ∧ length al = 3%nat ∧ tilesConsistent c' ∧ tilesTaken c' al ∧
    retrieveAndLockTiles 16384 en [0; 1] c' = Some (true, al2, c'') ∧
    NoDup al2 ∧ length al2 = 2%nat ∧ (∀ t, t ∈ al2 → t ∉ al) ∧
    tilesTaken c'' (al2 ++ al).
Proof.
  intros c en b.
  assert (length (buckets c) = Z.to_nat NATRON_CACHE_BUCKETS_COUNT) as Hlen
    by (vm_compute; reflexivity).
  assert (tilesTaken c []) as Hnone.
  { intros a Ha. by apply elem_of_nil in Ha. }
  split; [exact Hlen|]. split; [reflexivity|].
  split; [apply pendingTileCache_consistent|]. split; [exact Hnone|].
  split; [reflexivity|].
  destruct (retrieveAndLockTiles_allocates_distinct_tiles 16384 en [0; 1; 256]
              [] c b (pendingEntry 1000 7))
    as (al&c'&b'&e'&Hrun&Hnd&Hl&_&Htaken&Hcons&Hlen'&Huse'&Hts'&Hb'&He'&_);
    [exact Hlen|reflexivity|vm_compute; discriminate
    |apply pendingTileCache_consistent|exact Hnone|reflexivity|reflexivity
    |discriminate|].
  rewrite app_nil_r in Htaken.
  destruct (retrieveAndLockTiles_allocates_distinct_tiles 16384 en [0; 1]
              al c' b' e')
    as (al2&c''&_&_&Hrun2&Hnd2&Hl2&Hfresh&Htaken2&_);
    [by rewrite Hlen'|exact Huse'
    |change (tilesStorage c) with 0%nat in Hts'; simpl in Hts' |- *; lia
    |exact Hcons|exact Htaken|exact Hb'|exact He'|discriminate|].
  exists al, c', al2, c''. split; [exact Hrun|]. split; [exact Hnd|].
  split; [exact Hl|]. split; [exact Hcons|]. split; [exact Htaken|].
  split; [exact Hrun2|]. split; [exact Hnd2|]. split; [exact Hl2|].
  split; [exact Hfresh|exact Htaken2].
Defined.

Lemma evictLRUEntries_twoEntryCache :
  evictLRUEntries 16384 0 (twoEntryCache 1000)
  = Some (setBucket 1
            (mkBucket None (Some 257) 1 eBucketStateOk 1000
                      {[ 257 := readyEntry 257 1000 None None ]} ∅)
            (emptyCache 1000)).
Proof. vm_compute. reflexivity. Qed.

Lemma evictLRUEntries_only_removes_witness :
  let c' := setBucket 1
              (mkBucket None (Some 257) 1 eBucketStateOk 1000
                        {[ 257 := readyEntry 257 1000 None None ]} ∅)
              (emptyCache 1000) in
  evictLRUEntries 16384 0 (twoEntryCache 1000) = Some c' ∧
  length (buckets c') = length (buckets (twoEntryCache 1000)) ∧
  getMaximumCacheSize c' = getMaximumCacheSize (twoEntryCache 1000) ∧
  (hasCacheEntryForHash 257 c' = Some true →
   hasCacheEntryForHash 257 (twoEntryCache 1000) = Some true).
Proof.
  intros c'. split; [exact evictLRUEntries_twoEntryCache|].
  destruct (evictLRUEntries_only_removes 16384 0 (twoEntryCache 1000) c'
              evictLRUEntries_twoEntryCache) as (Hlen&Hmax&_&Hhas).
  split; [exact Hlen|]. split; [exact Hmax|apply Hhas].
Defined.

Lemma evictLRUEntries_evicts_front_witness :
  let c' := setBucket 1
              (mkBucket None (Some 257) 1 eBucketStateOk 1000
                        {[ 257 := readyEntry 257 1000 None None ]} ∅)
              (emptyCache 1000) in
  let b := mkBucket (Some 1) (Some 257) 1 eBucketStateOk 2000
                    (<[ 257 := readyEntry 257 1000 (Some 1) None ]>
                       {[ 1 := readyEntry 1 1000 None (Some 257) ]}) ∅ in
  evictLRUEntries 16384 0 (twoEntryCache 1000) = Some c' ∧
  getMaximumCacheSize (twoEntryCache 1000) ≠ 0 ∧
  getCurrentSize (twoEntryCache 1000) > evictionTarget 0 (twoEntryCache 1000) ∧
  getBucket (twoEntryCache 1000) 1 = Some b ∧ lruListFront b = Some 1 ∧
  ∃ b', getBucket c' 1 = Some b' ∧ entriesMap b' !! 1 = None.
Proof.
  intros c' b.
  assert (getMaximumCacheSize (twoEntryCache 1000) ≠ 0) as Hmax
    by (by vm_compute).
  assert (getCurrentSize (twoEntryCache 1000)
          > evictionTarget 0 (twoEntryCache 1000)) as Hgt by (by vm_compute).
  split; [exact evictLRUEntries_twoEntryCache|]. split; [exact Hmax|].
  split; [exact Hgt|]. split; [reflexivity|]. split; [reflexivity|].
  apply (evictLRUEntries_evicts_front 16384 0 (twoEntryCache 1000) c' 1 b 1
           (readyEntry 1 1000 None (Some 257)));
    [exact evictLRUEntries_twoEntryCache|exact Hmax|exact Hgt|vm_compute; lia
    |reflexivity|reflexivity|reflexivity|reflexivity|lia].
Defined.

Lemma insertInCache_serialization_failure_witness :
  let lk := set_bucket (Some 1%nat)
                       (newLocker (unserializablePayload 1 1000)) in
  let b := mkBucket None None 1 eBucketStateOk 0
                    {[ 1 := pendingEntry 1000 7 ]} ∅ in
  getBucket (pendingCache 0) 1 = Some b ∧
  entriesMap b !! lockerHash lk = Some (pendingEntry 1000 7) ∧
  computeThreadMagic (pendingEntry 1000 7) ≠ 0 ∧
  insertInCache true lk (pendingCache 0) = Some (lk, pendingCache 0).
Proof.
  intros lk b.
  assert (computeThreadMagic (pendingEntry 1000 7) ≠ 0) as Hm
    by (by vm_compute).
  split; [reflexivity|]. split; [reflexivity|]. split; [exact Hm|].
  rewrite (insertInCache_serialization_failure true lk 1 (pendingCache 0) b
             (pendingEntry 1000 7));
    [|reflexivity|reflexivity|reflexivity|reflexivity|reflexivity|exact Hm
     |reflexivity|reflexivity].
  vm_compute. reflexivity.
Defined.
